(** * Portfolio site scripts: a shallow embedding and its properties

    The site's behaviour lives in two script files,
    [script_topnav_backup.js] and [script_new.js].  Each handler is
    embedded as a function on an explicit state: the part of the DOM it
    reads and writes, plus the script's own globals.  Definitions come
    first, one module per concern; the properties follow. *)

From stdpp Require Import gmap strings list.
From Stdlib Require Import Ascii ZArith QArith.QArith_base QArith.Qabs QArith.Qround.
From Stdlib Require Import Lia Lqa Floats.SpecFloat.

Close Scope Q_scope.
Local Open Scope string_scope.
Local Open Scope list_scope.

(** ** The DOM store shared by all handlers *)

Module Dom.

(** A DOM node is known by its identity. *)
Definition elem := nat.

Record t := Mk {
  classList : gmap elem (gset string);        (* element.classList *)
  attributes : gmap (elem * string) string;  (* element.getAttribute(name) *)
  bodyOverflow : string;                      (* document.body.style.overflow *)
  activeElement : option elem;                (* document.activeElement, None = null *)
}.

Definition classes (d : t) (e : elem) : gset string :=
  default ∅ (classList d !! e).

(** [e.classList.contains(c)] *)
Definition contains (e : elem) (c : string) (d : t) : bool :=
  bool_decide (c ∈ classes d e).

Definition setClasses (e : elem) (cs : gset string) (d : t) : t :=
  Mk (<[e := cs]> (classList d)) (attributes d) (bodyOverflow d) (activeElement d).

(** [e.classList.add(c)] *)
Definition add (e : elem) (c : string) (d : t) : t :=
  setClasses e (classes d e ∪ {[c]}) d.

(** [e.classList.remove(c)] *)
Definition remove (e : elem) (c : string) (d : t) : t :=
  setClasses e (classes d e ∖ {[c]}) d.

(** [e.classList.toggle(c)] *)
Definition toggle (e : elem) (c : string) (d : t) : t :=
  if contains e c d then remove e c d else add e c d.

Definition getAttribute (e : elem) (a : string) (d : t) : option string :=
  attributes d !! (e, a).

Definition setAttribute (e : elem) (a v : string) (d : t) : t :=
  Mk (classList d) (<[(e, a) := v]> (attributes d)) (bodyOverflow d) (activeElement d).

Definition setOverflow (v : string) (d : t) : t :=
  Mk (classList d) (attributes d) v (activeElement d).

(** [e.focus()]: the element becomes [document.activeElement]. *)
Definition focus (e : elem) (d : t) : t :=
  Mk (classList d) (attributes d) (bodyOverflow d) (Some e).

(** [e?.focus()] *)
Definition focusOpt (o : option elem) (d : t) : t :=
  match o with Some e => focus e d | None => d end.

(** A document with no classes, no attributes and nothing focused. *)
Definition empty : t := Mk ∅ ∅ "" None.

(** How a boolean reads once stored in an attribute. *)
Definition ofBool (b : bool) : string := if b then "true" else "false".

End Dom.

(** ** JavaScript strings as sequences of UTF-16 code units *)

Module Js.

Definition jsstring := list Z.

Definition unit (a : ascii) : Z := Z.of_N (N_of_ascii a).

(** A literal of the source text. *)
Fixpoint lit (s : string) : jsstring :=
  match s with
  | EmptyString => []
  | String a r => unit a :: lit r
  end.

(** WhiteSpace and LineTerminator of the language: what [trim] strips
    and what [\s] matches. *)
Definition isWhiteSpace (c : Z) : bool :=
  ((9 <=? c) && (c <=? 13))%Z
  || (c =? 32)%Z || (c =? 160)%Z || (c =? 5760)%Z
  || ((8192 <=? c) && (c <=? 8202))%Z
  || (c =? 8232)%Z || (c =? 8233)%Z || (c =? 8239)%Z || (c =? 8287)%Z
  || (c =? 12288)%Z || (c =? 65279)%Z.

Fixpoint trimStart (s : jsstring) : jsstring :=
  match s with
  | [] => []
  | c :: r => if isWhiteSpace c then trimStart r else s
  end.

Definition trimEnd (s : jsstring) : jsstring :=
  reverse (trimStart (reverse s)).

(** [s.trim()] *)
Definition trim (s : jsstring) : jsstring := trimEnd (trimStart s).

(** Truthiness of a string: only the empty string is falsy. *)
Definition truthy (s : jsstring) : bool :=
  match s with [] => false | _ => true end.

(** [s.length] *)
Definition length (s : jsstring) : Z := Z.of_nat (List.length s).

End Js.

(** ** Regular expressions over code units, matched by derivatives *)

Module Regex.

Inductive re :=
| Never
| Eps
| Class (p : Z → bool)
| Cat (r1 r2 : re)
| Alt (r1 r2 : re)
| Star (r : re).

(** [r+] *)
Definition Plus (r : re) : re := Cat r (Star r).

Fixpoint nullable (r : re) : bool :=
  match r with
  | Never => false
  | Eps => true
  | Class _ => false
  | Cat r1 r2 => nullable r1 && nullable r2
  | Alt r1 r2 => nullable r1 || nullable r2
  | Star _ => true
  end.

Fixpoint deriv (c : Z) (r : re) : re :=
  match r with
  | Never => Never
  | Eps => Never
  | Class p => if p c then Eps else Never
  | Cat r1 r2 =>
      if nullable r1 then Alt (Cat (deriv c r1) r2) (deriv c r2)
      else Cat (deriv c r1) r2
  | Alt r1 r2 => Alt (deriv c r1) (deriv c r2)
  | Star r => Cat (deriv c r) (Star r)
  end.

(** [/^r$/.test(s)]: the whole string is in the language of [r]. *)
Fixpoint test (r : re) (s : Js.jsstring) : bool :=
  match s with
  | [] => nullable r
  | c :: s' => test (deriv c r) s'
  end.

(** The language of an expression. *)
Inductive Matches : re → Js.jsstring → Prop :=
| MEps : Matches Eps []
| MClass p c : p c = true → Matches (Class p) [c]
| MCat r1 r2 s1 s2 : Matches r1 s1 → Matches r2 s2 → Matches (Cat r1 r2) (s1 ++ s2)
| MAltL r1 r2 s : Matches r1 s → Matches (Alt r1 r2) s
| MAltR r1 r2 s : Matches r2 s → Matches (Alt r1 r2) s
| MStar0 r : Matches (Star r) []
| MStarS r s1 s2 : Matches r s1 → Matches (Star r) s2 → Matches (Star r) (s1 ++ s2).

(** [[^\s@]] *)
Definition notSpaceAt (c : Z) : bool :=
  negb (Js.isWhiteSpace c) && negb (c =? 64)%Z.

Definition isChar (a : ascii) (c : Z) : bool := (c =? Js.unit a)%Z.

(** [/^[^\s@]+@[^\s@]+\.[^\s@]+$/], the pattern both scripts use. *)
Definition emailPattern : re :=
  Cat (Plus (Class notSpaceAt))
   (Cat (Class (isChar "@"%char))
    (Cat (Plus (Class notSpaceAt))
     (Cat (Class (isChar "."%char))
          (Plus (Class notSpaceAt))))).

(** A non-empty run of characters that are neither space nor [@]. *)
Definition plain (s : Js.jsstring) : Prop :=
  s ≠ [] ∧ Forall (fun c => notSpaceAt c = true) s.

(** The [local@domain.tld] shape: three such runs, joined by [@] and
    by a dot. *)
Definition emailShape (s : Js.jsstring) : Prop :=
  ∃ l d t, s = l ++ [64%Z] ++ d ++ [46%Z] ++ t ∧ plain l ∧ plain d ∧ plain t.

End Regex.

(** ** [encodeURIComponent] *)

Module Uri.

(** Letters, digits and [- _ . ! ~ * ' ( )] pass through unescaped. *)
Definition isUnreserved (c : Z) : bool :=
  ((65 <=? c) && (c <=? 90))%Z || ((97 <=? c) && (c <=? 122))%Z
  || ((48 <=? c) && (c <=? 57))%Z
  || (c =? 45)%Z || (c =? 95)%Z || (c =? 46)%Z || (c =? 33)%Z || (c =? 126)%Z
  || (c =? 42)%Z || (c =? 39)%Z || (c =? 40)%Z || (c =? 41)%Z.

Definition isLeadSurrogate (c : Z) : bool := ((55296 <=? c) && (c <=? 56319))%Z.
Definition isTrailSurrogate (c : Z) : bool := ((56320 <=? c) && (c <=? 57343))%Z.

(** The code point of a surrogate pair. *)
Definition codePoint (hi lo : Z) : Z :=
  ((hi - 55296) * 1024 + (lo - 56320) + 65536)%Z.

(** The UTF-8 octets of a code point. *)
Definition utf8 (cp : Z) : list Z :=
  if (cp <? 128)%Z then [cp]
  else if (cp <? 2048)%Z then
    [Z.lor 192 (Z.shiftr cp 6); Z.lor 128 (Z.land cp 63)]
  else if (cp <? 65536)%Z then
    [Z.lor 224 (Z.shiftr cp 12);
     Z.lor 128 (Z.land (Z.shiftr cp 6) 63);
     Z.lor 128 (Z.land cp 63)]
  else
    [Z.lor 240 (Z.shiftr cp 18);
     Z.lor 128 (Z.land (Z.shiftr cp 12) 63);
     Z.lor 128 (Z.land (Z.shiftr cp 6) 63);
     Z.lor 128 (Z.land cp 63)].

(** One upper-case hexadecimal digit, as a code unit. *)
Definition hexDigit (n : Z) : Z :=
  let n := Z.land n 15 in
  if (n <? 10)%Z then (48 + n)%Z else (55 + n)%Z.

(** [%XX] for one octet. *)
Definition escapeOctet (b : Z) : Js.jsstring :=
  [37%Z; hexDigit (Z.shiftr b 4); hexDigit b].

Definition escape (cp : Z) : Js.jsstring :=
  concat (map escapeOctet (utf8 cp)).

(** [None] stands for the [URIError] the built-in throws on an unpaired
    surrogate. *)
Fixpoint encodeURIComponent (s : Js.jsstring) : option Js.jsstring :=
  match s with
  | [] => Some []
  | c :: r =>
      if isUnreserved c then cons c <$> encodeURIComponent r
      else if isLeadSurrogate c then
        match r with
        | d :: r' =>
            if isTrailSurrogate d
            then app (escape (codePoint c d)) <$> encodeURIComponent r'
            else None
        | [] => None
        end
      else if isTrailSurrogate c then None
      else app (escape c) <$> encodeURIComponent r
  end.

(** No unpaired surrogate occurs in the string. *)
Fixpoint wellFormed (s : Js.jsstring) : bool :=
  match s with
  | [] => true
  | c :: r =>
      if isLeadSurrogate c then
        match r with
        | d :: r' => isTrailSurrogate d && wellFormed r'
        | [] => false
        end
      else negb (isTrailSurrogate c) && wellFormed r
  end.

(** The characters an encoded component is made of. *)
Definition isSafe (c : Z) : bool :=
  isUnreserved c || (c =? 37)%Z.

End Uri.

(** ** Property lookup on an object literal *)

Module JsObject.

(** What [obj[key]] can yield for an object literal whose own values
    are strings: nothing, an own string, or a member every object
    inherits from [Object.prototype]. *)
Inductive value :=
| Undefined
| Str (s : string)
| Inherited (name : string).

Definition objectPrototype : list string :=
  [ "constructor"; "hasOwnProperty"; "isPrototypeOf"; "propertyIsEnumerable";
    "toLocaleString"; "toString"; "valueOf"; "__proto__";
    "__defineGetter__"; "__defineSetter__"; "__lookupGetter__"; "__lookupSetter__" ].

(** [obj[key]]: own properties first, then the prototype. *)
Definition get (own : gmap string string) (key : string) : value :=
  match own !! key with
  | Some v => Str v
  | None => if bool_decide (key ∈ objectPrototype) then Inherited key else Undefined
  end.

Definition truthy (v : value) : bool :=
  match v with
  | Undefined => false
  | Str s => negb (bool_decide (s = ""))
  | Inherited _ => true
  end.

(** [String(key)] for a key that may be [null]. *)
Definition keyOf (k : option string) : string := default "null" k.

End JsObject.

(** ** Page geometry read by the scroll handlers *)

Module Layout.

Record t := Mk {
  offsetTop : Dom.elem → Z;       (* element.offsetTop *)
  offsetHeight : Dom.elem → Z;    (* element.offsetHeight *)
}.

(** [a >= b] on numbers *)
Definition geq (a b : Q) : bool := Qle_bool b a.

(** [a < b] on numbers *)
Definition lt (a b : Q) : bool := negb (Qle_bool b a).

(** The range of the integers that [offsetTop], [offsetHeight] and
    [innerHeight] give: 32 signed bits. *)
Definition long (n : Z) : Prop := (- 2 ^ 31 ≤ n < 2 ^ 31)%Z.

End Layout.

(** ** Arithmetic on numbers

    A JavaScript number is an IEEE 754 binary64 value.  A finite one
    is a rational; the sum or the quotient of two numbers is the exact
    result rounded to the nearest number with a significand of 53
    binary digits, a tie going to the even one. *)
Module Binary64.

Inductive number :=
| Fin (q : Q)               (* a finite number, by its value *)
| Inf (negative : bool)     (* Infinity and -Infinity *)
| NaN.

(** [2^e] *)
Definition pow2 (e : Z) : Q :=
  if (0 <=? e)%Z then inject_Z (2 ^ e) else 1 # Z.to_pos (2 ^ (- e)).

(** The least [k] with [|q| < 2^k], for [q] other than zero. *)
Definition magnitude (q : Q) : Z :=
  let a := Qabs q in
  if Qle_bool 1 a then (Z.log2 (Qfloor a) + 1)%Z
  else (1 - Z.log2_up (Qceiling (/ a)))%Z.

(** The exponent of the last place of a significand of 53 binary
    digits; no exponent lies below -1074. *)
Definition lastPlace (q : Q) : Z := Z.max (magnitude q - 53) (-1074).

(** The nearest integer, a tie going to the even one. *)
Definition nearestEven (q : Q) : Z :=
  let f := Qfloor q in
  match (q - inject_Z f ?= 1 # 2)%Q with
  | Lt => f
  | Gt => (f + 1)%Z
  | Eq => if Z.even f then f else (f + 1)%Z
  end.

(** The nearest number with 53 digits, whatever its size. *)
Definition nearest (q : Q) : Q :=
  let e := lastPlace q in
  Qred (inject_Z (nearestEven (q / pow2 e)) * pow2 e)%Q.

(** The result of an operation whose exact value is [q]: from 2^1024
    on it is infinite. *)
Definition round (q : Q) : number :=
  let r := nearest q in
  if Qle_bool (pow2 1024) (Qabs r) then Inf (negb (Qle_bool 0 q)) else Fin r.

(** [a + b] *)
Definition add (a b : number) : number :=
  match a, b with
  | Fin x, Fin y => round (x + y)
  | NaN, _ | _, NaN => NaN
  | Inf s, Inf s' => if Bool.eqb s s' then Inf s else NaN
  | Inf s, Fin _ | Fin _, Inf s => Inf s
  end.

(** [a / b]; a zero has no sign here, so a zero divisor counts as
    [+0]. *)
Definition div (a b : number) : number :=
  match a, b with
  | Fin x, Fin y =>
      if Qeq_bool y 0 then (if Qeq_bool x 0 then NaN else Inf (negb (Qle_bool 0 x)))
      else round (x / y)
  | NaN, _ | _, NaN => NaN
  | Inf _, Inf _ => NaN
  | Inf s, Fin y => Inf (xorb s (negb (Qle_bool 0 y)))
  | Fin _, Inf _ => Fin 0
  end.

(** [a >= b] *)
Definition geq (a b : number) : bool :=
  match a, b with
  | Fin x, Fin y => Qle_bool y x
  | NaN, _ | _, NaN => false
  | Inf false, _ => true
  | _, Inf true => true
  | Inf true, _ => false
  | Fin _, Inf false => false
  end.

(** [a < b] *)
Definition lt (a b : number) : bool :=
  match a, b with
  | Fin x, Fin y => negb (Qle_bool y x)
  | NaN, _ | _, NaN => false
  | Inf false, _ => false
  | _, Inf true => false
  | Inf true, _ => true
  | Fin _, Inf false => true
  end.

(** An integer that a DOM attribute or a literal gives is a number as
    it is. *)
Definition ofZ (n : Z) : number := Fin (inject_Z n).

(** The value of a number as the Standard Library's model of IEEE 754
    has it. *)
Definition ofSpec (f : spec_float) : number :=
  match f with
  | S754_zero _ => Fin 0
  | S754_infinity s => Inf s
  | S754_nan => NaN
  | S754_finite s m e =>
      Fin (Qred (inject_Z (if s then Z.neg m else Z.pos m) * pow2 e))
  end.

(** An integer in that model. *)
Definition toSpec (n : Z) : spec_float := binary_normalize 53 1024 n 0 false.

Arguments pow2 : simpl never.

End Binary64.

(** ** Helpers on attribute text *)

Module Text.

(** [o || dflt] for a string that may be [null] or empty. *)
Definition orElse (o : option string) (dflt : string) : string :=
  match o with
  | Some v => if bool_decide (v = "") then dflt else v
  | None => dflt
  end.

(** [hay.includes(needle)] *)
Fixpoint includes (needle hay : string) : bool :=
  String.prefix needle hay
  || match hay with
     | EmptyString => false
     | String _ rest => includes needle rest
     end.

(** [s.replace(a, b)] with one-character strings: the first [a] only. *)
Fixpoint replaceFirst (a b : ascii) (s : string) : string :=
  match s with
  | EmptyString => EmptyString
  | String c rest =>
      if Ascii.eqb c a then String b rest else String c (replaceFirst a b rest)
  end.

Definition upper (c : ascii) : ascii :=
  let n := nat_of_ascii c in
  if (97 <=? n)%nat && (n <=? 122)%nat then ascii_of_nat (n - 32) else c.

(** [s.toUpperCase()] on the ASCII letters identifiers are made of. *)
Fixpoint toUpperCase (s : string) : string :=
  match s with
  | EmptyString => EmptyString
  | String c rest => String (upper c) (toUpperCase rest)
  end.

End Text.

(** ** The certificate image element *)

Module Image.

Record t := Mk {
  src : JsObject.value;   (* what was last assigned to [img.src] *)
  alt : string;
}.

End Image.

(** ** script_topnav_backup.js *)

Module TopnavBackup.

(** *** initMobileNav *)

Section MobileNav.
Variables hamburger navMenu : Dom.elem.

(** The click listener on the hamburger. *)
Definition hamburgerClick (d : Dom.t) : Dom.t :=
  let isOpen := Dom.contains navMenu "active" d in
  let d := Dom.toggle navMenu "active" d in
  let d := Dom.toggle hamburger "active" d in
  let d := Dom.setAttribute hamburger "aria-expanded" (Dom.ofBool (negb isOpen)) d in
  Dom.setOverflow (if isOpen then "" else "hidden") d.

(** The click listener on each nav link. *)
Definition navLinkClick (d : Dom.t) : Dom.t :=
  let d := Dom.remove navMenu "active" d in
  let d := Dom.remove hamburger "active" d in
  let d := Dom.setAttribute hamburger "aria-expanded" "false" d in
  Dom.setOverflow "" d.

(** The click listener on the document; the two flags are
    [hamburger.contains(e.target)] and [navMenu.contains(e.target)]. *)
Definition documentClick (inHamburger inNavMenu : bool) (d : Dom.t) : Dom.t :=
  if negb inHamburger && negb inNavMenu then
    let d := Dom.remove navMenu "active" d in
    let d := Dom.remove hamburger "active" d in
    let d := Dom.setAttribute hamburger "aria-expanded" "false" d in
    Dom.setOverflow "" d
  else d.

(** Where a click lands.  A click runs the listener of the element it
    lands on and then, bubbling, the document's. *)
Inductive click :=
| OnHamburger
| OnNavLink (inNavMenu : bool)
| Elsewhere (inNavMenu : bool).

Definition onClick (c : click) (d : Dom.t) : Dom.t :=
  match c with
  | OnHamburger => documentClick true false (hamburgerClick d)
  | OnNavLink inNavMenu => documentClick false inNavMenu (navLinkClick d)
  | Elsewhere inNavMenu => documentClick false inNavMenu d
  end.

(** The states the menu goes through under a sequence of clicks. *)
Fixpoint trace (cs : list click) (d : Dom.t) : list Dom.t :=
  match cs with
  | [] => []
  | c :: cs' => let d' := onClick c d in d' :: trace cs' d'
  end.

(** The three reflections of "the menu is open" agree, and body
    scrolling is suspended exactly while it is. *)
Definition consistent (d : Dom.t) : Prop :=
  let isOpen := Dom.contains navMenu "active" d in
  Dom.contains hamburger "active" d = isOpen
  ∧ Dom.getAttribute hamburger "aria-expanded" d = Some (Dom.ofBool isOpen)
  ∧ Dom.bodyOverflow d = (if isOpen then "hidden" else "").

End MobileNav.

(** *** initActiveNavigation *)

Section ActiveNavigation.
Variables sections navLinks : list Dom.elem.
Variable navbarHeight : Z.
Variable layout : Layout.t.

(** The first loop of [updateActiveNav]: the id of the last section
    whose top lies above the scroll position. *)
Definition currentSection (scrollY : Q) (d : Dom.t) : option string :=
  fold_left
    (fun current section =>
       let sectionTop := Layout.offsetTop layout section in
       if Layout.geq scrollY (inject_Z (sectionTop - navbarHeight - 100))
       then Dom.getAttribute section "id" d
       else current)
    sections (Some "").

Definition updateActiveNav (scrollY : Q) (d : Dom.t) : Dom.t :=
  let current := currentSection scrollY d in
  fold_left
    (fun d link =>
       let d := Dom.remove link "active" d in
       match Dom.getAttribute link "href" d with
       | Some href =>
           if negb (bool_decide (href = ""))
              && Text.includes (JsObject.keyOf current) href
           then Dom.add link "active" d
           else d
       | None => d
       end)
    navLinks d.

End ActiveNavigation.

(** *** initRevealAnimations *)

Module Reveal.

Record entry := Entry {
  target : Dom.elem;        (* entry.target *)
  isIntersecting : bool;    (* entry.isIntersecting *)
}.

Record t := Mk {
  dom : Dom.t;
  observed : gset Dom.elem;   (* the observer's targets *)
}.

(** The loop that tags each element and varies the direction. *)
Fixpoint tag (index : nat) (els : list Dom.elem) (d : Dom.t) : Dom.t :=
  match els with
  | [] => d
  | el :: rest =>
      let d := Dom.add el "reveal-element" d in
      let d :=
        if (index mod 3 =? 1)%nat then Dom.add el "reveal-left" d
        else if (index mod 3 =? 2)%nat then Dom.add el "reveal-right" d
        else d in
      tag (S index) rest d
  end.

(** The observer's callback. *)
Definition callback (entries : list entry) (s : t) : t :=
  fold_left
    (fun s en =>
       if isIntersecting en
       then Mk (Dom.add (target en) "revealed" (dom s)) (observed s ∖ {[target en]})
       else s)
    entries s.

Definition initRevealAnimations (revealElements : list Dom.elem) (d : Dom.t) : t :=
  let d := tag 0 revealElements d in
  fold_left (fun s el => Mk (dom s) (observed s ∪ {[el]})) revealElements (Mk d ∅).

(** The browser reports changes of observed targets only, then runs
    the callback on them. *)
Definition notify (entries : list entry) (s : t) : t :=
  callback (filter (fun en => target en ∈ observed s) entries) s.

(** What happens once the page is up: the observer reports a batch
    of changes, or the page is scrolled and the debounced
    [updateActiveNav] runs. *)
Inductive event :=
| Report (entries : list entry)
| Scrolled (scrollY : Q).

Section Events.
Variables sections navLinks : list Dom.elem.
Variable navbarHeight : Z.
Variable layout : Layout.t.

Definition step (ev : event) (s : t) : t :=
  match ev with
  | Report entries => notify entries s
  | Scrolled scrollY =>
      Mk (updateActiveNav sections navLinks navbarHeight layout scrollY (dom s))
         (observed s)
  end.

Definition run (evs : list event) (s : t) : t :=
  fold_left (fun s ev => step ev s) evs s.

End Events.

Definition revealed (el : Dom.elem) (s : t) : bool :=
  Dom.contains el "revealed" (dom s).

End Reveal.

(** *** initContactForm and showAlert *)

Module Contact.

Record field := Field {
  value : Js.jsstring;          (* input.value *)
  defaultValue : Js.jsstring;   (* what [form.reset()] restores *)
}.

Record alert := Alert {
  alertId : nat;
  className : string;
  textContent : string;
  role : string;
  ariaLive : string;
  ariaAtomic : string;
  opacity : string;             (* alert.style.opacity *)
}.

(** The closures handed to [setTimeout]. *)
Inductive task :=
| FadeOut (id : nat)
| Remove (id : nat).

Record t := Mk {
  nameField : option field;      (* document.getElementById('name') *)
  emailField : option field;     (* document.getElementById('email') *)
  messageField : option field;   (* document.getElementById('message') *)
  href : Js.jsstring;            (* the address last given to window.location.href *)
  alerts : list alert;           (* the .custom-alert elements, in document order *)
  timers : list (Z * task);     (* pending timers with their delay *)
  created : nat;                 (* alert elements created so far *)
}.

(** How the submit handler ends. *)
Inductive outcome :=
| Returned (defaultPrevented : bool) (s : t)
| Threw (defaultPrevented : bool) (s : t).   (* URIError out of the handler *)

(** [field?.value.trim()] *)
Definition trimmed (f : option field) : option Js.jsstring :=
  Js.trim ∘ value <$> f.

(** [!v || v.length < n] *)
Definition missingOrShorter (v : option Js.jsstring) (n : Z) : bool :=
  match v with
  | Some s => negb (Js.truthy s) || (Js.length s <? n)%Z
  | None => true
  end.

(** [!email || !emailPattern.test(email)] *)
Definition missingOrMalformed (v : option Js.jsstring) : bool :=
  match v with
  | Some s => negb (Js.truthy s) || negb (Regex.test Regex.emailPattern s)
  | None => true
  end.

(** The three checks in source order; a later failure overwrites the
    message of an earlier one. *)
Definition validate (name email message : option Js.jsstring) : bool * string :=
  let r := (true, "") in
  let r :=
    if missingOrShorter name 2
    then (false, "Please enter a valid name (at least 2 characters).") else r in
  let r :=
    if missingOrMalformed email
    then (false, "Please enter a valid email address.") else r in
  let r :=
    if missingOrShorter message 10
    then (false, "Please enter a message (at least 10 characters).") else r in
  r.

Definition showAlert (message type : string) (s : t) : t :=
  let existing := tail (alerts s) in   (* the first .custom-alert, if any, is removed *)
  let a := Alert (created s) ("custom-alert custom-alert-" +:+ type) message
                 "alert" "assertive" "true" "" in
  Mk (nameField s) (emailField s) (messageField s) (href s)
     (existing ++ [a])
     (timers s ++ [(5000%Z, FadeOut (created s))])
     (S (created s)).

(** [contactForm.reset()] *)
Definition reset (s : t) : t :=
  let r := fmap (fun f => Field (defaultValue f) (defaultValue f)) in
  Mk (r (nameField s)) (r (emailField s)) (r (messageField s)) (href s)
     (alerts s) (timers s) (created s).

Definition setHref (link : Js.jsstring) (s : t) : t :=
  Mk (nameField s) (emailField s) (messageField s) link
     (alerts s) (timers s) (created s).

Definition recipient : Js.jsstring := Js.lit "mailto:mueezmejbah284@gmail.com".

Definition subjectText (name : Js.jsstring) : Js.jsstring :=
  Js.lit "Portfolio Contact from " ++ name.

Definition bodyText (name email message : Js.jsstring) : Js.jsstring :=
  Js.lit "Name: " ++ name ++ [10%Z] ++ Js.lit "Email: " ++ email
  ++ [10%Z; 10%Z] ++ Js.lit "Message:" ++ [10%Z] ++ message.

Definition mailtoLink (subject body : Js.jsstring) : Js.jsstring :=
  recipient ++ Js.lit "?subject=" ++ subject ++ Js.lit "&body=" ++ body.

(** The submit listener. *)
Definition submit (s : t) : outcome :=
  (* e.preventDefault() comes first *)
  let name := trimmed (nameField s) in
  let email := trimmed (emailField s) in
  let message := trimmed (messageField s) in
  let '(isValid, errorMessage) := validate name email message in
  if negb isValid then Returned true (showAlert errorMessage "error" s)
  else
    let name := default [] name in
    let email := default [] email in
    let message := default [] message in
    match Uri.encodeURIComponent (subjectText name) with
    | None => Threw true s
    | Some subject =>
        match Uri.encodeURIComponent (bodyText name email message) with
        | None => Threw true s
        | Some body =>
            let s := setHref (mailtoLink subject body) s in
            let s := showAlert
              "Thank you for your message! Your email client should open shortly."
              "success" s in
            Returned true (reset s)
        end
    end.

(** A pending timer fires: the 5 s one fades the notice and arms the
    0.3 s one, which removes it. *)
Definition fire (tk : task) (s : t) : t :=
  match tk with
  | FadeOut id =>
      Mk (nameField s) (emailField s) (messageField s) (href s)
         (map (fun a => if (alertId a =? id)%nat
                        then Alert (alertId a) (className a) (textContent a)
                                   (role a) (ariaLive a) (ariaAtomic a) "0"
                        else a) (alerts s))
         (timers s ++ [(300%Z, Remove id)]) (created s)
  | Remove id =>
      Mk (nameField s) (emailField s) (messageField s) (href s)
         (filter (fun a => alertId a ≠ id) (alerts s))
         (timers s) (created s)
  end.

(** The oldest pending timer fires. *)
Definition tick (s : t) : t :=
  match timers s with
  | [] => s
  | (_, tk) :: rest =>
      fire tk (Mk (nameField s) (emailField s) (messageField s) (href s)
                  (alerts s) rest (created s))
  end.

(** What the user typed, field by field. *)
Definition entered (s : t) : list (option Js.jsstring) :=
  [value <$> nameField s; value <$> emailField s; value <$> messageField s].

Definition stateOf (o : outcome) : t :=
  match o with Returned _ s | Threw _ s => s end.

Definition prevented (o : outcome) : bool :=
  match o with Returned p _ | Threw p _ => p end.

(** The submission went through: the handler reached its end and
    handed a link to the mail client. *)
Definition accepted (s : t) : Prop :=
  ∃ subject body,
    submit s = Returned true
      (reset (showAlert
         "Thank you for your message! Your email client should open shortly."
         "success" (setHref (mailtoLink subject body) s))).

(** The submission was refused: an error notice, nothing else touched. *)
Definition rejected (s : t) : Prop :=
  ∃ message, submit s = Returned true (showAlert message "error" s).

(** [a] occurs in [b] as a contiguous run. *)
Definition occursIn (a b : Js.jsstring) : Prop :=
  ∃ pre post, b = pre ++ a ++ post.

(** The three checks let the submission through. *)
Definition passes (s : t) : bool :=
  fst (validate (trimmed (nameField s)) (trimmed (emailField s))
                (trimmed (messageField s))).

(** A field that is absent, empty or made of white space only. *)
Definition blank (f : option field) : Prop :=
  match f with
  | Some f => Forall (fun c => Js.isWhiteSpace c = true) (value f)
  | None => True
  end.

(** A field whose trimmed value has at least [n] code units. *)
Definition atLeast (n : Z) (f : option field) : Prop :=
  match f with
  | Some f => (n ≤ Js.length (Js.trim (value f)))%Z
  | None => False
  end.

(** A field whose trimmed value has the [local@domain.tld] shape. *)
Definition wellShaped (f : option field) : Prop :=
  match f with
  | Some f => Regex.emailShape (Js.trim (value f))
  | None => False
  end.

(** The error notice is the last alert element, and it will fade. *)
Definition errorShown (s : t) : Prop :=
  ∃ a, last (alerts s) = Some a
       ∧ className a = "custom-alert custom-alert-error"
       ∧ role a = "alert"
       ∧ (5000%Z, FadeOut (alertId a)) ∈ timers s.

(** The success notice is the last alert element, and it will fade. *)
Definition successShown (s : t) : Prop :=
  ∃ a, last (alerts s) = Some a
       ∧ className a = "custom-alert custom-alert-success"
       ∧ role a = "alert" ∧ ariaLive a = "assertive" ∧ ariaAtomic a = "true"
       ∧ (5000%Z, FadeOut (alertId a)) ∈ timers s.

(** What the markup presets, field by field: nothing, as a rule. *)
Definition defaults (s : t) : list (option Js.jsstring) :=
  [defaultValue <$> nameField s; defaultValue <$> emailField s;
   defaultValue <$> messageField s].

End Contact.

(** *** Project modals: openModal, closeModal, trapFocus *)

Module Modal.

(** What the handlers look up in the page. *)
Record page := Page {
  getElementById : string → option Dom.elem;
  focusable : Dom.elem → list Dom.elem;     (* element.querySelectorAll(focusableSelectors) *)
  modalClose : Dom.elem → option Dom.elem;  (* modal.querySelector('.modal-close') *)
}.

(** A [handleFocusTrap] closure: the element it listens on and the two
    ends it captured when it was installed. *)
Record trap := Trap {
  listensOn : Dom.elem;
  firstFocusable : option Dom.elem;
  lastFocusable : option Dom.elem;
}.

Record t := Mk {
  dom : Dom.t;
  activeModal : option Dom.elem;          (* let activeModal *)
  lastFocusedElement : option Dom.elem;   (* let lastFocusedElement *)
  focusTimers : list Dom.elem;            (* pending 100 ms timers, each with its modal *)
  traps : list trap;                      (* keydown listeners, in attachment order *)
}.

Definition setDom (d : Dom.t) (s : t) : t :=
  Mk d (activeModal s) (lastFocusedElement s) (focusTimers s) (traps s).

Section Handlers.
Variable pg : page.

(** [removeEventListener] is given the closure of the present call,
    which was never attached, so nothing is removed; the new closure is
    appended. *)
Definition trapFocus (element : Dom.elem) (s : t) : t :=
  let focusableElements := focusable pg element in
  let firstFocusable := head focusableElements in
  let lastFocusable := last focusableElements in
  Mk (dom s) (activeModal s) (lastFocusedElement s) (focusTimers s)
     (traps s ++ [Trap element firstFocusable lastFocusable]).

Definition openModal (modal : option Dom.elem) (s : t) : t :=
  match modal with
  | None => s
  | Some modal =>
      let lastFocused := Dom.activeElement (dom s) in
      let d := Dom.add modal "active" (dom s) in
      let d := Dom.setAttribute modal "aria-hidden" "false" d in
      let d := Dom.setOverflow "hidden" d in
      trapFocus modal
        (Mk d (Some modal) lastFocused (focusTimers s ++ [modal]) (traps s))
  end.

Definition openModalById (modalId : string) (s : t) : t :=
  match getElementById pg modalId with
  | Some modal => openModal (Some modal) s
  | None => s
  end.

Definition closeModal (modal : option Dom.elem) (s : t) : t :=
  match modal with
  | None => s
  | Some modal =>
      let d := Dom.remove modal "active" (dom s) in
      let d := Dom.setAttribute modal "aria-hidden" "true" d in
      let d := Dom.setOverflow "" d in
      match lastFocusedElement s with
      | Some el => Mk (Dom.focus el d) None None (focusTimers s) (traps s)
      | None => Mk d None None (focusTimers s) (traps s)
      end
  end.

Definition closeCurrentModal (s : t) : t :=
  match activeModal s with
  | Some modal => closeModal (Some modal) s
  | None => s
  end.

(** The timer armed by [openModal] fires. *)
Definition focusTimerFires (s : t) : t :=
  match focusTimers s with
  | [] => s
  | modal :: rest =>
      Mk (Dom.focusOpt (modalClose pg modal) (dom s))
         (activeModal s) (lastFocusedElement s) rest (traps s)
  end.

End Handlers.

(** One [handleFocusTrap] closure on a keydown; the flag is
    [e.defaultPrevented]. *)
Definition handleFocusTrap (tr : trap) (key : string) (shiftKey : bool)
    (st : Dom.t * bool) : Dom.t * bool :=
  let '(d, defaultPrevented) := st in
  if negb (bool_decide (key = "Tab")) then st
  else if shiftKey then
    if bool_decide (Dom.activeElement d = firstFocusable tr ∧ is_Some (firstFocusable tr))
    then (Dom.focusOpt (lastFocusable tr) d, true)
    else st
  else
    if bool_decide (Dom.activeElement d = lastFocusable tr ∧ is_Some (lastFocusable tr))
    then (Dom.focusOpt (firstFocusable tr) d, true)
    else st.

(** A keydown bubbling through [element] runs the closures attached to
    it, in attachment order. *)
Definition keydownOn (element : Dom.elem) (key : string) (shiftKey : bool)
    (s : t) : Dom.t * bool :=
  fold_left
    (fun st tr =>
       if bool_decide (listensOn tr = element)
       then handleFocusTrap tr key shiftKey st else st)
    (traps s) (dom s, false).

(** The document's keydown listener of [initProjectModals]. *)
Definition documentKeydown (key : string) (s : t) : t :=
  if bool_decide (key = "Escape") && bool_decide (is_Some (activeModal s))
  then closeCurrentModal s else s.

(** The browser's own handling of Tab: focus moves one step along the
    document's tab order, and leaves the page past either end. *)
Definition index (e : Dom.elem) (order : list Dom.elem) : option nat :=
  fst <$> list_find (fun x => x = e) order.

Definition defaultTab (order : list Dom.elem) (shiftKey : bool) (d : Dom.t) : Dom.t :=
  let next :=
    match Dom.activeElement d with
    | Some e =>
        match index e order with
        | Some i => if shiftKey then (match i with O => None | S j => order !! j end)
                    else order !! S i
        | None => None
        end
    | None => None
    end in
  Dom.Mk (Dom.classList d) (Dom.attributes d) (Dom.bodyOverflow d) next.

(** The user presses Tab or Shift+Tab while focus is inside [modal]:
    the modal's listeners run, then the document's, then the default
    action unless a listener cancelled it. *)
Definition pressTab (order : list Dom.elem) (modal : Dom.elem) (shiftKey : bool)
    (s : t) : t :=
  let '(d, defaultPrevented) := keydownOn modal "Tab" shiftKey s in
  let s := documentKeydown "Tab" (setDom d s) in
  if defaultPrevented then s else setDom (defaultTab order shiftKey (dom s)) s.

(** What happens between an open and the matching close. *)
Inductive event :=
| Tab (modal : Dom.elem) (shiftKey : bool)
| TimerFires
| FocusMoves (el : Dom.elem).      (* the user clicks or tabs somewhere *)

Definition step (pg : page) (order : list Dom.elem) (ev : event) (s : t) : t :=
  match ev with
  | Tab modal shiftKey => pressTab order modal shiftKey s
  | TimerFires => focusTimerFires pg s
  | FocusMoves el => setDom (Dom.focus el (dom s)) s
  end.

Definition run (pg : page) (order : list Dom.elem) (evs : list event) (s : t) : t :=
  fold_left (fun s ev => step pg order ev s) evs s.

(** The operations a user reaches through the page. *)
Inductive action :=
| ClickTrigger (modalId : string)
| ClickClose
| PressEscape
| Other (ev : event).

Definition act (pg : page) (order : list Dom.elem) (a : action) (s : t) : t :=
  match a with
  | ClickTrigger modalId => openModalById pg modalId s
  | ClickClose => closeCurrentModal s
  | PressEscape => documentKeydown "Escape" s
  | Other ev => step pg order ev s
  end.

Definition perform (pg : page) (order : list Dom.elem) (acts : list action) (s : t) : t :=
  fold_left (fun s a => act pg order a s) acts s.

(** The script's globals when the page has loaded. *)
Definition initial (d : Dom.t) : t := Mk d None None [] [].

(** A panel is marked open. *)
Definition isOpen (modal : Dom.elem) (s : t) : bool :=
  Dom.contains modal "active" (dom s).

(** Every panel marked open is the one [activeModal] refers to. *)
Definition onlyActiveOpen (panels : list Dom.elem) (s : t) : Prop :=
  ∀ p, p ∈ panels → isOpen p s = true → activeModal s = Some p.

(** A non-empty [activeModal] names a panel that is marked open. *)
Definition referenceIsOpen (s : t) : Prop :=
  ∀ p, activeModal s = Some p → isOpen p s = true.

(** Two documents that differ at most in which element has focus. *)
Definition sameButFocus (d d' : Dom.t) : Prop :=
  Dom.classList d = Dom.classList d'
  ∧ Dom.attributes d = Dom.attributes d'
  ∧ Dom.bodyOverflow d = Dom.bodyOverflow d'.

(** Each closure holds the two ends of the focusable descendants of
    the element it listens on. *)
Definition capturedFrom (pg : page) (ts : list trap) : Prop :=
  ∀ tr, tr ∈ ts →
    firstFocusable tr = head (focusable pg (listensOn tr))
    ∧ lastFocusable tr = last (focusable pg (listensOn tr)).

(** A closure listens on [element]. *)
Definition installedOn (element : Dom.elem) (ts : list trap) : Prop :=
  ∃ tr, tr ∈ ts ∧ listensOn tr = element.

(** A run of Tab and Shift+Tab presses inside [modal]. *)
Definition presses (order : list Dom.elem) (modal : Dom.elem) (shifts : list bool)
    (s : t) : t :=
  fold_left (fun s shiftKey => pressTab order modal shiftKey s) shifts s.

(** A page with two project panels, 1 and 2, whose buttons carry the
    ids ["about"] and ["work"]; panel 1 holds a close button 11 and a
    link 12, panel 2 a close button 21. *)
Definition twoPanels : page :=
  Page (fun id => if bool_decide (id = "about") then Some 1
                  else if bool_decide (id = "work") then Some 2 else None)
       (fun m => if bool_decide (m = 1) then [11; 12]
                 else if bool_decide (m = 2) then [21] else [])
       (fun m => if bool_decide (m = 1) then Some 11
                 else if bool_decide (m = 2) then Some 21 else None).

End Modal.

(** *** Theme persistence *)

Module Theme.

Record t := Mk {
  dom : Dom.t;
  localStorage : gmap string string;
}.

Definition THEME_KEY : string := "portfolio-theme".

Section Handlers.
Variable documentElement : Dom.elem.

(** [localStorage.getItem(THEME_KEY) || 'dark'] *)
Definition savedTheme (s : t) : string :=
  Text.orElse (localStorage s !! THEME_KEY) "dark".

Definition initThemePersistence (s : t) : t :=
  Mk (Dom.setAttribute documentElement "data-theme" (savedTheme s) (dom s))
     (localStorage s).

Definition getCurrentTheme (s : t) : string :=
  Text.orElse (Dom.getAttribute documentElement "data-theme" (dom s)) "dark".

Definition setTheme (theme : string) (s : t) : t :=
  Mk (Dom.setAttribute documentElement "data-theme" theme (dom s))
     (<[THEME_KEY := theme]> (localStorage s)).

(** The page is loaded again: a fresh document, the same storage, and
    the script's start-up code. *)
Definition reload (fresh : Dom.t) (s : t) : t :=
  initThemePersistence (Mk fresh (localStorage s)).

End Handlers.

End Theme.

(** *** initCertificateModal *)

Module Certificate.

Record t := Mk {
  dom : Dom.t;
  image : Image.t;      (* #certificate-image *)
}.

Definition certificates : gmap string string :=
  {[ "matlab-certificate" := "Edge Course.jpg";
     "research-certificate" := "Certificate of Appreciation.png" ]}.

Section Handlers.
Variable certificateModal : Dom.elem.

(** The click listener on a view button; the argument is the button's
    [data-certificate] attribute. *)
Definition viewClick (certificateId : option string) (s : t) : t :=
  let certificateSrc := JsObject.get certificates (JsObject.keyOf certificateId) in
  if JsObject.truthy certificateSrc then
    let img := Image.Mk certificateSrc (JsObject.keyOf certificateId +:+ " certificate") in
    let d := Dom.add certificateModal "active" (dom s) in
    let d := Dom.setAttribute certificateModal "aria-hidden" "false" d in
    Mk (Dom.setOverflow "hidden" d) img
  else s.

(** The click listener on a close button. *)
Definition closeClick (s : t) : t :=
  let d := Dom.remove certificateModal "active" (dom s) in
  let d := Dom.setAttribute certificateModal "aria-hidden" "true" d in
  Mk (Dom.setOverflow "" d) (Image.Mk (JsObject.Str "") (Image.alt (image s))).

(** The document's keydown listener. *)
Definition keydown (key : string) (s : t) : t :=
  if bool_decide (key = "Escape") && Dom.contains certificateModal "active" (dom s)
  then closeClick s else s.

End Handlers.

End Certificate.

End TopnavBackup.

(** ** script_new.js *)

Module ScriptNew.

(** *** Certificate modal *)

Module Certificate.

Record t := Mk {
  dom : Dom.t;
  image : Image.t;      (* #certificate-image *)
}.

Definition certificateImages : gmap string string :=
  {[ "matlab-certificate" := "Edge Course.jpg";
     "research-certificate" := "Certificate of Appreciation.png" ]}.

Section Handlers.
Variable modal : Dom.elem.      (* #certificate-modal *)

(** The identifier is the button's [data-certificate] attribute.  The
    [replace] call would fail on [null], but [null] never gets past the
    test: ["null"] names no property. *)
Definition openCertificateModal (certificateId : option string) (s : t) : t :=
  let imagePath := JsObject.get certificateImages (JsObject.keyOf certificateId) in
  if JsObject.truthy imagePath then
    let alt := Text.toUpperCase
                 (Text.replaceFirst "-" " " (JsObject.keyOf certificateId)) in
    let d := Dom.add modal "active" (dom s) in
    Mk (Dom.setOverflow "hidden" d) (Image.Mk imagePath alt)
  else s.

Definition closeCertificateModal (s : t) : t :=
  let d := Dom.remove modal "active" (dom s) in
  Mk (Dom.setOverflow "" d) (image s).

(** The delegated click listener: [viewButton] is the [data-certificate]
    of the enclosing view button when the click landed in one,
    [inClose] whether it landed in a close control. *)
Definition documentClick (viewButton : option (option string)) (inClose : bool)
    (s : t) : t :=
  let s := match viewButton with
           | Some certificateId => openCertificateModal certificateId s
           | None => s
           end in
  if inClose then closeCertificateModal s else s.

Definition documentKeydown (key : string) (s : t) : t :=
  if bool_decide (key = "Escape") then closeCertificateModal s else s.

End Handlers.

End Certificate.

(** *** Mobile menu *)

Module Menu.

Record t := Mk {
  dom : Dom.t;
  windowWidth : Z;      (* let windowWidth *)
}.

Section Handlers.
Variables sidebar icon : Dom.elem.   (* .sidebar and the toggle's <i> *)
Variable navItems : list Dom.elem.   (* .nav-item *)

(** The click listener on the toggle. *)
Definition toggleClick (d : Dom.t) : Dom.t :=
  let d := Dom.toggle sidebar "active" d in
  if Dom.contains sidebar "active" d then
    Dom.add icon "fa-times" (Dom.remove icon "fa-bars" d)
  else
    Dom.add icon "fa-bars" (Dom.remove icon "fa-times" d).

(** The document's click listener that closes the sidebar. *)
Definition documentClick (innerWidth : Z) (inSidebar inToggle : bool)
    (d : Dom.t) : Dom.t :=
  if (innerWidth <=? 992)%Z then
    if negb inSidebar && negb inToggle && Dom.contains sidebar "active" d then
      let d := Dom.remove sidebar "active" d in
      Dom.add icon "fa-bars" (Dom.remove icon "fa-times" d)
    else d
  else d.

(** The click listener on a nav item; [hasTarget] tells whether its
    href selects a section.  The scrolling it starts moves the viewport
    only. *)
Definition navItemClick (innerWidth : Z) (this : Dom.elem) (hasTarget : bool)
    (d : Dom.t) : Dom.t :=
  if hasTarget then
    let d :=
      if (innerWidth <=? 992)%Z && Dom.contains sidebar "active" d then
        let d := Dom.remove sidebar "active" d in
        Dom.add icon "fa-bars" (Dom.remove icon "fa-times" d)
      else d in
    let d := fold_left (fun d item => Dom.remove item "active" d) navItems d in
    Dom.add this "active" d
  else d.

(** The resize listener. *)
Definition resize (currentWidth : Z) (s : t) : t :=
  let d :=
    if (windowWidth s <=? 992)%Z && (992 <? currentWidth)%Z then
      let d := Dom.remove sidebar "active" (dom s) in
      Dom.add icon "fa-bars" (Dom.remove icon "fa-times" d)
    else dom s in
  Mk d currentWidth.

Inductive event :=
| ClickToggle (innerWidth : Z) (inSidebar : bool)
| ClickNavItem (innerWidth : Z) (index : nat) (hasTarget inSidebar : bool)
| ClickElsewhere (innerWidth : Z) (inSidebar : bool)
| Resize (currentWidth : Z).

(** A click runs the listener of the element it lands on and then the
    document's; a nav item is named by its place among [navItems]. *)
Definition step (ev : event) (s : t) : t :=
  match ev with
  | ClickToggle w inSidebar =>
      Mk (documentClick w inSidebar true (toggleClick (dom s))) (windowWidth s)
  | ClickNavItem w index hasTarget inSidebar =>
      match navItems !! index with
      | Some this =>
          Mk (documentClick w inSidebar false (navItemClick w this hasTarget (dom s)))
             (windowWidth s)
      | None => s
      end
  | ClickElsewhere w inSidebar =>
      Mk (documentClick w inSidebar false (dom s)) (windowWidth s)
  | Resize w => resize w s
  end.

Fixpoint trace (evs : list event) (s : t) : list t :=
  match evs with
  | [] => []
  | ev :: evs' => let s' := step ev s in s' :: trace evs' s'
  end.

(** The glyph shown is the close one exactly when the sidebar is open. *)
Definition consistent (s : t) : Prop :=
  let isOpen := Dom.contains sidebar "active" (dom s) in
  Dom.contains icon "fa-times" (dom s) = isOpen
  ∧ Dom.contains icon "fa-bars" (dom s) = negb isOpen.

End Handlers.

End Menu.

(** *** Active navigation entry *)

Section ActiveNav.
Variables sections navItems : list Dom.elem.
Variable layout : Layout.t.

(** [window.scrollY + window.innerHeight / 3] *)
Definition scrollPosition (scrollY : Q) (innerHeight : Z) : Binary64.number :=
  Binary64.add (Binary64.Fin scrollY)
               (Binary64.div (Binary64.ofZ innerHeight) (Binary64.ofZ 3)).

(** The test inside the first loop. *)
Definition inView (scrollY : Q) (innerHeight : Z) (section : Dom.elem) : bool :=
  let sectionTop := Binary64.ofZ (Layout.offsetTop layout section) in
  let sectionHeight := Binary64.ofZ (Layout.offsetHeight layout section) in
  let scrollPosition := scrollPosition scrollY innerHeight in
  Binary64.geq scrollPosition sectionTop
  && Binary64.lt scrollPosition (Binary64.add sectionTop sectionHeight).

(** The first loop: the id of the last section in view, [''] when none
    is.  [None] is the [null] of a section without an id. *)
Definition currentSection (scrollY : Q) (innerHeight : Z) (d : Dom.t) : option string :=
  fold_left
    (fun current section =>
       if inView scrollY innerHeight section
       then Dom.getAttribute section "id" d
       else current)
    sections (Some "").

(** The body of the second loop. *)
Definition mark (current : option string) (d : Dom.t) (item : Dom.elem) : Dom.t :=
  let d := Dom.remove item "active" d in
  if bool_decide (Dom.getAttribute item "href" d = Some ("#" +:+ JsObject.keyOf current))
  then Dom.add item "active" d
  else d.

Definition updateActiveNavOnScroll (scrollY : Q) (innerHeight : Z) (d : Dom.t) : Dom.t :=
  fold_left (mark (currentSection scrollY innerHeight d)) navItems d.

(** The entries that carry the marker. *)
Definition activeEntries (d : Dom.t) : list Dom.elem :=
  filter (fun item => Dom.contains item "active" d = true) navItems.

End ActiveNav.

(** *** Fade-in on scroll *)

Module FadeIn.

Record entry := Entry {
  target : Dom.elem;
  isIntersecting : bool;
}.

Record t := Mk {
  dom : Dom.t;
  observed : gset Dom.elem;
}.

(** The callback of [fadeInObserver]. *)
Definition callback (entries : list entry) (s : t) : t :=
  fold_left
    (fun s en =>
       if isIntersecting en
       then Mk (Dom.add (target en) "fade-in-up" (dom s)) (observed s ∖ {[target en]})
       else s)
    entries s.

(** The DOMContentLoaded listener, as far as the observer goes. *)
Definition observeAll (animateElements : list Dom.elem) (d : Dom.t) : t :=
  fold_left (fun s el => Mk (dom s) (observed s ∪ {[el]})) animateElements (Mk d ∅).

(** The browser reports changes of observed targets only. *)
Definition notify (entries : list entry) (s : t) : t :=
  callback (filter (fun en => target en ∈ observed s) entries) s.

(** What happens once the page is up: the observer reports a batch
    of changes, or the page is scrolled and the debounced
    [updateActiveNavOnScroll] runs. *)
Inductive event :=
| Report (entries : list entry)
| Scrolled (scrollY : Q) (innerHeight : Z).

Section Events.
Variables sections navItems : list Dom.elem.
Variable layout : Layout.t.

Definition step (ev : event) (s : t) : t :=
  match ev with
  | Report entries => notify entries s
  | Scrolled scrollY innerHeight =>
      Mk (updateActiveNavOnScroll sections navItems layout scrollY innerHeight (dom s))
         (observed s)
  end.

Definition run (evs : list event) (s : t) : t :=
  fold_left (fun s ev => step ev s) evs s.

End Events.

Definition revealed (el : Dom.elem) (s : t) : bool :=
  Dom.contains el "fade-in-up" (dom s).

End FadeIn.

(** *** Contact form *)

Module Contact.

Record form := Form {
  name : Js.jsstring;       (* #name's value *)
  email : Js.jsstring;      (* #email's value *)
  message : Js.jsstring;    (* #message's value *)
}.

(** What the submit listener leaves behind: whether it cancelled the
    submission and the text it put in an [alert] box. *)
Record result := Result {
  defaultPrevented : bool;
  alerted : option string;
}.

Definition submit (f : form) : result :=
  let name := Js.trim (name f) in
  let email := Js.trim (email f) in
  let message := Js.trim (message f) in
  if negb (Js.truthy name) || negb (Js.truthy email) || negb (Js.truthy message) then
    Result true (Some "Please fill in all fields before submitting.")
  else if negb (Regex.test Regex.emailPattern email) then
    Result true (Some "Please enter a valid email address.")
  else Result false None.

End Contact.

End ScriptNew.

(** ** Timers: [setTimeout] and [clearTimeout] *)

Module Timers.

(** The browser's table of pending timers; [K] is what a timer runs
    when it fires. *)
Record t (K : Type) := Mk {
  now : Z;                       (* the clock, in milliseconds *)
  nextId : nat;                  (* the id the next [setTimeout] returns *)
  pending : gmap nat (Z * K);    (* id, time due, what to run *)
}.

Arguments Mk {K}.
Arguments now {K}.
Arguments nextId {K}.
Arguments pending {K}.

Section Table.
Context {K : Type}.

Definition empty : t K := Mk 0 0 ∅.

(** The delay as [setTimeout] takes it.  The parameter is a 32-bit
    signed integer: a number beyond that range wraps around, and a
    negative delay counts as [0]. *)
Definition toInt32 (n : Z) : Z := ((n + 2 ^ 31) mod 2 ^ 32 - 2 ^ 31)%Z.

Definition delayOf (delay : Z) : Z := Z.max 0 (toInt32 delay).

(** [setTimeout(k, delay)]: the id returned, and the table. *)
Definition setTimeout (k : K) (delay : Z) (tb : t K) : nat * t K :=
  (nextId tb,
   Mk (now tb) (S (nextId tb))
      (<[nextId tb := ((now tb + delayOf delay)%Z, k)]> (pending tb))).

(** [clearTimeout(id)]; [None] is [undefined], which names no timer. *)
Definition clearTimeout (id : option nat) (tb : t K) : t K :=
  match id with
  | Some id => Mk (now tb) (nextId tb) (delete id (pending tb))
  | None => tb
  end.

(** Time passes. *)
Definition advance (dt : N) (tb : t K) : t K :=
  Mk (now tb + Z.of_N dt)%Z (nextId tb) (pending tb).

(** What timer [id] runs if the browser fires it now: it must be
    pending and due. *)
Definition due (id : nat) (tb : t K) : option K :=
  match pending tb !! id with
  | Some (time, k) => if (time <=? now tb)%Z then Some k else None
  | None => None
  end.

(** A timer that fires leaves the table. *)
Definition take (id : nat) (tb : t K) : t K :=
  Mk (now tb) (nextId tb) (delete id (pending tb)).

End Table.

Arguments toInt32 : simpl never.
Arguments delayOf : simpl never.

End Timers.

(** ** [debounce], as all three copies in the scripts have it *)

Module Debounce.

(** The closure [debounce] returns: its variable [timeout], the
    timers it has set (each [later] closure knows its [args]), and
    whatever [func] acts on. *)
Record t (A S : Type) := Mk {
  timeout : option nat;       (* let timeout; None = undefined *)
  timers : Timers.t A;
  world : S;
}.

Arguments Mk {A S}.
Arguments timeout {A S}.
Arguments timers {A S}.
Arguments world {A S}.

(** What happens once the closure exists. *)
Inductive event (A S : Type) :=
| Call (args : A)          (* executedFunction(...args) *)
| Wait (dt : N)            (* dt milliseconds pass *)
| Fire (id : nat)          (* the browser runs timer id, if it is due *)
| Env (g : S → S).         (* anything else that changes what func acts on *)

Arguments Call {A S}.
Arguments Wait {A S}.
Arguments Fire {A S}.
Arguments Env {A S}.

Section Debounce.
Context {A S : Type}.
Variable func : A → S → S.
Variable wait : Z.

Definition executedFunction (args : A) (s : t A S) : t A S :=
  let tb := Timers.clearTimeout (timeout s) (timers s) in
  let '(id, tb) := Timers.setTimeout args wait tb in
  Mk (Some id) tb (world s).

Definition later (args : A) (s : t A S) : t A S :=
  let tb := Timers.clearTimeout (timeout s) (timers s) in
  Mk (timeout s) tb (func args (world s)).

Definition fire (id : nat) (s : t A S) : t A S :=
  match Timers.due id (timers s) with
  | Some args => later args (Mk (timeout s) (Timers.take id (timers s)) (world s))
  | None => s
  end.

Definition step (ev : event A S) (s : t A S) : t A S :=
  match ev with
  | Call args => executedFunction args s
  | Wait dt => Mk (timeout s) (Timers.advance dt (timers s)) (world s)
  | Fire id => fire id s
  | Env g => Mk (timeout s) (timers s) (g (world s))
  end.

Definition run (evs : list (event A S)) (s : t A S) : t A S :=
  fold_left (fun s ev => step ev s) evs s.

(** [debounce(func, wait)] has just returned. *)
Definition init (w : S) : t A S := Mk None Timers.empty w.

End Debounce.

(** The time that passes during a run of events. *)
Definition elapsed {A S} (evs : list (event A S)) : Z :=
  fold_right (fun ev n => match ev with Wait dt => (Z.of_N dt + n)%Z | _ => n end) 0%Z evs.

(** What the rest of the page does to the world during a run. *)
Definition envs {A S} (evs : list (event A S)) (w : S) : S :=
  fold_left (fun w ev => match ev with Env g => g w | _ => w end) evs w.

(** Every pending timer is the one [timeout] names. *)
Definition tidy {A S} (s : t A S) : Prop :=
  ∀ id x, Timers.pending (timers s) !! id = Some x → timeout s = Some id.

Definition isCall {A S} (ev : event A S) : bool :=
  match ev with Call _ => true | _ => false end.

Definition isFire {A S} (ev : event A S) : bool :=
  match ev with Fire _ => true | _ => false end.

End Debounce.

(** ** script_topnav_backup.js: initScrollToTop *)

Module ScrollToTop.

Record t := Mk {
  scrollY : Q;                   (* window.scrollY *)
  scrollTimeout : option nat;    (* let scrollTimeout; None = undefined *)
  timers : Timers.t unit;        (* the arrow functions handed to setTimeout *)
  display : option string;       (* scrollButton.style.display; None = not set *)
  ariaHidden : option string;    (* the button's aria-hidden attribute *)
  scrollTo : option Z;           (* top of the last window.scrollTo request *)
}.

(** The scroll listener. *)
Definition onScroll (s : t) : t :=
  let tb := Timers.clearTimeout (scrollTimeout s) (timers s) in
  let '(id, tb) := Timers.setTimeout () 100 tb in
  Mk (scrollY s) (Some id) tb (display s) (ariaHidden s) (scrollTo s).

(** The arrow function the timer runs. *)
Definition check (s : t) : t :=
  if Layout.lt (inject_Z 300) (scrollY s) then
    Mk (scrollY s) (scrollTimeout s) (timers s) (Some "flex") (Some "false") (scrollTo s)
  else
    Mk (scrollY s) (scrollTimeout s) (timers s) (Some "none") (Some "true") (scrollTo s).

Definition fire (id : nat) (s : t) : t :=
  match Timers.due id (timers s) with
  | Some _ =>
      check (Mk (scrollY s) (scrollTimeout s) (Timers.take id (timers s))
                (display s) (ariaHidden s) (scrollTo s))
  | None => s
  end.

(** The click listener on the button. *)
Definition onClick (s : t) : t :=
  Mk (scrollY s) (scrollTimeout s) (timers s) (display s) (ariaHidden s) (Some 0%Z).

Inductive event :=
| Move (y : Q)        (* the scroll position changes *)
| ScrollEvent         (* the scroll event is dispatched *)
| Wait (dt : N)
| Fire (id : nat)     (* the browser runs timer id, if it is due *)
| Click.

Definition step (ev : event) (s : t) : t :=
  match ev with
  | Move y => Mk y (scrollTimeout s) (timers s) (display s) (ariaHidden s) (scrollTo s)
  | ScrollEvent => onScroll s
  | Wait dt =>
      Mk (scrollY s) (scrollTimeout s) (Timers.advance dt (timers s))
         (display s) (ariaHidden s) (scrollTo s)
  | Fire id => fire id s
  | Click => onClick s
  end.

Definition run (evs : list event) (s : t) : t :=
  fold_left (fun s ev => step ev s) evs s.

(** [initScrollToTop] has returned; the page is scrolled to [y]. *)
Definition init (y : Q) : t := Mk y None Timers.empty None None None.

Definition elapsed (evs : list event) : Z :=
  fold_right (fun ev n => match ev with Wait dt => (Z.of_N dt + n)%Z | _ => n end) 0%Z evs.

(** Neither a scroll event nor a timer firing. *)
Definition idle (ev : event) : bool :=
  match ev with ScrollEvent | Fire _ => false | _ => true end.

(** What the script has made of the button: nothing yet, shown, or
    hidden. *)
Definition agree (s : t) : Prop :=
  (display s = None ∧ ariaHidden s = None)
  ∨ (display s = Some "flex" ∧ ariaHidden s = Some "false")
  ∨ (display s = Some "none" ∧ ariaHidden s = Some "true").

Definition tidy (s : t) : Prop :=
  ∀ id x, Timers.pending (timers s) !! id = Some x → scrollTimeout s = Some id.

End ScrollToTop.

(** ** script_topnav_backup.js: typeWriter *)

Module TypeWriter.

Record t := Mk {
  textContent : Js.jsstring;    (* element.textContent *)
  visibility : option string;   (* element.style.visibility; None = not set *)
  text : Js.jsstring;           (* const text *)
  i : nat;                      (* let i *)
  timers : Timers.t unit;       (* the pending calls of type *)
}.

(** [s.charAt(i)]: one code unit, or the empty string out of range. *)
Definition charAt (i : nat) (s : Js.jsstring) : Js.jsstring :=
  match s !! i with Some c => [c] | None => [] end.

Section TypeWriter.
Variable speed : Z.

Definition type (s : t) : t :=
  if (i s <? length (text s))%nat then
    let textContent := textContent s ++ charAt (i s) (text s) in
    let i := S (i s) in
    let '(_, tb) := Timers.setTimeout () speed (timers s) in
    Mk textContent (visibility s) (text s) i tb
  else s.

(** The element is given by its text; [None] is a missing element,
    on which the function returns at once. *)
Definition typeWriter (element : option Js.jsstring) : option t :=
  match element with
  | None => None
  | Some content => Some (type (Mk [] (Some "visible") content 0 Timers.empty))
  end.

Definition fire (id : nat) (s : t) : t :=
  match Timers.due id (timers s) with
  | Some _ =>
      type (Mk (textContent s) (visibility s) (text s) (i s) (Timers.take id (timers s)))
  | None => s
  end.

Inductive event :=
| Wait (dt : N)
| Fire (id : nat).    (* the browser runs timer id, if it is due *)

Definition step (ev : event) (s : t) : t :=
  match ev with
  | Wait dt =>
      Mk (textContent s) (visibility s) (text s) (i s) (Timers.advance dt (timers s))
  | Fire id => fire id s
  end.

Definition run (evs : list event) (s : t) : t :=
  fold_left (fun s ev => step ev s) evs s.

End TypeWriter.

(** What holds of the effect while it runs on [content]. *)
Definition typing (content : Js.jsstring) (s : t) : Prop :=
  text s = content
  ∧ (i s ≤ length content)%nat
  ∧ textContent s = take (i s) content
  ∧ Timers.nextId (timers s) = i s
  ∧ (∀ id x, Timers.pending (timers s) !! id = Some x → S id = i s)
  ∧ ((i s < length content)%nat → ∃ x, Timers.pending (timers s) !! pred (i s) = Some x).

End TypeWriter.

(** ** script_topnav_backup.js: initLazyLoading *)

Module LazyLoading.

Record entry := Entry {
  target : Dom.elem;        (* entry.target *)
  isIntersecting : bool;    (* entry.isIntersecting *)
}.

Record t := Mk {
  dom : Dom.t;
  observed : gset Dom.elem;   (* the targets of imageObserver *)
}.

(** [e.removeAttribute(a)] *)
Definition removeAttribute (e : Dom.elem) (a : string) (d : Dom.t) : Dom.t :=
  Dom.Mk (Dom.classList d) (delete (e, a) (Dom.attributes d))
         (Dom.bodyOverflow d) (Dom.activeElement d).

(** [img.src = img.dataset.src; img.removeAttribute('data-src')]: a
    missing [data-src] reads as [undefined], which the assignment
    turns into text. *)
Definition load (img : Dom.elem) (d : Dom.t) : Dom.t :=
  let src := default "undefined" (Dom.getAttribute img "data-src" d) in
  removeAttribute img "data-src" (Dom.setAttribute img "src" src d).

(** The observer's callback. *)
Definition callback (entries : list entry) (s : t) : t :=
  fold_left
    (fun s en =>
       if isIntersecting en
       then Mk (load (target en) (dom s)) (observed s ∖ {[target en]})
       else s)
    entries s.

(** [document.querySelectorAll('img[data-src]')], out of the page's
    [img] elements. *)
Definition images (imgs : list Dom.elem) (d : Dom.t) : list Dom.elem :=
  filter (fun img => is_Some (Dom.getAttribute img "data-src" d)) imgs.

Definition initLazyLoading (imgs : list Dom.elem) (d : Dom.t) : t :=
  fold_left (fun s img => Mk (dom s) (observed s ∪ {[img]})) (images imgs d) (Mk d ∅).

(** The browser reports changes of observed targets only, then runs
    the callback on them. *)
Definition notify (entries : list entry) (s : t) : t :=
  callback (filter (fun en => target en ∈ observed s) entries) s.

(** The batches the observer reports, one after the other. *)
Definition run (batches : list (list entry)) (s : t) : t :=
  fold_left (fun s entries => notify entries s) batches s.

(** The entries of a batch that report [img] as intersecting. *)
Definition hits (img : Dom.elem) (entries : list entry) : list entry :=
  filter (fun en => target en = img ∧ isIntersecting en = true) entries.

End LazyLoading.

(** ** script_topnav_backup.js: initSmoothScrolling *)

Module SmoothScrolling.

(** What [document.querySelector(href)] comes to: an element, [null],
    or a [SyntaxError] when the href is no valid selector. *)
Inductive selected :=
| Found (target : Dom.elem)
| NotFound
| Invalid.

Record t := Mk {
  scrollTo : option Z;      (* top of the last window.scrollTo request *)
  history : list string;    (* the urls handed to history.pushState, oldest first *)
}.

(** How a click listener ends. *)
Inductive outcome :=
| Returned (defaultPrevented : bool) (s : t)
| Threw (s : t).

Definition stateOf (o : outcome) : t :=
  match o with Returned _ s | Threw s => s end.

(** [e.defaultPrevented] when the listener is done. *)
Definition prevented (o : outcome) : bool :=
  match o with Returned p _ => p | Threw _ => false end.

Section Handlers.
Variable querySelector : string → selected.
Variable navbar : option Dom.elem.    (* document.querySelector('.navbar') *)
Variable layout : Layout.t.

(** [navbar?.offsetHeight || 70] *)
Definition navbarHeight : Z :=
  match navbar with
  | Some n => if (Layout.offsetHeight layout n =? 0)%Z then 70%Z
              else Layout.offsetHeight layout n
  | None => 70%Z
  end.

(** The click listener on an anchor whose href is [href]. *)
Definition anchorClick (href : string) (s : t) : outcome :=
  if bool_decide (href = "#") || bool_decide (href = "#!") then Returned false s
  else
    match querySelector href with
    | Found target =>
        let offsetTop := (Layout.offsetTop layout target - navbarHeight)%Z in
        Returned true (Mk (Some offsetTop) (history s ++ [href]))
    | NotFound => Returned false s
    | Invalid => Threw s
    end.

(** The anchors clicked, one after the other, by their hrefs. *)
Definition clicks (hrefs : list string) (s : t) : t :=
  fold_left (fun s href => stateOf (anchorClick href s)) hrefs s.

(** The href leads somewhere: it is no placeholder and selects an
    element. *)
Definition leads (href : string) : bool :=
  negb (bool_decide (href = "#")) && negb (bool_decide (href = "#!"))
  && match querySelector href with Found _ => true | _ => false end.

End Handlers.

End SmoothScrolling.

(** ** script_topnav_backup.js: the project modals on the page

    A click on a trigger or on a close button runs that element's
    listener and then, bubbling, the document's click listener that
    [initMobileNav] added. *)

Module BackupPage.
Import TopnavBackup.

Inductive event :=
| ClickTrigger (modalId : string) (inHamburger inNavMenu : bool)
| ClickCloseButton (inHamburger inNavMenu : bool)
| ClickMenu (c : click)         (* on the hamburger, on a nav link, or elsewhere *)
| PressEscape
| Inside (ev : Modal.event).    (* Tab presses, the focus timer, focus moved *)

Section Page.
Variables hamburger navMenu : Dom.elem.
Variable pg : Modal.page.
Variable order : list Dom.elem.

(** The document's click listener; the flags are
    [hamburger.contains(e.target)] and [navMenu.contains(e.target)]. *)
Definition bubble (inHamburger inNavMenu : bool) (s : Modal.t) : Modal.t :=
  Modal.setDom (documentClick hamburger navMenu inHamburger inNavMenu (Modal.dom s)) s.

(** A click on a [data-modal] trigger whose attribute is [modalId]. *)
Definition triggerClick (modalId : string) (inHamburger inNavMenu : bool)
    (s : Modal.t) : Modal.t :=
  bubble inHamburger inNavMenu (Modal.openModalById pg modalId s).

(** A click on a [data-close-modal] control. *)
Definition closeButtonClick (inHamburger inNavMenu : bool) (s : Modal.t) : Modal.t :=
  bubble inHamburger inNavMenu (Modal.closeCurrentModal s).

Definition step (ev : event) (s : Modal.t) : Modal.t :=
  match ev with
  | ClickTrigger modalId inHamburger inNavMenu =>
      triggerClick modalId inHamburger inNavMenu s
  | ClickCloseButton inHamburger inNavMenu => closeButtonClick inHamburger inNavMenu s
  | ClickMenu c => Modal.setDom (onClick hamburger navMenu c (Modal.dom s)) s
  | PressEscape => Modal.documentKeydown "Escape" s
  | Inside ev => Modal.step pg order ev s
  end.

Definition run (evs : list event) (s : Modal.t) : Modal.t :=
  fold_left (fun s ev => step ev s) evs s.

(** The panels the trigger clicks of a run open, in order. *)
Definition opened (evs : list event) : list Dom.elem :=
  omap (fun ev => match ev with
                  | ClickTrigger modalId _ _ => Modal.getElementById pg modalId
                  | _ => None
                  end) evs.

(** The closure [trapFocus] makes for a panel. *)
Definition trapOf (modal : Dom.elem) : Modal.trap :=
  Modal.Trap modal (head (Modal.focusable pg modal)) (last (Modal.focusable pg modal)).

End Page.

(** [aria-hidden] says ["false"] exactly when the panel is marked
    open, and ["true"] when it is not. *)
Definition announced (p : Dom.elem) (s : Modal.t) : Prop :=
  Dom.getAttribute p "aria-hidden" (Modal.dom s)
  = Some (Dom.ofBool (negb (Modal.isOpen p s))).

End BackupPage.

(** ** script_new.js: the listeners together, as the page runs them *)

Module NewPage.
Import ScriptNew.

Record t := Mk {
  dom : Dom.t;
  image : Image.t;              (* #certificate-image *)
  windowWidth : Z;              (* let windowWidth *)
  observed : gset Dom.elem;     (* the targets of fadeInObserver *)
}.

(** The element a click lands on, as far as it carries a click
    listener of its own. *)
Inductive target :=
| OnToggle                                      (* the menu toggle *)
| OnNavItem (index : nat) (hasTarget : bool)    (* a nav item; does its href select a section *)
| Plain.

Record click := Click {
  landsOn : target;
  viewButton : option (option string);   (* the enclosing view button, by its data-certificate *)
  inClose : bool;                        (* inside a [data-close-certificate] control *)
  inSidebar : bool;                      (* sidebar.contains(e.target) *)
  innerWidth : Z;                        (* window.innerWidth *)
}.

Inductive event :=
| Clicked (c : click)
| Keydown (key : string)
| Scrolled (scrollY : Q) (innerHeight : Z)   (* the debounced updateActiveNavOnScroll runs *)
| Resized (currentWidth : Z)                 (* the debounced resize listener runs *)
| Reported (entries : list FadeIn.entry).    (* fadeInObserver reports a batch *)

Section Page.
Variables modal sidebar icon : Dom.elem.
Variables sections navItems : list Dom.elem.
Variable layout : Layout.t.

(** A click: first the listener of the element it lands on, then the
    document's two click listeners in the order the script added
    them. *)
Definition onClick (c : click) (s : t) : t :=
  let d :=
    match landsOn c with
    | OnToggle => Menu.toggleClick sidebar icon (dom s)
    | OnNavItem index hasTarget =>
        match navItems !! index with
        | Some this =>
            Menu.navItemClick sidebar icon navItems (innerWidth c) this hasTarget (dom s)
        | None => dom s
        end
    | Plain => dom s
    end in
  let cs := Certificate.documentClick modal (viewButton c) (inClose c)
              (Certificate.Mk d (image s)) in
  let inToggle := match landsOn c with OnToggle => true | _ => false end in
  let d := Menu.documentClick sidebar icon (innerWidth c) (inSidebar c) inToggle
             (Certificate.dom cs) in
  Mk d (Certificate.image cs) (windowWidth s) (observed s).

Definition step (ev : event) (s : t) : t :=
  match ev with
  | Clicked c => onClick c s
  | Keydown key =>
      let cs := Certificate.documentKeydown modal key (Certificate.Mk (dom s) (image s)) in
      Mk (Certificate.dom cs) (Certificate.image cs) (windowWidth s) (observed s)
  | Scrolled scrollY innerHeight =>
      Mk (updateActiveNavOnScroll sections navItems layout scrollY innerHeight (dom s))
         (image s) (windowWidth s) (observed s)
  | Resized currentWidth =>
      let ms := Menu.resize sidebar icon currentWidth (Menu.Mk (dom s) (windowWidth s)) in
      Mk (Menu.dom ms) (image s) (Menu.windowWidth ms) (observed s)
  | Reported entries =>
      let fs := FadeIn.notify entries (FadeIn.Mk (dom s) (observed s)) in
      Mk (FadeIn.dom fs) (image s) (windowWidth s) (FadeIn.observed fs)
  end.

Definition run (evs : list event) (s : t) : t :=
  fold_left (fun s ev => step ev s) evs s.

(** Page scrolling is suspended exactly while the certificate modal is
    marked open. *)
Definition locked (s : t) : Prop :=
  Dom.bodyOverflow (dom s) = (if Dom.contains modal "active" (dom s) then "hidden" else "").

End Page.

End NewPage.

(** ** script_new.js: where a click on a nav item scrolls to *)

Module NavClick.

(** [window.scrollTo({ top: targetSection.offsetTop, behavior: 'smooth' })] *)
Definition destination (layout : Layout.t) (targetSection : Dom.elem) : Q :=
  inject_Z (Layout.offsetTop layout targetSection).

End NavClick.

(** ** script_topnav_backup.js: what [updateActiveNav] marks *)

Module BackupNav.

(** The test in the second loop of [updateActiveNav]:
    [href && href.includes(current)]. *)
Definition matches (current : option string) (href : option string) : bool :=
  match href with
  | Some href => negb (bool_decide (href = "")) && Text.includes (JsObject.keyOf current) href
  | None => false
  end.

(** The test in its first loop. *)
Definition reached (navbarHeight : Z) (layout : Layout.t) (scrollY : Q)
    (section : Dom.elem) : bool :=
  Layout.geq scrollY (inject_Z (Layout.offsetTop layout section - navbarHeight - 100)).

End BackupNav.

(** ** script_topnav_backup.js: the notices of [showAlert] over time *)

Module Notices.
Import TopnavBackup.Contact.

Definition taskId (tk : task) : nat :=
  match tk with FadeOut id | Remove id => id end.

#[global] Instance task_eq_dec : EqDecision task.
Proof. solve_decision. Defined.

(** The browser runs a pending timer that carries [tk], if there is
    one; any pending timer can be chosen this way. *)
Definition fireTask (tk : task) (s : t) : t :=
  match list_find (fun p => p.2 = tk) (timers s) with
  | Some (i, _) =>
      fire tk (Mk (nameField s) (emailField s) (messageField s) (href s)
                  (alerts s) (delete i (timers s)) (created s))
  | None => s
  end.

(** The user's entry replaces the value of a field. *)
Definition setValue (v : Js.jsstring) (f : option field) : option field :=
  (fun f => Field v (defaultValue f)) <$> f.

Inductive event :=
| Enter (name email message : Js.jsstring)   (* the user fills in the form *)
| Submit                                     (* the submit listener runs *)
| Show (message type : string)               (* showAlert, called from elsewhere *)
| Fire (tk : task).

Definition step (ev : event) (s : t) : t :=
  match ev with
  | Enter name email message =>
      Mk (setValue name (nameField s)) (setValue email (emailField s))
         (setValue message (messageField s)) (href s) (alerts s) (timers s) (created s)
  | Submit => stateOf (submit s)
  | Show message type => showAlert message type s
  | Fire tk => fireTask tk s
  end.

Definition run (evs : list event) (s : t) : t :=
  fold_left (fun s ev => step ev s) evs s.

(** The page has just been loaded: no notice, no timer. *)
Definition fresh (s : t) : Prop := alerts s = [] ∧ timers s = [].

(** What a notice carries for assistive technology, and that a timer
    of its own is pending. *)
Definition onItsWayOut (s : t) (a : alert) : Prop :=
  role a = "alert" ∧ ariaLive a = "assertive" ∧ ariaAtomic a = "true"
  ∧ ∃ p, p ∈ timers s ∧ taskId p.2 = alertId a.

(** What is kept while the page runs: at most one notice, on its way
    out, and every id in use is one handed out before. *)
Definition kept (s : t) : Prop :=
  (length (alerts s) ≤ 1)%nat
  ∧ (∀ a, a ∈ alerts s → onItsWayOut s a)
  ∧ (∀ a, a ∈ alerts s → (alertId a < created s)%nat)
  ∧ (∀ p, p ∈ timers s → (taskId p.2 < created s)%nat).

(** The values of a field with white space put around it. *)
Definition pad (pre post : Js.jsstring) (f : option field) : option field :=
  (fun f => Field (pre ++ value f ++ post) (defaultValue f)) <$> f.

(** The listener ended in an exception. *)
Definition threw (o : outcome) : bool :=
  match o with Threw _ _ => true | Returned _ _ => false end.

(** The form with white space put around the three values. *)
Definition padded (pn qn pe qe pm qm : Js.jsstring) (s : t) : t :=
  Mk (pad pn qn (nameField s)) (pad pe qe (emailField s)) (pad pm qm (messageField s))
     (href s) (alerts s) (timers s) (created s).

(** The text of the notice that is up, if one is. *)
Definition noticeText (s : t) : option string := textContent <$> last (alerts s).

End Notices.

(** ** script_topnav_backup.js: events other than a trigger click *)

Module Orphan.
Import BackupPage.

Definition isTrigger (ev : event) : bool :=
  match ev with ClickTrigger _ _ _ => true | _ => false end.

End Orphan.

(** ** script_topnav_backup.js: the certificate modal on the page

    A click on a view button or on a close control runs that element's
    listener and then, bubbling, the document's click listener that
    [initMobileNav] added. *)

Module BackupCertificate.
Import TopnavBackup.

Inductive event :=
| ClickView (certificateId : option string) (inHamburger inNavMenu : bool)
| ClickClose (inHamburger inNavMenu : bool)
| ClickMenu (c : click)
| Keydown (key : string).

Section Page.
Variables hamburger navMenu certificateModal : Dom.elem.

Definition bubble (inHamburger inNavMenu : bool) (s : Certificate.t) : Certificate.t :=
  Certificate.Mk
    (documentClick hamburger navMenu inHamburger inNavMenu (Certificate.dom s))
    (Certificate.image s).

Definition step (ev : event) (s : Certificate.t) : Certificate.t :=
  match ev with
  | ClickView certificateId inHamburger inNavMenu =>
      bubble inHamburger inNavMenu (Certificate.viewClick certificateModal certificateId s)
  | ClickClose inHamburger inNavMenu =>
      bubble inHamburger inNavMenu (Certificate.closeClick certificateModal s)
  | ClickMenu c =>
      Certificate.Mk (onClick hamburger navMenu c (Certificate.dom s)) (Certificate.image s)
  | Keydown key => Certificate.keydown certificateModal key s
  end.

Definition run (evs : list event) (s : Certificate.t) : Certificate.t :=
  fold_left (fun s ev => step ev s) evs s.

Definition isOpen (s : Certificate.t) : bool :=
  Dom.contains certificateModal "active" (Certificate.dom s).

(** [aria-hidden] follows the class, and a modal that is not marked
    active shows no image. *)
Definition settled (s : Certificate.t) : Prop :=
  Dom.getAttribute certificateModal "aria-hidden" (Certificate.dom s)
  = Some (Dom.ofBool (negb (isOpen s)))
  ∧ (isOpen s = false → Image.src (Certificate.image s) = JsObject.Str "").

End Page.

End BackupCertificate.

(** ** script_topnav_backup.js: isInViewport *)

Module Viewport.

(** What [getBoundingClientRect] hands back. *)
Record rect := Rect { top : Q; left : Q; bottom : Q; right : Q }.

Record window := Window {
  innerHeight : Z; innerWidth : Z;       (* window.innerHeight, window.innerWidth *)
  clientHeight : Z; clientWidth : Z;     (* of document.documentElement *)
}.

(** [a || b] on integers: [0] is the falsy one. *)
Definition orElse (a b : Z) : Z := if (a =? 0)%Z then b else a.

(** [a <= b] on numbers *)
Definition leq (a b : Q) : bool := Qle_bool a b.

Definition isInViewport (r : rect) (w : window) : bool :=
  Layout.geq (top r) (inject_Z 0)
  && Layout.geq (left r) (inject_Z 0)
  && leq (bottom r) (inject_Z (orElse (innerHeight w) (clientHeight w)))
  && leq (right r) (inject_Z (orElse (innerWidth w) (clientWidth w))).

End Viewport.

(** * Properties *)

(** ** Class lists and attributes *)

Module DomFacts.
Import Dom.

Section Facts.
Implicit Types (d : t) (e x : elem) (c k : string).

Lemma classes_setClasses d e x cs :
  classes (setClasses e cs d) x = if decide (e = x) then cs else classes d x.
Proof.
  unfold classes, setClasses; simpl.
  rewrite lookup_insert. by destruct (decide (e = x)).
Qed.

Lemma contains_add d e x c k :
  contains x k (add e c d) =
  if decide (e = x) then bool_decide (k = c) || contains x k d else contains x k d.
Proof.
  unfold contains, add. rewrite classes_setClasses.
  destruct (decide (e = x)) as [->|]; [|done].
  apply eq_true_iff_eq.
  rewrite orb_true_iff, !bool_decide_eq_true, elem_of_union, elem_of_singleton.
  tauto.
Qed.

Lemma contains_remove d e x c k :
  contains x k (remove e c d) =
  if decide (e = x) then negb (bool_decide (k = c)) && contains x k d else contains x k d.
Proof.
  unfold contains, remove. rewrite classes_setClasses.
  destruct (decide (e = x)) as [->|]; [|done].
  apply eq_true_iff_eq.
  rewrite andb_true_iff, negb_true_iff, bool_decide_eq_false, !bool_decide_eq_true.
  rewrite elem_of_difference, elem_of_singleton. tauto.
Qed.

Lemma contains_toggle d e x c k :
  contains x k (toggle e c d) =
  if decide (e = x)
  then (if bool_decide (k = c) then negb (contains x k d) else contains x k d)
  else contains x k d.
Proof.
  unfold toggle. destruct (contains e c d) eqn:E.
  - rewrite contains_remove. destruct (decide (e = x)) as [->|]; [|done].
    case_bool_decide; subst; simpl; [by rewrite E | done].
  - rewrite contains_add. destruct (decide (e = x)) as [->|]; [|done].
    case_bool_decide; subst; simpl; [by rewrite E | done].
Qed.

Lemma contains_add_same d e c : contains e c (add e c d) = true.
Proof. rewrite contains_add, decide_True, bool_decide_eq_true_2; done. Qed.

Lemma contains_remove_same d e c : contains e c (remove e c d) = false.
Proof. rewrite contains_remove, decide_True, bool_decide_eq_true_2; done. Qed.

Lemma contains_setAttribute d e a v x k :
  contains x k (setAttribute e a v d) = contains x k d.
Proof. done. Qed.

Lemma contains_setOverflow d v x k : contains x k (setOverflow v d) = contains x k d.
Proof. done. Qed.

Lemma contains_focus d e x k : contains x k (focus e d) = contains x k d.
Proof. done. Qed.

Lemma contains_focusOpt d o x k : contains x k (focusOpt o d) = contains x k d.
Proof. by destruct o. Qed.

Lemma getAttribute_setAttribute d e a v x b :
  getAttribute x b (setAttribute e a v d) =
  if decide ((e, a) = (x, b)) then Some v else getAttribute x b d.
Proof. unfold getAttribute, setAttribute; simpl. apply lookup_insert. Qed.

Lemma getAttribute_setAttribute_same d e a v :
  getAttribute e a (setAttribute e a v d) = Some v.
Proof. rewrite getAttribute_setAttribute, decide_True; done. Qed.

Lemma getAttribute_add d e c x b : getAttribute x b (add e c d) = getAttribute x b d.
Proof. done. Qed.

Lemma getAttribute_remove d e c x b : getAttribute x b (remove e c d) = getAttribute x b d.
Proof. done. Qed.

Lemma getAttribute_toggle d e c x b : getAttribute x b (toggle e c d) = getAttribute x b d.
Proof. unfold toggle. by destruct (contains e c d). Qed.

Lemma bodyOverflow_toggle d e c : bodyOverflow (toggle e c d) = bodyOverflow d.
Proof. unfold toggle. by destruct (contains e c d). Qed.

Lemma activeElement_toggle d e c : activeElement (toggle e c d) = activeElement d.
Proof. unfold toggle. by destruct (contains e c d). Qed.

Lemma getAttribute_setOverflow d v x b :
  getAttribute x b (setOverflow v d) = getAttribute x b d.
Proof. done. Qed.

Lemma getAttribute_focus d e x b : getAttribute x b (focus e d) = getAttribute x b d.
Proof. done. Qed.

Lemma setAttribute_twice d e a v :
  setAttribute e a v (setAttribute e a v d) = setAttribute e a v d.
Proof. unfold setAttribute; simpl. by rewrite insert_insert_eq. Qed.

End Facts.

End DomFacts.

Create Rewrite HintDb dom.

#[local] Hint Rewrite DomFacts.contains_add DomFacts.contains_remove
  DomFacts.contains_toggle DomFacts.contains_setAttribute
  DomFacts.contains_setOverflow DomFacts.contains_focus DomFacts.contains_focusOpt
  DomFacts.getAttribute_setAttribute DomFacts.getAttribute_add
  DomFacts.getAttribute_remove DomFacts.getAttribute_toggle
  DomFacts.bodyOverflow_toggle DomFacts.activeElement_toggle
  DomFacts.getAttribute_setOverflow DomFacts.getAttribute_focus : dom.

(** Push a query through the updates that precede it, then split on
    which elements coincide. *)
Ltac dom_simpl := autorewrite with dom; simpl.
Ltac dom_cases := dom_simpl; repeat case_decide; simplify_eq; simpl; try done.

(** ** Theme persistence *)

Module ThemeFacts.
Import TopnavBackup.Theme.

Section Facts.
Variable documentElement : Dom.elem.
Implicit Types (s : t) (v : string).

Lemma orElse_nonempty v dflt : v ≠ "" → Text.orElse (Some v) dflt = v.
Proof. intros H. unfold Text.orElse. by rewrite bool_decide_eq_false_2. Qed.

Lemma savedTheme_setTheme v s :
  v ≠ "" → savedTheme (setTheme documentElement v s) = v.
Proof.
  intros H. unfold savedTheme, setTheme; simpl.
  rewrite lookup_insert_eq. by apply orElse_nonempty.
Qed.

Lemma getCurrentTheme_init s :
  savedTheme s ≠ "" →
  getCurrentTheme documentElement (initThemePersistence documentElement s) = savedTheme s.
Proof.
  intros H. unfold getCurrentTheme, initThemePersistence; simpl.
  rewrite DomFacts.getAttribute_setAttribute_same. by apply orElse_nonempty.
Qed.

Lemma savedTheme_absent s : localStorage s !! THEME_KEY = None → savedTheme s = "dark".
Proof. intros H. unfold savedTheme. by rewrite H. Qed.

Lemma setTheme_idempotent v s :
  setTheme documentElement v (setTheme documentElement v s) = setTheme documentElement v s.
Proof.
  unfold setTheme; simpl.
  by rewrite DomFacts.setAttribute_twice, insert_insert_eq.
Qed.

(** C7: the theme read back is the one last persisted by [setTheme]:
    for [v] either ["dark"] or ["light"], [setTheme v] followed by a
    fresh read of storage (directly, or through a page reload and
    [getCurrentTheme]) yields [v], also when another theme was
    persisted before; with the key absent the read yields ["dark"];
    and applying [setTheme v] twice leaves the very state one
    application leaves. *)
Theorem theme_roundtrip v w s fresh :
  v = "dark" ∨ v = "light" →
  savedTheme (setTheme documentElement v s) = v
  ∧ savedTheme (setTheme documentElement v (setTheme documentElement w s)) = v
  ∧ getCurrentTheme documentElement (setTheme documentElement v s) = v
  ∧ getCurrentTheme documentElement
      (reload documentElement fresh (setTheme documentElement v s)) = v
  ∧ (localStorage s !! THEME_KEY = None →
     savedTheme s = "dark"
     ∧ getCurrentTheme documentElement (reload documentElement fresh s) = "dark")
  ∧ setTheme documentElement v (setTheme documentElement v s)
    = setTheme documentElement v s.
Proof.
  intros Hv.
  assert (Hne : v ≠ "") by (destruct Hv; subst; discriminate).
  repeat split.
  - by apply savedTheme_setTheme.
  - by apply savedTheme_setTheme.
  - unfold getCurrentTheme, setTheme; simpl.
    rewrite DomFacts.getAttribute_setAttribute_same. by apply orElse_nonempty.
  - unfold reload.
    pose proof (savedTheme_setTheme v s Hne) as Hs.
    unfold savedTheme in Hs; simpl in Hs.
    rewrite getCurrentTheme_init; unfold savedTheme; simpl; rewrite Hs; done.
  - by apply savedTheme_absent.
  - unfold reload. rewrite getCurrentTheme_init; unfold savedTheme; simpl.
    + by rewrite H.
    + by rewrite H.
  - apply setTheme_idempotent.
Qed.

End Facts.

(** The round trip on a first visit: nothing stored, the user picks
    the light theme, the page is loaded again. *)
Lemma theme_roundtrip_witness :
  let s := Mk Dom.empty ∅ in
  getCurrentTheme 0 (reload 0 Dom.empty (setTheme 0 "light" s)) = "light"
  ∧ getCurrentTheme 0 (reload 0 Dom.empty s) = "dark".
Proof.
  intros s.
  destruct (theme_roundtrip 0 "light" "dark" s Dom.empty (or_intror eq_refl))
    as (_ & _ & _ & Hr & Hd & _).
  split; [exact Hr | apply Hd; reflexivity].
Defined.

End ThemeFacts.

(** ** Certificate modal *)

Module CertificateFacts.

Lemma get_unknown (own : gmap string string) key :
  own !! key = None → key ∉ JsObject.objectPrototype →
  JsObject.get own key = JsObject.Undefined.
Proof.
  intros Hown Hproto. unfold JsObject.get. rewrite Hown.
  by rewrite bool_decide_eq_false_2.
Qed.

Lemma get_inherited (own : gmap string string) key :
  own !! key = None → key ∈ JsObject.objectPrototype →
  JsObject.get own key = JsObject.Inherited key.
Proof.
  intros Hown Hproto. unfold JsObject.get. rewrite Hown.
  by rewrite bool_decide_eq_true_2.
Qed.

(** Both scripts carry the same two-entry mapping. *)
Lemma same_mapping :
  TopnavBackup.Certificate.certificates = ScriptNew.Certificate.certificateImages.
Proof. reflexivity. Qed.

(** An identifier that names neither a certificate nor a member of
    [Object.prototype] leaves everything as it was, in both scripts. *)
Lemma open_unknown_id modal certificateId s b :
  ScriptNew.Certificate.certificateImages !! JsObject.keyOf certificateId = None →
  JsObject.keyOf certificateId ∉ JsObject.objectPrototype →
  ScriptNew.Certificate.openCertificateModal modal certificateId s = s
  ∧ TopnavBackup.Certificate.viewClick modal certificateId b = b.
Proof.
  intros Hown Hproto. split.
  - unfold ScriptNew.Certificate.openCertificateModal.
    by rewrite (get_unknown _ _ Hown Hproto).
  - unfold TopnavBackup.Certificate.viewClick. rewrite same_mapping.
    by rewrite (get_unknown _ _ Hown Hproto).
Qed.

(** A button without the attribute hands over [null], which opens nothing. *)
Lemma open_null modal s : ScriptNew.Certificate.openCertificateModal modal None s = s.
Proof. reflexivity. Qed.

(** C10: evaluated at the identifier ["constructor"], which the
    certificate mapping does not list: the lookup finds the member
    inherited from [Object.prototype], the test passes, and the modal
    is marked active, scrolling is locked and the image source and alt
    text are overwritten, in [openCertificateModal] and in the click
    listener of [initCertificateModal] alike. *)
Theorem open_constructor_id modal s b :
  ScriptNew.Certificate.certificateImages !! "constructor" = None
  ∧ (let s' := ScriptNew.Certificate.openCertificateModal modal (Some "constructor") s in
     Dom.contains modal "active" (ScriptNew.Certificate.dom s') = true
     ∧ Dom.bodyOverflow (ScriptNew.Certificate.dom s') = "hidden"
     ∧ ScriptNew.Certificate.image s'
       = Image.Mk (JsObject.Inherited "constructor") "CONSTRUCTOR")
  ∧ (let b' := TopnavBackup.Certificate.viewClick modal (Some "constructor") b in
     Dom.contains modal "active" (TopnavBackup.Certificate.dom b') = true
     ∧ Dom.bodyOverflow (TopnavBackup.Certificate.dom b') = "hidden"
     ∧ TopnavBackup.Certificate.image b'
       = Image.Mk (JsObject.Inherited "constructor") "constructor certificate").
Proof.
  assert (Hown : ScriptNew.Certificate.certificateImages !! "constructor" = None)
    by (by vm_compute).
  assert (Hproto : "constructor" ∈ JsObject.objectPrototype)
    by (unfold JsObject.objectPrototype; apply list_elem_of_here).
  assert (Hget : JsObject.get ScriptNew.Certificate.certificateImages
                   (JsObject.keyOf (Some "constructor"))
                 = JsObject.Inherited "constructor")
    by exact (get_inherited _ _ Hown Hproto).
  split; [exact Hown|]. split.
  - unfold ScriptNew.Certificate.openCertificateModal.
    rewrite Hget. simpl.
    split; [apply DomFacts.contains_add_same | done].
  - unfold TopnavBackup.Certificate.viewClick. rewrite same_mapping.
    rewrite Hget. simpl.
    split; [apply DomFacts.contains_add_same | done].
Qed.

End CertificateFacts.

(** ** Reveal on scroll *)

Module RevealFacts.

(** The scroll handlers touch no class but the nav marker. *)
Lemma updateActiveNav_frame sections navLinks navbarHeight layout scrollY d x k :
  k ≠ "active" →
  Dom.contains x k
    (TopnavBackup.updateActiveNav sections navLinks navbarHeight layout scrollY d)
  = Dom.contains x k d.
Proof.
  intros Hk. unfold TopnavBackup.updateActiveNav.
  generalize (TopnavBackup.currentSection sections navbarHeight layout scrollY d).
  intros current. revert d.
  induction navLinks as [|link links IH]; intros d; cbn [fold_left]; [done|].
  rewrite IH.
  destruct (Dom.getAttribute link "href" _); [destruct (_ && _)|]; dom_cases;
    by rewrite ?bool_decide_eq_false_2.
Qed.

Lemma updateActiveNavOnScroll_frame sections navItems layout scrollY innerHeight d x k :
  k ≠ "active" →
  Dom.contains x k
    (ScriptNew.updateActiveNavOnScroll sections navItems layout scrollY innerHeight d)
  = Dom.contains x k d.
Proof.
  intros Hk. unfold ScriptNew.updateActiveNavOnScroll.
  generalize (ScriptNew.currentSection sections layout scrollY innerHeight d).
  intros current. revert d.
  induction navItems as [|item items IH]; intros d; cbn [fold_left]; [done|].
  rewrite IH. unfold ScriptNew.mark.
  case_bool_decide; dom_cases; by rewrite ?bool_decide_eq_false_2.
Qed.

Section Backup.
Import TopnavBackup.Reveal.
Variables sections navLinks : list Dom.elem.
Variable navbarHeight : Z.
Variable layout : Layout.t.
Implicit Types (s : t) (el : Dom.elem) (es : list entry).

Local Abbreviation run := (run sections navLinks navbarHeight layout).
Local Abbreviation step := (step sections navLinks navbarHeight layout).

Lemma callback_cons en es s :
  callback (en :: es) s
  = callback es (if isIntersecting en
                 then Mk (Dom.add (target en) "revealed" (dom s)) (observed s ∖ {[target en]})
                 else s).
Proof. reflexivity. Qed.

Lemma callback_keeps_revealed es s el :
  revealed el s = true → revealed el (callback es s) = true.
Proof.
  revert s. induction es as [|en es IH]; intros s H; [done|].
  rewrite callback_cons. apply IH. destruct (isIntersecting en); [|done].
  unfold revealed in *; simpl. rewrite DomFacts.contains_add, H.
  destruct (decide _); [apply orb_true_r | done].
Qed.

Lemma callback_keeps_unobserved es s el :
  el ∉ observed s → el ∉ observed (callback es s).
Proof.
  revert s. induction es as [|en es IH]; intros s H; [done|].
  rewrite callback_cons. apply IH. destruct (isIntersecting en); [|done].
  simpl. rewrite elem_of_difference. tauto.
Qed.

Lemma callback_reveals es s en :
  en ∈ es → isIntersecting en = true →
  revealed (target en) (callback es s) = true ∧ target en ∉ observed (callback es s).
Proof.
  revert s. induction es as [|e0 es IH]; intros s Hin Hint.
  - by apply elem_of_nil in Hin.
  - rewrite callback_cons. apply elem_of_cons in Hin as [<-|Hin]; [|by apply IH].
    rewrite Hint. split.
    + apply callback_keeps_revealed. unfold revealed; simpl.
      apply DomFacts.contains_add_same.
    + apply callback_keeps_unobserved. simpl.
      rewrite elem_of_difference, elem_of_singleton. tauto.
Qed.

Lemma callback_frame es s el k :
  (∀ en, en ∈ es → target en ≠ el) →
  Dom.contains el k (dom (callback es s)) = Dom.contains el k (dom s).
Proof.
  revert s. induction es as [|e0 es IH]; intros s H; [done|].
  rewrite callback_cons, IH.
  - destruct (isIntersecting e0); [|done]. simpl.
    rewrite DomFacts.contains_add, decide_False; [done|].
    apply H, list_elem_of_here.
  - intros en Hen. apply H. by apply list_elem_of_further.
Qed.

Lemma notify_frame es s el k :
  el ∉ observed s →
  Dom.contains el k (dom (notify es s)) = Dom.contains el k (dom s).
Proof.
  intros H. apply callback_frame. intros en Hen Heq.
  apply list_elem_of_filter in Hen as [Hobs _]. by rewrite Heq in Hobs.
Qed.

(** Neither kind of event observes an element again, and on an
    element that is not observed it changes at most the nav marker. *)
Lemma step_settled ev s el :
  el ∉ observed s →
  (el ∉ observed (step ev s))
  ∧ (∀ k, k ≠ "active" →
       Dom.contains el k (dom (step ev s)) = Dom.contains el k (dom s)).
Proof.
  intros H. destruct ev as [es | scrollY]; simpl.
  - split; [by apply callback_keeps_unobserved|].
    intros k _. by apply notify_frame.
  - split; [done|]. intros k Hk. by apply updateActiveNav_frame.
Qed.

Lemma run_settled evs s el :
  el ∉ observed s →
  (el ∉ observed (run evs s))
  ∧ (∀ k, k ≠ "active" →
       Dom.contains el k (dom (run evs s)) = Dom.contains el k (dom s)).
Proof.
  revert s. induction evs as [|ev evs IH]; intros s H; [done|].
  simpl. destruct (step_settled ev s el H) as [G1 G2].
  destruct (IH (step ev s) G1) as [H1 H2].
  split; [exact H1|]. intros k Hk. by rewrite H2, G2.
Qed.

(** The first intersecting report reveals the element and drops it
    from the observer; whatever comes later leaves it so. *)
Lemma first_report el es evs s :
  el ∈ observed s → Entry el true ∈ es →
  let s1 := notify es s in
  let s2 := run evs s1 in
  revealed el s1 = true ∧ (el ∉ observed s1)
  ∧ revealed el s2 = true ∧ (el ∉ observed s2)
  ∧ (∀ k, k ≠ "active" → Dom.contains el k (dom s2) = Dom.contains el k (dom s1)).
Proof.
  intros Hobs Hin s1 s2.
  assert (H1 : revealed el s1 = true ∧ el ∉ observed s1).
  { apply (callback_reveals _ s (Entry el true)); [|done].
    apply list_elem_of_filter. by split. }
  destruct H1 as [Hr Hu]. destruct (run_settled evs s1 el Hu) as [Hu2 Hf].
  repeat split; try done. unfold revealed. by rewrite Hf.
Qed.

(** Every element handed to the observer at start-up is observed. *)
Lemma observe_all els d0 obs el :
  el ∈ els ∨ el ∈ obs →
  el ∈ observed (fold_left (fun s x => Mk (dom s) (observed s ∪ {[x]})) els (Mk d0 obs)).
Proof.
  revert obs. induction els as [|x els IH]; intros obs H; simpl.
  - destruct H as [H|H]; [by apply elem_of_nil in H | done].
  - apply IH. rewrite elem_of_union, elem_of_singleton.
    destruct H as [H|H]; [apply elem_of_cons in H as [->|H]|]; tauto.
Qed.

End Backup.

Section New.
Import ScriptNew.FadeIn.
Variables sections navItems : list Dom.elem.
Variable layout : Layout.t.
Implicit Types (s : t) (el : Dom.elem) (es : list entry).

Local Abbreviation run := (run sections navItems layout).
Local Abbreviation step := (step sections navItems layout).

Lemma callback_cons_new en es s :
  callback (en :: es) s
  = callback es (if isIntersecting en
                 then Mk (Dom.add (target en) "fade-in-up" (dom s)) (observed s ∖ {[target en]})
                 else s).
Proof. reflexivity. Qed.

Lemma callback_keeps_revealed_new es s el :
  revealed el s = true → revealed el (callback es s) = true.
Proof.
  revert s. induction es as [|en es IH]; intros s H; [done|].
  rewrite callback_cons_new. apply IH. destruct (isIntersecting en); [|done].
  unfold revealed in *; simpl. rewrite DomFacts.contains_add, H.
  destruct (decide _); [apply orb_true_r | done].
Qed.

Lemma callback_keeps_unobserved_new es s el :
  el ∉ observed s → el ∉ observed (callback es s).
Proof.
  revert s. induction es as [|en es IH]; intros s H; [done|].
  rewrite callback_cons_new. apply IH. destruct (isIntersecting en); [|done].
  simpl. rewrite elem_of_difference. tauto.
Qed.

Lemma callback_reveals_new es s en :
  en ∈ es → isIntersecting en = true →
  revealed (target en) (callback es s) = true ∧ target en ∉ observed (callback es s).
Proof.
  revert s. induction es as [|e0 es IH]; intros s Hin Hint.
  - by apply elem_of_nil in Hin.
  - rewrite callback_cons_new. apply elem_of_cons in Hin as [<-|Hin]; [|by apply IH].
    rewrite Hint. split.
    + apply callback_keeps_revealed_new. unfold revealed; simpl.
      apply DomFacts.contains_add_same.
    + apply callback_keeps_unobserved_new. simpl.
      rewrite elem_of_difference, elem_of_singleton. tauto.
Qed.

Lemma callback_frame_new es s el k :
  (∀ en, en ∈ es → target en ≠ el) →
  Dom.contains el k (dom (callback es s)) = Dom.contains el k (dom s).
Proof.
  revert s. induction es as [|e0 es IH]; intros s H; [done|].
  rewrite callback_cons_new, IH.
  - destruct (isIntersecting e0); [|done]. simpl.
    rewrite DomFacts.contains_add, decide_False; [done|].
    apply H, list_elem_of_here.
  - intros en Hen. apply H. by apply list_elem_of_further.
Qed.

Lemma notify_frame_new es s el k :
  el ∉ observed s →
  Dom.contains el k (dom (notify es s)) = Dom.contains el k (dom s).
Proof.
  intros H. apply callback_frame_new. intros en Hen Heq.
  apply list_elem_of_filter in Hen as [Hobs _]. by rewrite Heq in Hobs.
Qed.

(** Neither kind of event observes an element again, and on an
    element that is not observed it changes at most the nav marker. *)
Lemma step_settled_new ev s el :
  el ∉ observed s →
  (el ∉ observed (step ev s))
  ∧ (∀ k, k ≠ "active" →
       Dom.contains el k (dom (step ev s)) = Dom.contains el k (dom s)).
Proof.
  intros H. destruct ev as [es | scrollY innerHeight]; simpl.
  - split; [by apply callback_keeps_unobserved_new|].
    intros k _. by apply notify_frame_new.
  - split; [done|]. intros k Hk. by apply updateActiveNavOnScroll_frame.
Qed.

Lemma run_settled_new evs s el :
  el ∉ observed s →
  (el ∉ observed (run evs s))
  ∧ (∀ k, k ≠ "active" →
       Dom.contains el k (dom (run evs s)) = Dom.contains el k (dom s)).
Proof.
  revert s. induction evs as [|ev evs IH]; intros s H; [done|].
  simpl. destruct (step_settled_new ev s el H) as [G1 G2].
  destruct (IH (step ev s) G1) as [H1 H2].
  split; [exact H1|]. intros k Hk. by rewrite H2, G2.
Qed.

(** The first intersecting report reveals the element and drops it
    from the observer; whatever comes later leaves it so. *)
Lemma first_report_new el es evs s :
  el ∈ observed s → Entry el true ∈ es →
  let s1 := notify es s in
  let s2 := run evs s1 in
  revealed el s1 = true ∧ (el ∉ observed s1)
  ∧ revealed el s2 = true ∧ (el ∉ observed s2)
  ∧ (∀ k, k ≠ "active" → Dom.contains el k (dom s2) = Dom.contains el k (dom s1)).
Proof.
  intros Hobs Hin s1 s2.
  assert (H1 : revealed el s1 = true ∧ el ∉ observed s1).
  { apply (callback_reveals_new _ s (Entry el true)); [|done].
    apply list_elem_of_filter. by split. }
  destruct H1 as [Hr Hu]. destruct (run_settled_new evs s1 el Hu) as [Hu2 Hf].
  repeat split; try done. unfold revealed. by rewrite Hf.
Qed.

(** Every element handed to the observer at start-up is observed. *)
Lemma observe_all_new els d0 obs el :
  el ∈ els ∨ el ∈ obs →
  el ∈ observed (fold_left (fun s x => Mk (dom s) (observed s ∪ {[x]})) els (Mk d0 obs)).
Proof.
  revert obs. induction els as [|x els IH]; intros obs H; simpl.
  - destruct H as [H|H]; [by apply elem_of_nil in H | done].
  - apply IH. rewrite elem_of_union, elem_of_singleton.
    destruct H as [H|H]; [apply elem_of_cons in H as [->|H]|]; tauto.
Qed.

End New.

Section Both.
Variables sections navLinks navItems : list Dom.elem.
Variable navbarHeight : Z.
Variable layout : Layout.t.

(** C9: for a watched element, the batch that first reports it as
    intersecting applies the revealed class and removes it from the
    observed set at once; through every later event, be it a batch of
    intersection reports or a scroll that runs the nav handler, the
    class stays, the element stays unobserved, and none of its classes
    other than the nav marker changes.  This holds for the observer of
    [initRevealAnimations] and for [fadeInObserver]. *)
Theorem reveal_once el
    (es : list TopnavBackup.Reveal.entry) evs (s : TopnavBackup.Reveal.t)
    (es' : list ScriptNew.FadeIn.entry) evs' (s' : ScriptNew.FadeIn.t) :
  el ∈ TopnavBackup.Reveal.observed s →
  TopnavBackup.Reveal.Entry el true ∈ es →
  el ∈ ScriptNew.FadeIn.observed s' →
  ScriptNew.FadeIn.Entry el true ∈ es' →
  (let s1 := TopnavBackup.Reveal.notify es s in
   let s2 := TopnavBackup.Reveal.run sections navLinks navbarHeight layout evs s1 in
   TopnavBackup.Reveal.revealed el s1 = true
   ∧ (el ∉ TopnavBackup.Reveal.observed s1)
   ∧ TopnavBackup.Reveal.revealed el s2 = true
   ∧ (el ∉ TopnavBackup.Reveal.observed s2)
   ∧ (∀ k, k ≠ "active" →
        Dom.contains el k (TopnavBackup.Reveal.dom s2)
        = Dom.contains el k (TopnavBackup.Reveal.dom s1)))
  ∧ (let s1 := ScriptNew.FadeIn.notify es' s' in
     let s2 := ScriptNew.FadeIn.run sections navItems layout evs' s1 in
     ScriptNew.FadeIn.revealed el s1 = true
     ∧ (el ∉ ScriptNew.FadeIn.observed s1)
     ∧ ScriptNew.FadeIn.revealed el s2 = true
     ∧ (el ∉ ScriptNew.FadeIn.observed s2)
     ∧ (∀ k, k ≠ "active" →
          Dom.contains el k (ScriptNew.FadeIn.dom s2)
          = Dom.contains el k (ScriptNew.FadeIn.dom s1))).
Proof.
  intros H1 H2 H3 H4. split.
  - by apply first_report.
  - by apply first_report_new.
Qed.

End Both.

(** Two cards are watched; card 7 scrolls into view, then the page is
    scrolled on, card 7 leaves and comes back while card 8 comes and
    goes. *)
Lemma reveal_once_witness :
  let layout := Layout.Mk (fun _ => 0%Z) (fun _ => 400%Z) in
  let s := TopnavBackup.Reveal.initRevealAnimations [7; 8] Dom.empty in
  let s' := ScriptNew.FadeIn.observeAll [7; 8] Dom.empty in
  let later := [TopnavBackup.Reveal.Scrolled (300 # 1);
                TopnavBackup.Reveal.Report
                  [TopnavBackup.Reveal.Entry 7 false; TopnavBackup.Reveal.Entry 8 true];
                TopnavBackup.Reveal.Report [TopnavBackup.Reveal.Entry 7 true]] in
  let later' := [ScriptNew.FadeIn.Report [ScriptNew.FadeIn.Entry 7 false];
                 ScriptNew.FadeIn.Scrolled (300 # 1) 900;
                 ScriptNew.FadeIn.Report [ScriptNew.FadeIn.Entry 8 false]] in
  TopnavBackup.Reveal.revealed 7
    (TopnavBackup.Reveal.run [1] [7] 70 layout later
       (TopnavBackup.Reveal.notify [TopnavBackup.Reveal.Entry 7 true] s)) = true
  ∧ ScriptNew.FadeIn.revealed 7
      (ScriptNew.FadeIn.run [1] [7] layout later'
         (ScriptNew.FadeIn.notify [ScriptNew.FadeIn.Entry 7 true] s')) = true.
Proof.
  intros layout s s' later later'.
  assert (H1 : 7 ∈ TopnavBackup.Reveal.observed s)
    by (apply observe_all; left; apply list_elem_of_here).
  assert (H3 : 7 ∈ ScriptNew.FadeIn.observed s')
    by (apply observe_all_new; left; apply list_elem_of_here).
  destruct (reveal_once [1] [7] [7] 70 layout 7
              [TopnavBackup.Reveal.Entry 7 true] later s
              [ScriptNew.FadeIn.Entry 7 true] later' s'
              H1 (list_elem_of_here _ _) H3 (list_elem_of_here _ _))
    as [(_ & _ & Ha & _) (_ & _ & Hb & _)].
  split; [exact Ha | exact Hb].
Defined.

End RevealFacts.

(** ** Mobile menu *)

Module MenuFacts.

Section Backup.
Import TopnavBackup.
Variables hamburger navMenu : Dom.elem.
Hypothesis distinct : hamburger ≠ navMenu.

Local Abbreviation consistent := (consistent hamburger navMenu).

Lemma closed_consistent d :
  consistent
    (Dom.setOverflow ""
       (Dom.setAttribute hamburger "aria-expanded" "false"
          (Dom.remove hamburger "active" (Dom.remove navMenu "active" d)))).
Proof.
  unfold TopnavBackup.consistent. by dom_cases.
Qed.

Lemma hamburgerClick_flips d :
  Dom.contains navMenu "active" (hamburgerClick hamburger navMenu d)
  = negb (Dom.contains navMenu "active" d).
Proof.
  unfold hamburgerClick. by dom_cases.
Qed.

Lemma hamburgerClick_consistent d :
  consistent d → consistent (hamburgerClick hamburger navMenu d).
Proof.
  intros (Hh & _ & _). unfold TopnavBackup.consistent.
  rewrite hamburgerClick_flips. unfold hamburgerClick. dom_cases.
  rewrite Hh. by destruct (Dom.contains navMenu "active" d).
Qed.

Lemma documentClick_consistent a b d :
  consistent d → consistent (documentClick hamburger navMenu a b d).
Proof.
  intros H. unfold documentClick.
  destruct (negb a && negb b); [apply closed_consistent | exact H].
Qed.

Lemma onClick_consistent c d : consistent d → consistent (onClick hamburger navMenu c d).
Proof.
  intros H. destruct c; simpl.
  - by apply documentClick_consistent, hamburgerClick_consistent.
  - apply documentClick_consistent, closed_consistent.
  - by apply documentClick_consistent.
Qed.

Lemma trace_consistent cs d :
  consistent d → Forall consistent (trace hamburger navMenu cs d).
Proof.
  revert d. induction cs as [|c cs IH]; intros d H; simpl; [constructor|].
  pose proof (onClick_consistent c d H). constructor; [done | by apply IH].
Qed.

End Backup.

Section New.
Import ScriptNew.Menu.
Variables sidebar icon : Dom.elem.

Local Abbreviation consistent := (consistent sidebar icon).

(** What the two branches that set the glyph have in common. *)
Lemma glyph_consistent d w :
  let d1 := if Dom.contains sidebar "active" d
            then Dom.add icon "fa-times" (Dom.remove icon "fa-bars" d)
            else Dom.add icon "fa-bars" (Dom.remove icon "fa-times" d) in
  consistent (Mk d1 w).
Proof.
  unfold ScriptNew.Menu.consistent; simpl.
  destruct (Dom.contains sidebar "active" d) eqn:E; dom_cases; by rewrite E.
Qed.

Lemma toggleClick_consistent d w : consistent (Mk (toggleClick sidebar icon d) w).
Proof. unfold toggleClick. apply glyph_consistent. Qed.

Lemma toggleClick_flips d :
  Dom.contains sidebar "active" (toggleClick sidebar icon d)
  = negb (Dom.contains sidebar "active" d).
Proof.
  unfold toggleClick.
  destruct (Dom.contains sidebar "active" (Dom.toggle sidebar "active" d));
    by dom_cases.
Qed.

Lemma closeSidebar_consistent d w :
  consistent
    (Mk (Dom.add icon "fa-bars" (Dom.remove icon "fa-times" (Dom.remove sidebar "active" d))) w).
Proof.
  pose proof (glyph_consistent (Dom.remove sidebar "active" d) w) as H.
  by rewrite DomFacts.contains_remove_same in H.
Qed.

Lemma documentClick_consistent_new w a b s :
  consistent s → consistent (Mk (documentClick sidebar icon w a b (dom s)) (windowWidth s)).
Proof.
  intros H. unfold documentClick.
  destruct (w <=? 992)%Z; [|by destruct s].
  destruct (negb a && negb b && _); [apply closeSidebar_consistent | by destruct s].
Qed.

Variable navItems : list Dom.elem.
Hypothesis apart : sidebar ∉ navItems.

Local Abbreviation step := (step sidebar icon navItems).

Lemma clear_items_frame items d x k :
  x ∉ items →
  Dom.contains x k (fold_left (fun d item => Dom.remove item "active" d) items d)
  = Dom.contains x k d.
Proof.
  revert d. induction items as [|i items IH]; intros d H; simpl; [done|].
  rewrite IH by (intros ?; apply H; by apply list_elem_of_further).
  rewrite DomFacts.contains_remove, decide_False; [done|].
  intros ->. apply H, list_elem_of_here.
Qed.

Lemma clear_items_glyph items d k :
  k ≠ "active" →
  Dom.contains icon k (fold_left (fun d item => Dom.remove item "active" d) items d)
  = Dom.contains icon k d.
Proof.
  intros Hk. revert d. induction items as [|i items IH]; intros d; simpl; [done|].
  rewrite IH, DomFacts.contains_remove.
  destruct (decide _); [|done]. by rewrite bool_decide_eq_false_2.
Qed.

Lemma navItemClick_consistent w this hasTarget s :
  this ∈ navItems → consistent s →
  consistent (Mk (navItemClick sidebar icon navItems w this hasTarget (dom s)) (windowWidth s)).
Proof.
  intros Hthis H. unfold navItemClick. destruct hasTarget; [|by destruct s].
  assert (Hne : this ≠ sidebar) by (intros ->; done).
  set (d1 := if (w <=? 992)%Z && Dom.contains sidebar "active" (dom s) then _ else dom s).
  assert (H1 : consistent (Mk d1 (windowWidth s))).
  { subst d1. destruct (_ && _); [apply closeSidebar_consistent | by destruct s]. }
  destruct H1 as [Ha Hb]. simpl in Ha, Hb.
  unfold ScriptNew.Menu.consistent; simpl.
  rewrite !DomFacts.contains_add.
  rewrite (decide_False (P := this = sidebar)) by done.
  rewrite (clear_items_frame navItems d1 sidebar "active" apart).
  rewrite !clear_items_glyph by done.
  rewrite Ha, Hb. by destruct (decide (this = icon)).
Qed.

Lemma resize_consistent w s : consistent s → consistent (resize sidebar icon w s).
Proof.
  intros H. unfold resize.
  destruct (_ && _); [apply closeSidebar_consistent | by destruct s].
Qed.

Lemma step_consistent ev s : consistent s → consistent (step ev s).
Proof.
  intros H. destruct ev as [w a | w i t a | w a | w]; simpl.
  - apply (documentClick_consistent_new w a true (Mk (toggleClick sidebar icon (dom s)) _)).
    apply toggleClick_consistent.
  - destruct (navItems !! i) as [this|] eqn:E; [|done].
    apply (documentClick_consistent_new w a false (Mk _ _)).
    apply navItemClick_consistent; [|done]. by eapply list_elem_of_lookup_2.
  - by apply documentClick_consistent_new.
  - by apply resize_consistent.
Qed.

Lemma trace_consistent_new evs s :
  consistent s → Forall consistent (trace sidebar icon navItems evs s).
Proof.
  revert s. induction evs as [|ev evs IH]; intros s H; simpl; [constructor|].
  pose proof (step_consistent ev s H). constructor; [done | by apply IH].
Qed.

Lemma clear_items_keeps items d x a :
  Dom.getAttribute x a (fold_left (fun d item => Dom.remove item "active" d) items d)
  = Dom.getAttribute x a d.
Proof.
  revert d. induction items as [|i items IH]; intros d; simpl; [done|].
  by rewrite IH, DomFacts.getAttribute_remove.
Qed.

Lemma documentClick_keeps_attributes w a b d x k :
  Dom.getAttribute x k (documentClick sidebar icon w a b d) = Dom.getAttribute x k d.
Proof. unfold documentClick. repeat case_match; dom_cases. Qed.

(** No listener of the menu writes an attribute. *)
Lemma step_keeps_attributes ev s x a :
  Dom.getAttribute x a (dom (step ev s)) = Dom.getAttribute x a (dom s).
Proof.
  destruct ev as [w b | w i t b | w b | w]; cbn [ScriptNew.Menu.step].
  - cbn [dom]. rewrite documentClick_keeps_attributes.
    unfold toggleClick. case_match; dom_cases.
  - destruct (navItems !! i) as [this|]; [|done].
    cbn [dom]. rewrite documentClick_keeps_attributes.
    unfold navItemClick. destruct t; [|done].
    rewrite DomFacts.getAttribute_add, clear_items_keeps. case_match; dom_cases.
  - cbn [dom]. apply documentClick_keeps_attributes.
  - unfold resize. cbn [dom]. case_match; dom_cases.
Qed.

End New.

(** C8: through any sequence of clicks on the toggle, on nav links
    and elsewhere (and of resizes), every state the menu passes
    through is consistent, and a click on the toggle flips the open
    state.  In [initMobileNav] the open class of the menu, the active
    class that draws the hamburger as a close glyph and
    [aria-expanded] agree, and body scrolling is suspended exactly
    while the menu is open; in [script_new.js] the icon carries
    [fa-times] exactly when the sidebar is open and [fa-bars] exactly
    when it is closed, and no event changes an attribute of any
    element: that script leaves [aria-expanded] as the markup has
    it. *)
Theorem menu_consistent hamburger navMenu sidebar icon navItems d0 s0 cs evs :
  hamburger ≠ navMenu →
  sidebar ∉ navItems →
  TopnavBackup.consistent hamburger navMenu d0 →
  ScriptNew.Menu.consistent sidebar icon s0 →
  Forall (TopnavBackup.consistent hamburger navMenu)
         (TopnavBackup.trace hamburger navMenu cs d0)
  ∧ Forall (ScriptNew.Menu.consistent sidebar icon)
           (ScriptNew.Menu.trace sidebar icon navItems evs s0)
  ∧ (∀ d, Dom.contains navMenu "active"
            (TopnavBackup.onClick hamburger navMenu TopnavBackup.OnHamburger d)
          = negb (Dom.contains navMenu "active" d))
  ∧ (∀ d, Dom.contains sidebar "active" (ScriptNew.Menu.toggleClick sidebar icon d)
          = negb (Dom.contains sidebar "active" d))
  ∧ (∀ ev s x a,
       Dom.getAttribute x a (ScriptNew.Menu.dom (ScriptNew.Menu.step sidebar icon navItems ev s))
       = Dom.getAttribute x a (ScriptNew.Menu.dom s)).
Proof.
  intros Hd Ha H0 H1. split; [|split; [|split; [|split]]].
  - by apply trace_consistent.
  - by apply trace_consistent_new.
  - intros d. simpl. by apply hamburgerClick_flips.
  - intros d. apply toggleClick_flips.
  - intros ev s x a. apply step_keeps_attributes.
Qed.

(** C8, refuted as stated for [script_new.js]: the toggle button
    (element 9) says [aria-expanded="false"] and is clicked.  The
    sidebar is then open and the icon shows the close glyph, but
    [aria-expanded] still says ["false"]. *)
Lemma sidebar_open_aria_stale :
  let s0 := ScriptNew.Menu.Mk
              (Dom.setAttribute 9 "aria-expanded" "false" (Dom.add 4 "fa-bars" Dom.empty))
              800 in
  let s1 := ScriptNew.Menu.step 3 4 [5; 6] (ScriptNew.Menu.ClickToggle 800 false) s0 in
  ScriptNew.Menu.consistent 3 4 s0
  ∧ Dom.contains 3 "active" (ScriptNew.Menu.dom s1) = true
  ∧ Dom.contains 4 "fa-times" (ScriptNew.Menu.dom s1) = true
  ∧ Dom.getAttribute 9 "aria-expanded" (ScriptNew.Menu.dom s1) = Some "false".
Proof. intros s0 s1. repeat split; vm_compute; reflexivity. Qed.

(** The menu starts closed; the toggle is clicked open, shut, open,
    and a click on the page behind closes it.  In the other script the
    sidebar is opened and a nav item is clicked on a narrow screen. *)
Lemma menu_consistent_witness :
  let d0 := Dom.Mk ∅ {[ (1, "aria-expanded") := "false" ]} "" None in
  let s0 := ScriptNew.Menu.Mk (Dom.add 4 "fa-bars" Dom.empty) 800 in
  let cs := [TopnavBackup.OnHamburger; TopnavBackup.OnHamburger;
             TopnavBackup.OnHamburger; TopnavBackup.Elsewhere false] in
  let evs := [ScriptNew.Menu.ClickToggle 800 false;
              ScriptNew.Menu.ClickNavItem 800 0 true true;
              ScriptNew.Menu.Resize 1300] in
  Forall (TopnavBackup.consistent 1 2) (TopnavBackup.trace 1 2 cs d0)
  ∧ Forall (ScriptNew.Menu.consistent 3 4) (ScriptNew.Menu.trace 3 4 [5; 6] evs s0).
Proof.
  intros d0 s0 cs evs.
  assert (H1 : 1 ≠ 2) by discriminate.
  assert (H2 : 3 ∉ [5; 6]) by (apply (bool_decide_unpack _); vm_compute; exact I).
  assert (H3 : TopnavBackup.consistent 1 2 d0) by (vm_compute; tauto).
  assert (H4 : ScriptNew.Menu.consistent 3 4 s0) by (vm_compute; tauto).
  destruct (menu_consistent 1 2 3 4 [5; 6] d0 s0 cs evs H1 H2 H3 H4) as (Ha & Hb & _).
  split; [exact Ha | exact Hb].
Defined.

End MenuFacts.

(** ** Project modals *)

Module ModalFacts.
Import TopnavBackup.Modal.

Lemma sameButFocus_refl d : sameButFocus d d.
Proof. by repeat split. Qed.

Lemma sameButFocus_trans d1 d2 d3 :
  sameButFocus d1 d2 → sameButFocus d2 d3 → sameButFocus d1 d3.
Proof. intros (?&?&?) (?&?&?). repeat split; congruence. Qed.

Lemma sameButFocus_focusOpt d o : sameButFocus d (Dom.focusOpt o d).
Proof. destruct o; by repeat split. Qed.

Lemma sameButFocus_contains d d' x k :
  sameButFocus d d' → Dom.contains x k d' = Dom.contains x k d.
Proof. intros (H&_&_). unfold Dom.contains, Dom.classes. by rewrite H. Qed.

Lemma sameButFocus_getAttribute d d' x a :
  sameButFocus d d' → Dom.getAttribute x a d' = Dom.getAttribute x a d.
Proof. intros (_&H&_). unfold Dom.getAttribute. by rewrite H. Qed.

Section Frames.
Variable pg : page.
Variable order : list Dom.elem.
Implicit Types (s : t) (d : Dom.t).

Lemma handleFocusTrap_frame tr key shiftKey d p :
  sameButFocus d (handleFocusTrap tr key shiftKey (d, p)).1.
Proof.
  unfold handleFocusTrap.
  destruct (negb _); [apply sameButFocus_refl|].
  destruct shiftKey; case_bool_decide; simpl;
    auto using sameButFocus_refl, sameButFocus_focusOpt.
Qed.

Lemma traps_frame ts element key shiftKey d p :
  sameButFocus d
    (fold_left
       (fun st tr =>
          if bool_decide (listensOn tr = element)
          then handleFocusTrap tr key shiftKey st else st)
       ts (d, p)).1.
Proof.
  revert d p. induction ts as [|tr ts IH]; intros d p; cbn [fold_left];
    [apply sameButFocus_refl|].
  case_bool_decide; [|apply IH].
  pose proof (handleFocusTrap_frame tr key shiftKey d p) as Hf.
  destruct (handleFocusTrap tr key shiftKey (d, p)) as [d' p'].
  eapply sameButFocus_trans; [exact Hf | apply IH].
Qed.

Lemma keydownOn_frame element key shiftKey s :
  sameButFocus (dom s) (keydownOn element key shiftKey s).1.
Proof. apply traps_frame. Qed.

Lemma defaultTab_frame shiftKey d : sameButFocus d (defaultTab order shiftKey d).
Proof. by repeat split. Qed.

Lemma documentKeydown_Tab s : documentKeydown "Tab" s = s.
Proof. reflexivity. Qed.

(** Nothing that happens inside an open dialog touches the script's
    two references, the class lists, the attributes or the scroll
    lock. *)
Lemma step_frame ev s :
  activeModal (step pg order ev s) = activeModal s
  ∧ lastFocusedElement (step pg order ev s) = lastFocusedElement s
  ∧ sameButFocus (dom s) (dom (step pg order ev s)).
Proof.
  destruct ev as [modal shiftKey | | el]; simpl.
  - unfold pressTab.
    pose proof (keydownOn_frame modal "Tab" shiftKey s) as H.
    destruct (keydownOn modal "Tab" shiftKey s) as [d p]. simpl in H.
    rewrite documentKeydown_Tab. destruct p; simpl; repeat split; try apply H.
  - unfold focusTimerFires. destruct (focusTimers s); simpl;
      auto using sameButFocus_refl, sameButFocus_focusOpt.
  - by repeat split.
Qed.

Lemma run_frame evs s :
  activeModal (run pg order evs s) = activeModal s
  ∧ lastFocusedElement (run pg order evs s) = lastFocusedElement s
  ∧ sameButFocus (dom s) (dom (run pg order evs s)).
Proof.
  revert s. induction evs as [|ev evs IH]; intros s; simpl.
  - repeat split.
  - destruct (IH (step pg order ev s)) as (H1 & H2 & H3).
    destruct (step_frame ev s) as (G1 & G2 & G3).
    split; [congruence|]. split; [congruence|]. by eapply sameButFocus_trans.
Qed.

Lemma openModal_fields modal s :
  let s' := openModal pg (Some modal) s in
  activeModal s' = Some modal
  ∧ lastFocusedElement s' = Dom.activeElement (dom s)
  ∧ dom s' = Dom.setOverflow "hidden"
               (Dom.setAttribute modal "aria-hidden" "false"
                  (Dom.add modal "active" (dom s))).
Proof. done. Qed.

Lemma openModal_activeModal modal s :
  activeModal (openModal pg (Some modal) s) = Some modal.
Proof. done. Qed.

Lemma closeModal_effects modal s :
  let s' := closeModal (Some modal) s in
  isOpen modal s' = false
  ∧ Dom.getAttribute modal "aria-hidden" (dom s') = Some "true"
  ∧ Dom.bodyOverflow (dom s') = ""
  ∧ activeModal s' = None
  ∧ lastFocusedElement s' = None
  ∧ (∀ el, lastFocusedElement s = Some el → Dom.activeElement (dom s') = Some el)
  ∧ (lastFocusedElement s = None →
     Dom.activeElement (dom s') = Dom.activeElement (dom s))
  ∧ (∀ p, p ≠ modal → isOpen p s' = isOpen p s).
Proof.
  unfold closeModal, isOpen.
  destruct (lastFocusedElement s) as [el|]; simpl; repeat split; try done;
    try (by dom_cases); try congruence.
  all: intros p Hp; dom_cases.
Qed.

(** [close()] with nothing referenced. *)
Lemma closeCurrentModal_idle s : activeModal s = None → closeCurrentModal s = s.
Proof. intros H. unfold closeCurrentModal. by rewrite H. Qed.

Lemma closeModal_null s : closeModal None s = s.
Proof. reflexivity. Qed.

(** C6: for every open of a panel followed by whatever goes on inside
    the dialog (Tab and Shift+Tab presses, the focus timer, focus
    moved by the user) and then a close: the panel is un-marked and
    hidden again from assistive technology, page scrolling is
    re-enabled, the reference is cleared, and the element that had
    focus just before the open has it again.  A close while nothing is
    referenced leaves the state as it is. *)
Theorem close_restores modal evs s :
  let s1 := openModal pg (Some modal) s in
  let s2 := run pg order evs s1 in
  let s3 := closeCurrentModal s2 in
  isOpen modal s1 = true
  ∧ isOpen modal s3 = false
  ∧ Dom.getAttribute modal "aria-hidden" (dom s3) = Some "true"
  ∧ Dom.bodyOverflow (dom s3) = ""
  ∧ activeModal s3 = None
  ∧ (∀ el, Dom.activeElement (dom s) = Some el → Dom.activeElement (dom s3) = Some el)
  ∧ (∀ s', activeModal s' = None → closeCurrentModal s' = s').
Proof.
  intros s1 s2 s3.
  destruct (openModal_fields modal s) as (Ha & Hl & Hd). fold s1 in Ha, Hl, Hd.
  destruct (run_frame evs s1) as (Ra & Rl & Rd). fold s2 in Ra, Rl, Rd.
  assert (Hs3 : s3 = closeModal (Some modal) s2).
  { subst s3. unfold closeCurrentModal. by rewrite Ra, Ha. }
  destruct (closeModal_effects modal s2) as (C1 & C2 & C3 & C4 & _ & C6 & _).
  rewrite <- Hs3 in C1, C2, C3, C4, C6.
  repeat split; try done.
  - unfold isOpen. rewrite Hd. by dom_cases.
  - intros el Hel. apply C6. congruence.
  - apply closeCurrentModal_idle.
Qed.

Lemma openModal_isOpen modal s p :
  isOpen p (openModal pg (Some modal) s) = bool_decide (p = modal) || isOpen p s.
Proof.
  unfold isOpen. destruct (openModal_fields modal s) as (_ & _ & ->).
  dom_cases; by rewrite bool_decide_eq_false_2.
Qed.

Lemma closeCurrentModal_referenceIsOpen s : referenceIsOpen (closeCurrentModal s).
Proof.
  unfold closeCurrentModal. destruct (activeModal s) as [m|] eqn:E.
  - pose proof (closeModal_effects m s) as H. cbv zeta in H.
    destruct H as (_ & _ & _ & H & _). intros p Hp. congruence.
  - intros p Hp. congruence.
Qed.

Lemma act_referenceIsOpen a s : referenceIsOpen s → referenceIsOpen (act pg order a s).
Proof.
  intros H. destruct a as [modalId | | | ev]; simpl.
  - unfold openModalById. destruct (getElementById pg modalId) as [m|]; [|done].
    intros p Hp. rewrite openModal_isOpen.
    rewrite openModal_activeModal in Hp.
    injection Hp as ->. by rewrite bool_decide_eq_true_2.
  - apply closeCurrentModal_referenceIsOpen.
  - unfold documentKeydown. destruct (_ && _); [|done].
    apply closeCurrentModal_referenceIsOpen.
  - destruct (step_frame ev s) as (Ha & _ & Hd).
    intros p Hp. unfold isOpen. rewrite (sameButFocus_contains _ _ _ _ Hd).
    apply H. congruence.
Qed.

Lemma perform_referenceIsOpen acts s :
  referenceIsOpen s → referenceIsOpen (perform pg order acts s).
Proof.
  revert s. induction acts as [|a acts IH]; intros s H; simpl; [done|].
  by apply IH, act_referenceIsOpen.
Qed.

(** C1, as the code has it: in any state the page's controls lead
    to, [openModal] marks the given panel open and makes [activeModal]
    refer to it, and changes the mark of no other panel, so a panel
    that was open stays open beside the new one; exactly the new panel
    is open when none was open before.  Before and after, a non-empty
    [activeModal] names a panel that is marked open. *)
Theorem open_marks_and_references modal acts d0 :
  let s := perform pg order acts (initial d0) in
  let s' := openModal pg (Some modal) s in
  isOpen modal s' = true
  ∧ activeModal s' = Some modal
  ∧ (∀ p, isOpen p s' = bool_decide (p = modal) || isOpen p s)
  ∧ ((∀ p, isOpen p s = false) → ∀ p, isOpen p s' = true ↔ p = modal)
  ∧ referenceIsOpen s
  ∧ referenceIsOpen s'.
Proof.
  intros s s'.
  assert (Hs : referenceIsOpen s).
  { apply perform_referenceIsOpen. intros p Hp. discriminate. }
  assert (Ho : ∀ p, isOpen p s' = bool_decide (p = modal) || isOpen p s)
    by (intros p; apply openModal_isOpen).
  split; [by rewrite Ho, bool_decide_eq_true_2|].
  split; [done|]. split; [exact Ho|]. split; [|split; [exact Hs|]].
  - intros Hnone p. rewrite Ho, Hnone, orb_false_r. apply bool_decide_eq_true.
  - intros p Hp. rewrite Ho. subst s'. rewrite openModal_activeModal in Hp.
    injection Hp as ->. by rewrite bool_decide_eq_true_2.
Qed.

End Frames.

(** C1, refuted as stated: the second open neither closes the first
    panel nor is refused.  After two opens both panels are marked
    open while [activeModal] refers to the second only, and after one
    close the first is still marked open with the reference empty. *)
Lemma second_open_keeps_first :
  let s := perform twoPanels [] [ClickTrigger "about"; ClickTrigger "work"]
             (initial Dom.empty) in
  isOpen 1 s = true ∧ isOpen 2 s = true ∧ activeModal s = Some 2
  ∧ ¬ onlyActiveOpen [1; 2] s
  ∧ isOpen 1 (closeCurrentModal s) = true
  ∧ activeModal (closeCurrentModal s) = None.
Proof.
  intros s.
  assert (H1 : isOpen 1 s = true) by (vm_compute; reflexivity).
  assert (H2 : isOpen 2 s = true) by (vm_compute; reflexivity).
  assert (H3 : activeModal s = Some 2) by (vm_compute; reflexivity).
  assert (H4 : isOpen 1 (closeCurrentModal s) = true) by (vm_compute; reflexivity).
  assert (H5 : activeModal (closeCurrentModal s) = None) by (vm_compute; reflexivity).
  split; [exact H1|]. split; [exact H2|]. split; [exact H3|].
  split; [|split; [exact H4 | exact H5]].
  intros H. specialize (H 1 (list_elem_of_here _ _) H1). congruence.
Qed.

(** Opening the first panel of the two-panel page from its start. *)
Lemma open_marks_and_references_witness :
  let s' := openModal twoPanels (Some 1) (initial Dom.empty) in
  (∀ p, isOpen p (initial Dom.empty) = false)
  ∧ (∀ p, isOpen p s' = true ↔ p = 1)
  ∧ activeModal s' = Some 1.
Proof.
  intros s'.
  assert (H0 : ∀ p, isOpen p (initial Dom.empty) = false) by (intros p; reflexivity).
  destruct (open_marks_and_references twoPanels [] 1 [] Dom.empty)
    as (_ & Ha & _ & Hx & _).
  split; [exact H0|]. split; [exact (Hx H0) | exact Ha].
Defined.


(** *** The focus trap *)

Section Trap.
Variable pg : page.
Variable order : list Dom.elem.
Variable modal : Dom.elem.
Implicit Types (s : t) (d : Dom.t) (ts : list trap).

Local Abbreviation F := (focusable pg modal).

(** The end a press leaves from and the end it is sent to. *)
Local Abbreviation from shiftKey := (if shiftKey : bool then head F else last F).
Local Abbreviation to shiftKey := (if shiftKey : bool then last F else head F).

Local Abbreviation listen shiftKey :=
  (fun (st : Dom.t * bool) tr =>
     if bool_decide (listensOn tr = modal)
     then handleFocusTrap tr "Tab" shiftKey st else st).

Lemma handleFocusTrap_Tab tr shiftKey d p :
  firstFocusable tr = head F → lastFocusable tr = last F →
  handleFocusTrap tr "Tab" shiftKey (d, p)
  = if bool_decide (Dom.activeElement d = from shiftKey ∧ is_Some (from shiftKey))
    then (Dom.focusOpt (to shiftKey) d, true) else (d, p).
Proof. intros Hf Hl. unfold handleFocusTrap. rewrite Hf, Hl. by destruct shiftKey. Qed.

Lemma focus_same d h : Dom.activeElement d = Some h → Dom.focus h d = d.
Proof. destruct d; simpl; by intros ->. Qed.

(** Focus is not on the end in question: no closure acts. *)
Lemma traps_idle ts shiftKey d p :
  capturedFrom pg ts →
  ¬ (Dom.activeElement d = from shiftKey ∧ is_Some (from shiftKey)) →
  fold_left (listen shiftKey) ts (d, p) = (d, p).
Proof.
  intros Hc Hn. induction ts as [|tr ts IH]; cbn [fold_left]; [done|].
  assert (Hts : capturedFrom pg ts)
    by (intros x Hx; apply Hc; by apply list_elem_of_further).
  case_bool_decide as Hm; [|by apply IH].
  destruct (Hc tr (list_elem_of_here _ _)) as [Hf Hl]. rewrite Hm in Hf, Hl.
  rewrite (handleFocusTrap_Tab _ _ _ _ Hf Hl), bool_decide_eq_false_2 by done.
  by apply IH.
Qed.

(** Focus already sits where the closures send it: further closures
    change nothing. *)
Lemma traps_settled ts shiftKey d h :
  capturedFrom pg ts →
  to shiftKey = Some h → Dom.activeElement d = Some h →
  fold_left (listen shiftKey) ts (d, true) = (d, true).
Proof.
  intros Hc Hto Hd. induction ts as [|tr ts IH]; cbn [fold_left]; [done|].
  assert (Hts : capturedFrom pg ts)
    by (intros x Hx; apply Hc; by apply list_elem_of_further).
  case_bool_decide as Hm; [|by apply IH].
  destruct (Hc tr (list_elem_of_here _ _)) as [Hf Hl]. rewrite Hm in Hf, Hl.
  rewrite (handleFocusTrap_Tab _ _ _ _ Hf Hl).
  case_bool_decide; [|by apply IH].
  rewrite Hto. simpl. rewrite (focus_same _ _ Hd). by apply IH.
Qed.

(** Focus is on the end in question: the first closure on the modal
    sends it to the other end and cancels the default. *)
Lemma traps_fire ts shiftKey d p h :
  capturedFrom pg ts → installedOn modal ts →
  Dom.activeElement d = from shiftKey → is_Some (from shiftKey) →
  to shiftKey = Some h →
  fold_left (listen shiftKey) ts (d, p) = (Dom.focus h d, true).
Proof.
  intros Hc Hi Hd Hs Hto. induction ts as [|tr ts IH]; cbn [fold_left].
  - destruct Hi as (tr & Htr & _). by apply elem_of_nil in Htr.
  - assert (Hts : capturedFrom pg ts)
      by (intros x Hx; apply Hc; by apply list_elem_of_further).
    case_bool_decide as Hm.
    + destruct (Hc tr (list_elem_of_here _ _)) as [Hf Hl]. rewrite Hm in Hf, Hl.
      rewrite (handleFocusTrap_Tab _ _ _ _ Hf Hl), bool_decide_eq_true_2 by done.
      rewrite Hto. simpl. by apply (traps_settled ts shiftKey _ h).
    + apply IH; [done|]. destruct Hi as (x & Hx & Hxm).
      apply elem_of_cons in Hx as [->|Hx]; [done | by exists x].
Qed.

(** The place of an element in a list without repetition. *)
Lemma index_lookup (l : list Dom.elem) j e :
  NoDup l → l !! j = Some e → index e l = Some j.
Proof.
  intros Hnd Hj. unfold index.
  destruct (list_find (λ x, x = e) l) as [[i x]|] eqn:E; simpl.
  - apply list_find_Some in E as (Hi & -> & _).
    f_equal. by eapply NoDup_lookup.
  - apply list_find_None in E. rewrite Forall_forall in E.
    exfalso. eapply E; [|reflexivity]. by eapply list_elem_of_lookup_2.
Qed.

Section Order.
Variables pre post : list Dom.elem.
Hypothesis Hlayout : order = pre ++ F ++ post.
Hypothesis Hdistinct : NoDup order.

Lemma order_lookup i : (i < length F)%nat → order !! (length pre + i)%nat = F !! i.
Proof.
  intros Hi. rewrite Hlayout, lookup_app_r by lia.
  replace (length pre + i - length pre)%nat with i by lia.
  by rewrite lookup_app_l.
Qed.

(** Away from the end in question, the browser's own step stays among
    the modal's focusable elements. *)
Lemma defaultTab_inside shiftKey d e :
  Dom.activeElement d = Some e → e ∈ F → Some e ≠ from shiftKey →
  ∃ e', Dom.activeElement (defaultTab order shiftKey d) = Some e' ∧ e' ∈ F.
Proof.
  intros Hd He Hne.
  apply list_elem_of_lookup in He as [i Hi].
  pose proof (lookup_lt_Some _ _ _ Hi) as Hlt.
  assert (Hidx : index e order = Some (length pre + i)%nat).
  { apply index_lookup; [done|]. by rewrite order_lookup. }
  unfold defaultTab. rewrite Hd, Hidx. simpl. destruct shiftKey.
  - destruct i as [|j].
    + exfalso. apply Hne. by rewrite head_lookup.
    + replace (length pre + S j)%nat with (S (length pre + j)) by lia.
      destruct (lookup_lt_is_Some_2 F j ltac:(lia)) as [e' He'].
      exists e'. rewrite order_lookup by lia. split; [done|].
      by eapply list_elem_of_lookup_2.
  - assert (Hs : (S i < length F)%nat).
    { destruct (decide (S i < length F)%nat) as [|Hge]; [done|].
      exfalso. apply Hne. rewrite last_lookup.
      replace (pred (length F)) with i by lia. done. }
    destruct (lookup_lt_is_Some_2 F (S i) Hs) as [e' He'].
    exists e'. replace (S (length pre + i)) with (length pre + S i)%nat by lia.
    rewrite order_lookup by lia. split; [done|].
    by eapply list_elem_of_lookup_2.
Qed.

Lemma ends_inside e : e ∈ F → ∀ shiftKey, ∃ h, to shiftKey = Some h ∧ h ∈ F.
Proof.
  intros He shiftKey. destruct F as [|x l] eqn:E; [by apply elem_of_nil in He|].
  destruct shiftKey.
  - destruct (last (x :: l)) as [h|] eqn:El.
    + exists h. split; [done|]. rewrite last_lookup in El.
      by eapply list_elem_of_lookup_2.
    + by apply last_None in El.
  - exists x. split; [done | apply list_elem_of_here].
Qed.

(** One press. *)
Lemma pressTab_inside shiftKey s e :
  capturedFrom pg (traps s) → installedOn modal (traps s) →
  Dom.activeElement (dom s) = Some e → e ∈ F →
  let s' := pressTab order modal shiftKey s in
  (∃ e', Dom.activeElement (dom s') = Some e' ∧ e' ∈ F)
  ∧ traps s' = traps s ∧ activeModal s' = activeModal s
  ∧ (Some e = from shiftKey → Dom.activeElement (dom s') = to shiftKey).
Proof.
  intros Hc Hi Hd He. unfold pressTab, keydownOn.
  destruct (ends_inside e He shiftKey) as (h & Hto & Hh).
  destruct (decide (Some e = from shiftKey)) as [Heq|Hne].
  - assert (Hfire : fold_left (listen shiftKey) (traps s) (dom s, false)
                    = (Dom.focus h (dom s), true)).
    { apply traps_fire; [done | done | congruence | | done].
      rewrite <- Heq. by eexists. }
    rewrite Hfire, documentKeydown_Tab. simpl.
    split; [by exists h|]. do 2 (split; [done|]). intros _. by rewrite Hto.
  - assert (Hidle : fold_left (listen shiftKey) (traps s) (dom s, false)
                    = (dom s, false)).
    { apply traps_idle; [done|]. intros [Ha _]. congruence. }
    rewrite Hidle, documentKeydown_Tab. simpl.
    split; [by apply (defaultTab_inside shiftKey _ e)|].
    do 2 (split; [done|]). intros Heq. done.
Qed.

(** Any run of presses. *)
Lemma presses_inside shifts s e :
  capturedFrom pg (traps s) → installedOn modal (traps s) →
  Dom.activeElement (dom s) = Some e → e ∈ F →
  let s' := presses order modal shifts s in
  (∃ e', Dom.activeElement (dom s') = Some e' ∧ e' ∈ F)
  ∧ activeModal s' = activeModal s.
Proof.
  revert s e. induction shifts as [|sh shifts IH]; intros s e Hc Hi Hd He; simpl.
  - split; [by exists e | done].
  - destruct (pressTab_inside sh s e Hc Hi Hd He) as ((e' & Hd' & He') & Ht & Ha & _).
    destruct (IH (pressTab order modal sh s) e') as [H1 H2]; try done;
      try (by rewrite Ht).
    split; [exact H1 | congruence].
Qed.

End Order.

End Trap.

(** *** What holds of the listeners in every state the page reaches *)

Section Reach.
Variable pg : page.
Variable order : list Dom.elem.
Implicit Types (s : t).

(** The closures are those [trapFocus] made on this page, and the
    referenced panel has one. *)
Local Abbreviation trapsInOrder s :=
  (capturedFrom pg (traps s)
   ∧ ∀ m, activeModal s = Some m → installedOn m (traps s)).

Lemma step_traps ev s : traps (step pg order ev s) = traps s.
Proof.
  destruct ev as [modal shiftKey | | el]; simpl; [| |done].
  - unfold pressTab. destruct (keydownOn modal "Tab" shiftKey s) as [d p].
    rewrite documentKeydown_Tab. by destruct p.
  - unfold focusTimerFires. by destruct (focusTimers s).
Qed.

Lemma closeCurrentModal_traps s :
  traps (closeCurrentModal s) = traps s
  ∧ (activeModal (closeCurrentModal s) = None
     ∨ closeCurrentModal s = s).
Proof.
  unfold closeCurrentModal, closeModal.
  destruct (activeModal s); [|by split; [|right]].
  destruct (lastFocusedElement s); by split; [|left].
Qed.

Lemma openModal_traps modal s :
  trapsInOrder s → trapsInOrder (openModal pg (Some modal) s).
Proof.
  intros [Hc Hi]. split.
  - intros tr Htr. simpl in Htr. apply elem_of_app in Htr as [Htr|Htr]; [by apply Hc|].
    apply list_elem_of_singleton in Htr as ->. done.
  - intros m Hm. rewrite openModal_activeModal in Hm. injection Hm as <-.
    exists (Trap modal (head (focusable pg modal)) (last (focusable pg modal))).
    split; [|reflexivity]. simpl. apply elem_of_app. right.
    apply list_elem_of_here.
Qed.

Lemma act_traps a s : trapsInOrder s → trapsInOrder (act pg order a s).
Proof.
  intros [Hc Hi]. destruct a as [modalId | | | ev]; simpl.
  - unfold openModalById. destruct (getElementById pg modalId); [|done].
    by apply openModal_traps.
  - destruct (closeCurrentModal_traps s) as [Ht [Hn| ->]]; [|done].
    rewrite Ht. split; [done|]. intros m Hm. congruence.
  - unfold documentKeydown. destruct (_ && _); [|done].
    destruct (closeCurrentModal_traps s) as [Ht [Hn| ->]]; [|done].
    rewrite Ht. split; [done|]. intros m Hm. congruence.
  - rewrite step_traps. destruct (step_frame pg order ev s) as (Ha & _).
    split; [done|]. intros m Hm. apply Hi. congruence.
Qed.

Lemma perform_traps acts s : trapsInOrder s → trapsInOrder (perform pg order acts s).
Proof.
  revert s. induction acts as [|a acts IH]; intros s H; simpl; [done|].
  by apply IH, act_traps.
Qed.

Lemma initial_traps d0 : trapsInOrder (initial d0).
Proof.
  split; [intros tr Htr; by apply elem_of_nil in Htr | intros m Hm; discriminate].
Qed.


End Reach.


(** A dialog closed before its 100 ms timer has fired: the close
    gives focus back to button 9, and the timer, still pending, then
    puts it on the close button of the panel that is no longer open. *)
Lemma late_timer_takes_focus :
  let s := setDom (Dom.focus 9 Dom.empty) (initial Dom.empty) in
  let closed := closeCurrentModal (openModal twoPanels (Some 1) s) in
  Dom.activeElement (dom closed) = Some 9
  ∧ Dom.activeElement (dom (focusTimerFires twoPanels closed)) = Some 11
  ∧ isOpen 1 (focusTimerFires twoPanels closed) = false.
Proof. by vm_compute. Qed.

(** Focus is on button 9 when the first panel is opened; the timer
    fires, Tab is pressed twice, and the dialog is closed. *)
Lemma close_restores_witness :
  let order := [9; 11; 12; 30] in
  let s := setDom (Dom.focus 9 Dom.empty) (initial Dom.empty) in
  let s3 := closeCurrentModal
              (run twoPanels order [TimerFires; Tab 1 false; Tab 1 false]
                 (openModal twoPanels (Some 1) s)) in
  Dom.activeElement (dom s3) = Some 9
  ∧ isOpen 1 s3 = false
  ∧ activeModal s3 = None.
Proof.
  intros order s s3.
  destruct (close_restores twoPanels order 1 [TimerFires; Tab 1 false; Tab 1 false] s)
    as (_ & H2 & _ & _ & H5 & H6 & _).
  split; [exact (H6 9 eq_refl) | split; [exact H2 | exact H5]].
Defined.

End ModalFacts.

(** ** Arithmetic on numbers *)

Module Binary64Facts.
Import Binary64.

Implicit Types (x q : Q) (n k e : Z).

Lemma pow2_pos e : (0 < pow2 e)%Q.
Proof.
  unfold pow2. destruct (Z.leb_spec 0 e) as [H|H].
  - rewrite <- (Zlt_Qlt 0). by apply Z.pow_pos_nonneg.
  - reflexivity.
Qed.

Lemma nearestEven_lower n q : (inject_Z n <= q)%Q → (n ≤ nearestEven q)%Z.
Proof.
  intros H. apply Qfloor_resp_le in H. rewrite Qfloor_Z in H.
  unfold nearestEven. repeat case_match; lia.
Qed.

Lemma nearestEven_upper n q : (q <= inject_Z n)%Q → (nearestEven q ≤ n)%Z.
Proof.
  intros H. pose proof (Qfloor_le q) as Hf.
  assert (Hfn : (Qfloor q ≤ n)%Z).
  { apply Qfloor_resp_le in H. by rewrite Qfloor_Z in H. }
  assert (Hup : (inject_Z (Qfloor q) < q)%Q → (Qfloor q + 1 ≤ n)%Z).
  { intros Hlt. assert (Qfloor q < n)%Z; [|lia].
    rewrite Zlt_Qlt. lra. }
  unfold nearestEven. destruct (_ ?= _)%Q eqn:E.
  - apply Qeq_alt in E. destruct (Z.even _); [done|]. apply Hup. lra.
  - done.
  - apply Qgt_alt in E. apply Hup. lra.
Qed.

Lemma magnitude_le x k :
  (1 ≤ k)%Z → (Qabs x < inject_Z (2 ^ k))%Q → (magnitude x ≤ k)%Z.
Proof.
  intros Hk H. unfold magnitude. destruct (Qle_bool 1 (Qabs x)) eqn:E.
  - apply Qle_bool_iff in E.
    assert (H1 : (1 ≤ Qfloor (Qabs x))%Z).
    { apply Qfloor_resp_le in E. exact E. }
    assert (H2 : (Qfloor (Qabs x) < 2 ^ k)%Z).
    { rewrite Zlt_Qlt. pose proof (Qfloor_le (Qabs x)).
      set (c := inject_Z (2 ^ k)) in *. lra. }
    apply Z.log2_lt_pow2 in H2; lia.
  - pose proof (Z.log2_up_nonneg (Qceiling (/ Qabs x))). lia.
Qed.

(** Below 2^51 in size the last place is a quarter or finer. *)
Lemma lastPlace_small x : (Qabs x < inject_Z (2 ^ 51))%Q → (lastPlace x ≤ -2)%Z.
Proof.
  intros H. apply magnitude_le in H; [|lia]. unfold lastPlace. lia.
Qed.

Lemma quarter_on_grid e k :
  (e ≤ -2)%Z → (inject_Z (k * 2 ^ (- e - 2)) * pow2 e == k # 4)%Q.
Proof.
  intros He. unfold pow2. destruct (Z.leb_spec 0 e) as [?|_]; [lia|].
  assert (Hp : (0 < 2 ^ (- e))%Z) by (apply Z.pow_pos_nonneg; lia).
  assert (Hs : (2 ^ (- e) = 4 * 2 ^ (- e - 2))%Z).
  { replace (- e)%Z with (2 + (- e - 2))%Z at 1 by lia.
    rewrite Z.pow_add_r by lia. done. }
  unfold Qeq, Qmult, inject_Z. simpl. rewrite Pos.mul_1_l, Z2Pos.id by done. lia.
Qed.

(** Rounding does not cross a multiple of a quarter. *)
Lemma nearest_quarter x k :
  (Qabs x < inject_Z (2 ^ 51))%Q →
  ((k # 4 <= x)%Q → (k # 4 <= nearest x)%Q)
  ∧ ((x <= k # 4)%Q → (nearest x <= k # 4)%Q).
Proof.
  intros Hx. pose proof (lastPlace_small x Hx) as He.
  unfold nearest. rewrite Qred_correct.
  set (e := lastPlace x) in *.
  pose proof (pow2_pos e) as Hc.
  pose proof (quarter_on_grid e k He) as Hg.
  set (m := (k * 2 ^ (- e - 2))%Z) in *.
  split; intros H.
  - assert (Hm : (m ≤ nearestEven (x / pow2 e))%Z).
    { apply nearestEven_lower. apply Qle_shift_div_l; [done|]. by rewrite Hg. }
    rewrite <- Hg. apply Qmult_le_compat_r; [|by apply Qlt_le_weak].
    by rewrite <- Zle_Qle.
  - assert (Hm : (nearestEven (x / pow2 e) ≤ m)%Z).
    { apply nearestEven_upper. apply Qle_shift_div_r; [done|]. by rewrite Hg. }
    rewrite <- Hg. apply Qmult_le_compat_r; [|by apply Qlt_le_weak].
    by rewrite <- Zle_Qle.
Qed.

Lemma pow2_51_1024 : (inject_Z (2 ^ 51) < pow2 1024)%Q.
Proof.
  unfold pow2. change (0 <=? 1024)%Z with true. cbv iota.
  rewrite <- Zlt_Qlt. by apply Z.pow_lt_mono_r.
Qed.

(** Below 2^51 in size the result is finite. *)
Lemma round_small x : (Qabs x < inject_Z (2 ^ 51))%Q → round x = Fin (nearest x).
Proof.
  intros Hx. unfold round.
  destruct (Qle_bool (pow2 1024) (Qabs (nearest x))) eqn:E; [exfalso|done].
  apply Qle_bool_iff in E.
  destruct (nearest_quarter x (4 * 2 ^ 51) Hx) as [_ Hu].
  destruct (nearest_quarter x (- (4 * 2 ^ 51)) Hx) as [Hl _].
  assert (Hq : ((4 * 2 ^ 51) # 4 == inject_Z (2 ^ 51))%Q).
  { unfold Qeq, inject_Z. simpl. lia. }
  assert (Hq' : ((- (4 * 2 ^ 51)) # 4 == - inject_Z (2 ^ 51))%Q).
  { unfold Qeq, inject_Z, Qopp. simpl. lia. }
  rewrite Hq in Hu. rewrite Hq' in Hl.
  apply Qabs_Qlt_condition in Hx as [Hx1 Hx2].
  assert (Ha : (Qabs (nearest x) <= inject_Z (2 ^ 51))%Q).
  { apply Qabs_Qle_condition. split; [apply Hl | apply Hu]; by apply Qlt_le_weak. }
  pose proof pow2_51_1024 as Hp.
  set (c := inject_Z (2 ^ 51)) in *. set (c' := pow2 1024) in *. lra.
Qed.

(** Rounding does not cross an integer, nor the quarter below one. *)
Lemma nearest_above x n :
  (Qabs x < inject_Z (2 ^ 51))%Q → (inject_Z n <= x)%Q → (inject_Z n <= nearest x)%Q.
Proof.
  intros Hx H. destruct (nearest_quarter x (4 * n) Hx) as [Hl _].
  assert (Hq : (4 * n # 4 == inject_Z n)%Q) by (unfold Qeq, inject_Z; simpl; lia).
  rewrite Hq in Hl. by apply Hl.
Qed.

Lemma nearest_below x n :
  (Qabs x < inject_Z (2 ^ 51))%Q → (x <= inject_Z n)%Q → (nearest x <= inject_Z n)%Q.
Proof.
  intros Hx H. destruct (nearest_quarter x (4 * n) Hx) as [_ Hu].
  assert (Hq : (4 * n # 4 == inject_Z n)%Q) by (unfold Qeq, inject_Z; simpl; lia).
  rewrite Hq in Hu. by apply Hu.
Qed.

Lemma nearest_below_quarter x n :
  (Qabs x < inject_Z (2 ^ 51))%Q →
  (x <= inject_Z n - (1 # 4))%Q → (nearest x <= inject_Z n - (1 # 4))%Q.
Proof.
  intros Hx H. destruct (nearest_quarter x (4 * n - 1) Hx) as [_ Hu].
  assert (Hq : (4 * n - 1 # 4 == inject_Z n - (1 # 4))%Q).
  { unfold Qeq, Qminus, Qplus, Qopp, inject_Z; simpl; lia. }
  rewrite Hq in Hu. by apply Hu.
Qed.

Lemma long_bounds n :
  Layout.long n → (- (2147483648 # 1) <= inject_Z n ∧ inject_Z n < 2147483648 # 1)%Q.
Proof.
  unfold Layout.long, Qle, Qlt, inject_Z. simpl. lia.
Qed.

Lemma small x :
  (- (4294967296 # 1) <= x)%Q → (x <= 4294967296 # 1)%Q →
  (Qabs x < inject_Z (2 ^ 51))%Q.
Proof.
  intros H1 H2. apply Qabs_Qlt_condition.
  change (inject_Z (2 ^ 51)) with (2251799813685248 # 1)%Q. lra.
Qed.

(** The sum of two integers of 32 bits is exact. *)
Lemma add_integers m n :
  Layout.long m → Layout.long n →
  ∃ b, add (ofZ m) (ofZ n) = Fin b ∧ (b == inject_Z (m + n))%Q.
Proof.
  intros Hm Hn. apply long_bounds in Hm as [Hm1 Hm2], Hn as [Hn1 Hn2].
  assert (Hs : (Qabs (inject_Z m + inject_Z n) < inject_Z (2 ^ 51))%Q)
    by (apply small; lra).
  exists (nearest (inject_Z m + inject_Z n)). split.
  - unfold add, ofZ. by apply round_small.
  - apply Qle_antisym.
    + apply nearest_below; [done|]. rewrite inject_Z_plus. lra.
    + apply nearest_above; [done|]. rewrite inject_Z_plus. lra.
Qed.

(** The third of an integer of 32 bits, rounded. *)
Lemma third n :
  Layout.long n →
  ∃ t, div (ofZ n) (ofZ 3) = Fin t
       ∧ (- (2147483648 # 1) <= t <= 2147483648 # 1)%Q
       ∧ ∀ k, ((3 * k ≤ n)%Z → (inject_Z k <= t)%Q)
              ∧ ((n < 3 * k)%Z → (t <= inject_Z k - (1 # 4))%Q).
Proof.
  intros Hn. pose proof (long_bounds n Hn) as [Hn1 Hn2].
  set (q := (inject_Z n / inject_Z 3)%Q).
  assert (Hq : ∀ k, ((3 * k ≤ n)%Z → (inject_Z k <= q)%Q)
                    ∧ ((n < 3 * k)%Z → (q <= inject_Z k - (1 # 4))%Q)).
  { intros k. subst q.
    unfold Qle, Qminus, Qplus, Qopp, Qdiv, Qmult, Qinv, inject_Z. simpl. lia. }
  assert (Hb : (- (2147483648 # 1) <= q <= 2147483648 # 1)%Q).
  { subst q. unfold Layout.long in Hn.
    unfold Qle, Qopp, Qdiv, Qmult, Qinv, inject_Z. simpl. lia. }
  assert (Hs : (Qabs q < inject_Z (2 ^ 51))%Q) by (apply small; lra).
  exists (nearest q). split; [|split; [split|]].
  - unfold div, ofZ. change (Qeq_bool (inject_Z 3) 0) with false. cbv iota.
    by apply round_small.
  - change (- (2147483648 # 1))%Q with (inject_Z (- 2147483648)).
    apply nearest_above; [done|]. change (inject_Z (-2147483648)) with (- (2147483648 # 1))%Q. lra.
  - change (2147483648 # 1)%Q with (inject_Z 2147483648).
    apply nearest_below; [done|]. change (inject_Z 2147483648) with (2147483648 # 1)%Q. lra.
  - intros k. destruct (Hq k) as [H1 H2]. split; intros H.
    + apply nearest_above; [done | by apply H1].
    + apply nearest_below_quarter; [done | by apply H2].
Qed.

(** The nearest integer is at most a half away. *)
Lemma nearestEven_close q :
  (Qabs (inject_Z (nearestEven q) - q) <= 1 # 2)%Q.
Proof.
  pose proof (Qfloor_le q) as H1. pose proof (Qlt_floor q) as H2.
  rewrite inject_Z_plus in H2. change (inject_Z 1) with 1%Q in H2.
  apply Qabs_Qle_condition. unfold nearestEven.
  destruct (_ ?= _)%Q eqn:E.
  - apply Qeq_alt in E.
    destruct (Z.even _); rewrite ?inject_Z_plus; change (inject_Z 1) with 1%Q; lra.
  - apply Qlt_alt in E. lra.
  - apply Qgt_alt in E. rewrite inject_Z_plus. change (inject_Z 1) with 1%Q. lra.
Qed.

(** Rounding lands on a multiple of the last place, at most half of
    it away. *)
Lemma nearest_close x :
  (nearest x == inject_Z (nearestEven (x / pow2 (lastPlace x))) * pow2 (lastPlace x))%Q
  ∧ (Qabs (nearest x - x) <= (1 # 2) * pow2 (lastPlace x))%Q.
Proof.
  unfold nearest. rewrite !Qred_correct. split; [reflexivity|].
  set (c := pow2 (lastPlace x)). pose proof (pow2_pos (lastPlace x)) as Hc. fold c in Hc.
  pose proof (nearestEven_close (x / c)) as H.
  set (m := inject_Z (nearestEven (x / c))) in *.
  assert (Hx : (x == x / c * c)%Q).
  { rewrite Qmult_comm, Qmult_div_r; [reflexivity|]. intros H0. rewrite H0 in Hc. lra. }
  assert (He : (m * c - x == (m - x / c) * c)%Q) by (rewrite Hx at 1; ring).
  rewrite He, Qabs_Qmult, (Qabs_pos c) by lra.
  apply Qmult_le_compat_r; [done | lra].
Qed.

Lemma pow2_nonneg_exp e : (0 ≤ e)%Z → pow2 e = inject_Z (2 ^ e).
Proof. intros H. unfold pow2. by destruct (Z.leb_spec 0 e); [|lia]. Qed.

Lemma pow2_neg_exp e : (e < 0)%Z → (pow2 e * inject_Z (2 ^ (- e)) == 1)%Q.
Proof.
  intros H. unfold pow2. destruct (Z.leb_spec 0 e); [lia|].
  assert (Hp : (0 < 2 ^ (- e))%Z) by (apply Z.pow_pos_nonneg; lia).
  unfold Qeq, Qmult, inject_Z. simpl. rewrite Pos.mul_1_r, Z2Pos.id by done. lia.
Qed.

(** The magnitude of a number other than zero: the power of two just
    above it. *)
Lemma magnitude_spec x :
  ¬ (x == 0)%Q →
  (pow2 (magnitude x - 1) <= Qabs x ∧ Qabs x < pow2 (magnitude x))%Q.
Proof.
  intros Hx. assert (Ha : (0 < Qabs x)%Q).
  { pose proof (Qabs_nonneg x). destruct (Qeq_dec (Qabs x) 0) as [E|E]; [|lra].
    exfalso. apply Hx. pose proof (Qabs_Qle_condition x 0) as [Hc _].
    destruct Hc as [H1 H2]; [lra|]. lra. }
  unfold magnitude. set (a := Qabs x) in *.
  destruct (Qle_bool 1 a) eqn:E.
  - apply Qle_bool_iff in E.
    assert (H1 : (1 ≤ Qfloor a)%Z) by (apply Qfloor_resp_le in E; exact E).
    pose proof (Z.log2_spec (Qfloor a) ltac:(lia)) as [L1 L2].
    pose proof (Z.log2_nonneg (Qfloor a)) as L0.
    replace (Z.log2 (Qfloor a) + 1 - 1)%Z with (Z.log2 (Qfloor a)) by lia.
    rewrite !pow2_nonneg_exp by lia.
    pose proof (Qfloor_le a) as F1. pose proof (Qlt_floor a) as F2.
    rewrite Zle_Qle in L1.
    assert (L3 : (Qfloor a + 1 ≤ 2 ^ (Z.log2 (Qfloor a) + 1))%Z) by (unfold Z.succ in L2; lia).
    rewrite Zle_Qle in L3.
    set (lo := inject_Z (2 ^ Z.log2 (Qfloor a))) in *.
    set (hi := inject_Z (2 ^ (Z.log2 (Qfloor a) + 1))) in *.
    split; lra.
  - assert (E' : (a < 1)%Q).
    { apply Qnot_le_lt. intros H. apply Qle_bool_iff in H. congruence. }
    set (c := Qceiling (/ a)).
    assert (Hinv : (1 < / a)%Q).
    { apply Qlt_shift_inv_l; [done|]. lra. }
    pose proof (Qle_ceiling (/ a)) as C1. pose proof (Qceiling_lt (/ a)) as C2.
    fold c in C1, C2.
    assert (Hc : (1 < c)%Z).
    { rewrite Zlt_Qlt. change (inject_Z 1) with 1%Q. lra. }
    pose proof (Z.log2_up_spec c Hc) as [U1 U2].
    pose proof (Z.log2_up_pos c Hc) as U0.
    set (u := Z.log2_up c) in *.
    replace (1 - u - 1)%Z with (- u)%Z by lia.
    pose proof (pow2_neg_exp (- u) ltac:(lia)) as P1.
    rewrite Z.opp_involutive in P1.
    pose proof (pow2_pos (- u)) as P0.
    assert (Hu : (0 < inject_Z (2 ^ u))%Q).
    { rewrite <- (Zlt_Qlt 0). apply Z.pow_pos_nonneg; lia. }
    rewrite Zle_Qle in U2.
    assert (Hau : (1 <= a * inject_Z (2 ^ u))%Q).
    { assert (H : (/ a * a <= inject_Z (2 ^ u) * a)%Q).
      { apply Qmult_le_compat_r; lra. }
      rewrite Qmult_comm, Qmult_inv_r in H by lra. lra. }
    split.
    + (* pow2 (-u) <= a, from pow2 (-u) * 2^u = 1 <= a * 2^u *)
      apply (Qmult_le_r _ _ (inject_Z (2 ^ u))); [done|]. rewrite P1. done.
    + destruct (decide (u = 1%Z)) as [->|Hne].
      * exact E'.
      * pose proof (pow2_neg_exp (1 - u) ltac:(lia)) as P2.
        replace (- (1 - u))%Z with (u - 1)%Z in P2 by lia.
        pose proof (pow2_pos (1 - u)) as P3.
        unfold Z.pred in U1. replace (u + -1)%Z with (u - 1)%Z in U1 by lia.
        assert (U3 : (2 ^ (u - 1) ≤ c - 1)%Z) by lia.
        rewrite Zle_Qle in U3.
        assert (Hv : (0 < inject_Z (2 ^ (u - 1)))%Q).
        { rewrite <- (Zlt_Qlt 0). apply Z.pow_pos_nonneg; lia. }
        apply (Qmult_lt_r _ _ (inject_Z (2 ^ (u - 1)))); [done|]. rewrite P2.
        (* a * 2^(u-1) < 1, as 2^(u-1) < 1/a *)
        assert (H : (inject_Z (2 ^ (u - 1)) * a < / a * a)%Q).
        { apply Qmult_lt_compat_r; [done|]. lra. }
        rewrite (Qmult_comm (/ a)), Qmult_inv_r in H by lra.
        rewrite Qmult_comm. done.
Qed.

(** The rounding agrees with the Standard Library's model of the
    format on the sums and quotients tried. *)
Example agrees_on_a_third :
  ofSpec (SFdiv 53 1024 (toSpec 1000) (toSpec 3)) = div (ofZ 1000) (ofZ 3).
Proof. vm_compute. reflexivity. Qed.

Example agrees_on_a_tie :
  ofSpec (SFadd 53 1024 (toSpec (2 ^ 53)) (toSpec 1)) = add (ofZ (2 ^ 53)) (ofZ 1)
  ∧ ofSpec (SFadd 53 1024 (toSpec (2 ^ 53)) (toSpec 3)) = add (ofZ (2 ^ 53)) (ofZ 3)
  ∧ add (ofZ (2 ^ 53)) (ofZ 1) = ofZ (2 ^ 53).
Proof. vm_compute. done. Qed.

Example agrees_on_a_sum :
  ofSpec (SFadd 53 1024 (SFdiv 53 1024 (toSpec 1) (toSpec 10))
                        (SFdiv 53 1024 (toSpec 2) (toSpec 10)))
  = add (div (ofZ 1) (ofZ 10)) (div (ofZ 2) (ofZ 10))
  ∧ add (div (ofZ 1) (ofZ 10)) (div (ofZ 2) (ofZ 10)) ≠ div (ofZ 3) (ofZ 10).
Proof. vm_compute. split; [reflexivity | discriminate]. Qed.

Example agrees_on_overflow :
  ofSpec (SFadd 53 1024 (toSpec (2 ^ 1023)) (toSpec (2 ^ 1023)))
  = add (ofZ (2 ^ 1023)) (ofZ (2 ^ 1023))
  ∧ add (ofZ (2 ^ 1023)) (ofZ (2 ^ 1023)) = Inf false.
Proof. vm_compute. done. Qed.

End Binary64Facts.

(** ** Active navigation entry *)

Module ActiveNavFacts.

Lemma filter_at_most_one {A} (P : A → Prop) `{∀ x, Decision (P x)} (l : list A) :
  NoDup l → (∀ x y, x ∈ l → y ∈ l → P x → P y → x = y) →
  (length (filter P l) ≤ 1)%nat.
Proof.
  intros Hnd Huniq.
  destruct (filter P l) as [|x [|y r]] eqn:E; simpl; [lia | lia |].
  exfalso.
  assert (Hx : x ∈ filter P l) by (rewrite E; apply list_elem_of_here).
  assert (Hy : y ∈ filter P l)
    by (rewrite E; apply list_elem_of_further, list_elem_of_here).
  apply list_elem_of_filter in Hx as [Px Hx], Hy as [Py Hy].
  assert (x = y) as -> by by apply Huniq.
  assert (Hnd' : NoDup (filter P l)) by by apply NoDup_filter.
  rewrite E in Hnd'. apply NoDup_cons in Hnd' as [Hn _].
  apply Hn, list_elem_of_here.
Qed.

Section New.
Import ScriptNew.
Variables sections navItems : list Dom.elem.
Variable layout : Layout.t.
Variable scrollY : Q.
Variable innerHeight : Z.
Implicit Types (d : Dom.t) (item sec : Dom.elem).

Local Abbreviation inView := (inView layout scrollY innerHeight).
Local Abbreviation reference := (scrollPosition scrollY innerHeight).

(** The test on a page whose offsets fit 32 bits, for a finite
    reference point: top <= reference point < top + height. *)
Lemma inView_spec sec r :
  Layout.long (Layout.offsetTop layout sec) →
  Layout.long (Layout.offsetHeight layout sec) →
  reference = Binary64.Fin r →
  inView sec = true ↔
  (inject_Z (Layout.offsetTop layout sec) <= r
   ∧ r < inject_Z (Layout.offsetTop layout sec + Layout.offsetHeight layout sec))%Q.
Proof.
  intros Ht Hh Hr. unfold ScriptNew.inView. rewrite Hr.
  destruct (Binary64Facts.add_integers _ _ Ht Hh) as (b & -> & Hb).
  cbn [Binary64.geq Binary64.lt Binary64.ofZ].
  rewrite andb_true_iff, negb_true_iff, Qle_bool_iff, <- Hb.
  split; intros [H1 H2]; (split; [exact H1|]).
  - apply Qnot_le_lt. intros Hle. apply Qle_bool_iff in Hle. congruence.
  - apply not_true_is_false. intros Hle. apply Qle_bool_iff in Hle.
    by apply Qlt_not_le in H2.
Qed.

(** The first loop yields [''] when no section is in view, and
    otherwise the id of the last section in view. *)
Lemma currentSection_spec d :
  ((∀ sec, sec ∈ sections → inView sec = false)
   ∧ currentSection sections layout scrollY innerHeight d = Some "")
  ∨ (∃ before sec after,
       sections = before ++ sec :: after
       ∧ inView sec = true
       ∧ (∀ x, x ∈ after → inView x = false)
       ∧ currentSection sections layout scrollY innerHeight d
         = Dom.getAttribute sec "id" d).
Proof.
  unfold currentSection. generalize (Some "") as init.
  induction sections as [|sec l IH] using rev_ind; intros init.
  - left. split; [|done]. intros sec H. by apply elem_of_nil in H.
  - rewrite fold_left_app. simpl. destruct (inView sec) eqn:E.
    + right. exists l, sec, []. repeat split; try done.
      intros x Hx. by apply elem_of_nil in Hx.
    + destruct (IH init) as [[Hn Hc]|(b & s0 & a & -> & Hv & Ha & Hc)].
      * left. split; [|done]. intros x Hx.
        apply elem_of_app in Hx as [Hx|Hx]; [by apply Hn|].
        by apply list_elem_of_singleton in Hx as ->.
      * right. exists b, s0, (a ++ [sec]).
        split; [by rewrite <- app_assoc|]. repeat split; try done.
        intros x Hx. apply elem_of_app in Hx as [Hx|Hx]; [by apply Ha|].
        by apply list_elem_of_singleton in Hx as ->.
Qed.

Lemma mark_getAttribute current d item x a :
  Dom.getAttribute x a (mark current d item) = Dom.getAttribute x a d.
Proof. unfold mark. by case_bool_decide. Qed.

Lemma marks_getAttribute current items d x a :
  Dom.getAttribute x a (fold_left (mark current) items d) = Dom.getAttribute x a d.
Proof.
  revert d. induction items as [|i items IH]; intros d; simpl; [done|].
  by rewrite IH, mark_getAttribute.
Qed.

Lemma mark_contains current d item x :
  Dom.contains x "active" (mark current d item)
  = if decide (item = x)
    then bool_decide (Dom.getAttribute x "href" d = Some ("#" +:+ JsObject.keyOf current))
    else Dom.contains x "active" d.
Proof.
  unfold mark. rewrite DomFacts.getAttribute_remove.
  destruct (decide (item = x)) as [->|Hne].
  - case_bool_decide; dom_cases.
  - case_bool_decide; dom_cases.
Qed.

(** After the second loop an entry carries the marker exactly when
    its href is ['#'] followed by the current id. *)
Lemma marks_contains current items d x :
  Dom.contains x "active" (fold_left (mark current) items d)
  = if decide (x ∈ items)
    then bool_decide (Dom.getAttribute x "href" d = Some ("#" +:+ JsObject.keyOf current))
    else Dom.contains x "active" d.
Proof.
  revert d. induction items as [|i items IH]; intros d; cbn [fold_left].
  - rewrite decide_False; [done | apply not_elem_of_nil].
  - rewrite IH, mark_getAttribute, mark_contains.
    destruct (decide (x ∈ items)) as [Hin|Hout].
    + rewrite decide_True; [done | by apply list_elem_of_further].
    + destruct (decide (i = x)) as [->|Hne].
      * rewrite decide_True; [done | apply list_elem_of_here].
      * rewrite decide_False; [done|].
        intros [?|?]%elem_of_cons; congruence.
Qed.

Lemma activeEntries_spec d item :
  let d' := updateActiveNavOnScroll sections navItems layout scrollY innerHeight d in
  item ∈ activeEntries navItems d' ↔
  item ∈ navItems
  ∧ Dom.getAttribute item "href" d
    = Some ("#" +:+ JsObject.keyOf
                      (currentSection sections layout scrollY innerHeight d)).
Proof.
  unfold activeEntries, updateActiveNavOnScroll. rewrite list_elem_of_filter.
  rewrite marks_contains. split.
  - intros [H Hin]. split; [done|]. rewrite decide_True in H by done.
    by apply bool_decide_eq_true in H.
  - intros [Hin H]. split; [|done]. rewrite decide_True by done.
    by apply bool_decide_eq_true.
Qed.

(** Sections out of view leave the running id alone. *)
Lemma skip_out_of_view d l init :
  (∀ x, x ∈ l → inView x = false) →
  fold_left
    (fun current section =>
       if inView section then Dom.getAttribute section "id" d else current)
    l init = init.
Proof.
  revert init. induction l as [|x l IH]; intros init H; simpl; [done|].
  rewrite (H x) by apply list_elem_of_here.
  apply IH. intros y Hy. by apply H, list_elem_of_further.
Qed.

Lemma currentSection_last d before sec after :
  sections = before ++ sec :: after →
  inView sec = true → (∀ x, x ∈ after → inView x = false) →
  currentSection sections layout scrollY innerHeight d = Dom.getAttribute sec "id" d.
Proof.
  intros -> Hv Ha. unfold currentSection. rewrite fold_left_app. simpl.
  rewrite Hv. by apply skip_out_of_view.
Qed.

Lemma currentSection_none d :
  (∀ x, x ∈ sections → inView x = false) →
  currentSection sections layout scrollY innerHeight d = Some "".
Proof. apply skip_out_of_view. Qed.

(** C2: for every scroll position, on a page whose nav entries have
    pairwise different link targets, none of them the bare ['#']:
    after [updateActiveNavOnScroll] at most one nav entry carries the
    marker; an entry that carries it links to the id of a section that
    passes the test of the first loop; the entry that links to the
    last such section does carry it; and when no section passes the
    test no entry carries it.  The test compares the reference point
    [scrollY + innerHeight / 3], computed as the script computes it
    in binary floating point, with the section's top and with the sum
    of its top and height; where the offsets fit 32 bits and the
    reference point is finite, a section passes exactly when its
    extent from the top up to, not including, top + height contains
    the reference point. *)
Theorem one_active_entry d :
  NoDup navItems →
  (∀ x y, x ∈ navItems → y ∈ navItems →
     is_Some (Dom.getAttribute x "href" d) →
     Dom.getAttribute x "href" d = Dom.getAttribute y "href" d → x = y) →
  (∀ x, x ∈ navItems → Dom.getAttribute x "href" d ≠ Some "#") →
  let d' := updateActiveNavOnScroll sections navItems layout scrollY innerHeight d in
  (length (activeEntries navItems d') ≤ 1)%nat
  ∧ (∀ item, item ∈ activeEntries navItems d' →
       ∃ sec, sec ∈ sections ∧ inView sec = true
              ∧ Dom.getAttribute item "href" d'
                = Some ("#" +:+ JsObject.keyOf (Dom.getAttribute sec "id" d')))
  ∧ (∀ before sec after item,
       sections = before ++ sec :: after →
       inView sec = true → (∀ x, x ∈ after → inView x = false) →
       item ∈ navItems →
       Dom.getAttribute item "href" d
       = Some ("#" +:+ JsObject.keyOf (Dom.getAttribute sec "id" d)) →
       item ∈ activeEntries navItems d')
  ∧ ((∀ sec, sec ∈ sections → inView sec = false) → activeEntries navItems d' = [])
  ∧ reference
    = Binary64.add (Binary64.Fin scrollY)
        (Binary64.div (Binary64.Fin (inject_Z innerHeight)) (Binary64.Fin (inject_Z 3)))
  ∧ (∀ sec,
       inView sec
       = Binary64.geq reference (Binary64.Fin (inject_Z (Layout.offsetTop layout sec)))
         && Binary64.lt reference
              (Binary64.add (Binary64.Fin (inject_Z (Layout.offsetTop layout sec)))
                            (Binary64.Fin (inject_Z (Layout.offsetHeight layout sec)))))
  ∧ (∀ sec r,
       Layout.long (Layout.offsetTop layout sec) →
       Layout.long (Layout.offsetHeight layout sec) →
       reference = Binary64.Fin r →
       inView sec = true ↔
       (inject_Z (Layout.offsetTop layout sec) <= r
        ∧ r < inject_Z (Layout.offsetTop layout sec + Layout.offsetHeight layout sec))%Q).
Proof.
  intros Hnd Huniq Hbare d'.
  assert (Hattr : ∀ x a, Dom.getAttribute x a d' = Dom.getAttribute x a d)
    by (intros; apply marks_getAttribute).
  split; [|split; [|split; [|split; [|split; [|split]]]]].
  - apply filter_at_most_one; [done|]. intros x y Hx Hy Px Py.
    assert (Hx' : x ∈ activeEntries navItems d') by by apply list_elem_of_filter.
    assert (Hy' : y ∈ activeEntries navItems d') by by apply list_elem_of_filter.
    apply activeEntries_spec in Hx' as [_ Hx'], Hy' as [_ Hy'].
    apply Huniq; [done | done | by rewrite Hx' | congruence].
  - intros item Hitem. apply activeEntries_spec in Hitem as [Hin Hhref].
    destruct (currentSection_spec d) as [[_ Hc]|(b & sec & a & Hs & Hv & _ & Hc)].
    + rewrite Hc in Hhref. by apply Hbare in Hhref.
    + exists sec. split; [rewrite Hs; apply elem_of_app; right; apply list_elem_of_here|].
      split; [done|]. rewrite !Hattr. by rewrite <- Hc.
  - intros before sec after item Hs Hv Ha Hin Hhref.
    apply activeEntries_spec. split; [done|].
    by rewrite (currentSection_last d before sec after Hs Hv Ha).
  - intros Hnone. destruct (activeEntries navItems d') as [|item rest] eqn:E; [done|].
    assert (Hitem : item ∈ activeEntries navItems d')
      by (rewrite E; apply list_elem_of_here).
    apply activeEntries_spec in Hitem as [Hin Hhref].
    rewrite (currentSection_none d Hnone) in Hhref. by apply Hbare in Hhref.
  - reflexivity.
  - reflexivity.
  - apply inView_spec.
Qed.

End New.

(** Two sections, 600 and 500 pixels tall, and two nav entries; the
    viewport is 900 tall and scrolled by 500, so the reference point
    800 falls in the second section. *)
Lemma one_active_entry_witness :
  let layout := Layout.Mk (fun e => if bool_decide (e = 2) then 600%Z else 0%Z)
                          (fun e => if bool_decide (e = 2) then 500%Z else 600%Z) in
  let d := Dom.Mk ∅ {[ (1, "id") := "about"; (2, "id") := "work";
                       (5, "href") := "#about"; (6, "href") := "#work" ]} "" None in
  let d' := ScriptNew.updateActiveNavOnScroll [1; 2] [5; 6] layout (500 # 1) 900 d in
  (length (ScriptNew.activeEntries [5; 6] d') ≤ 1)%nat
  ∧ 6 ∈ ScriptNew.activeEntries [5; 6] d'.
Proof.
  intros layout d d'.
  assert (Hnd : NoDup [5; 6]) by (apply (bool_decide_unpack _); vm_compute; exact I).
  assert (Huniq : ∀ x y, x ∈ [5; 6] → y ∈ [5; 6] →
            is_Some (Dom.getAttribute x "href" d) →
            Dom.getAttribute x "href" d = Dom.getAttribute y "href" d → x = y).
  { intros x y Hx Hy _.
    apply elem_of_cons in Hx as [->|Hx]; [|apply list_elem_of_singleton in Hx as ->];
    (apply elem_of_cons in Hy as [->|Hy]; [|apply list_elem_of_singleton in Hy as ->]);
    vm_compute; congruence. }
  assert (Hbare : ∀ x, x ∈ [5; 6] → Dom.getAttribute x "href" d ≠ Some "#").
  { intros x Hx.
    apply elem_of_cons in Hx as [->|Hx]; [|apply list_elem_of_singleton in Hx as ->];
    vm_compute; congruence. }
  destruct (one_active_entry [1; 2] [5; 6] layout (500 # 1) 900 d Hnd Huniq Hbare)
    as (H1 & _ & H3 & _).
  split; [exact H1|].
  apply (H3 [1] 2 [] 6); [reflexivity | reflexivity | | | reflexivity].
  - intros x Hx. by apply elem_of_nil in Hx.
  - apply list_elem_of_further, list_elem_of_here.
Defined.

Section Backup.
Import TopnavBackup.
Variables sections navLinks : list Dom.elem.
Variable navbarHeight : Z.
Variable layout : Layout.t.
Variable scrollY : Q.
Implicit Types (d : Dom.t).

Lemma includes_empty h : Text.includes "" h = true.
Proof. by destruct h. Qed.

(** The other script's [updateActiveNav] follows another rule: while
    the page is scrolled above the first section's threshold the
    running id is [''], which every href includes, so every link with
    an href is marked. *)
Lemma updateActiveNav_marks_all d link h :
  (∀ sec, sec ∈ sections →
     Layout.geq scrollY
       (inject_Z (Layout.offsetTop layout sec - navbarHeight - 100)) = false) →
  link ∈ navLinks →
  Dom.getAttribute link "href" d = Some h → h ≠ "" →
  Dom.contains link "active"
    (updateActiveNav sections navLinks navbarHeight layout scrollY d) = true.
Proof.
  intros Hnone Hin Hh Hne. unfold updateActiveNav.
  assert (Hc : currentSection sections navbarHeight layout scrollY d = Some "").
  { unfold currentSection. generalize (Some "") as init.
    induction sections as [|x l IH]; intros init; simpl; [done|].
    rewrite (Hnone x) by apply list_elem_of_here.
    apply IH. intros y Hy. by apply Hnone, list_elem_of_further. }
  rewrite Hc. simpl. clear Hc Hnone.
  revert d Hh. induction navLinks as [|x l IH]; intros d Hh; [by apply elem_of_nil in Hin|].
  cbn [fold_left]. rewrite DomFacts.getAttribute_remove.
  destruct (decide (link ∈ l)) as [Hl|Hl].
  - apply IH; [done|].
    destruct (Dom.getAttribute x "href" d) as [hx|]; [|done].
    by destruct (_ && _).
  - apply elem_of_cons in Hin as [<-|Hin]; [|done].
    rewrite Hh, includes_empty, bool_decide_eq_false_2 by done. simpl.
    clear IH Hh.
    assert (Hkeep : ∀ d0, Dom.contains link "active" d0 = true →
              Dom.contains link "active"
                (fold_left
                   (fun d link0 =>
                      let d := Dom.remove link0 "active" d in
                      match Dom.getAttribute link0 "href" d with
                      | Some href =>
                          if negb (bool_decide (href = ""))
                             && Text.includes (JsObject.keyOf (Some "")) href
                          then Dom.add link0 "active" d else d
                      | None => d
                      end) l d0) = true).
    { induction l as [|y l IHl]; intros d0 H0; [done|]. cbn [fold_left].
      apply IHl.
      - intros Hy. apply Hl. by apply list_elem_of_further.
      - assert (y ≠ link) by (intros ->; apply Hl, list_elem_of_here).
        destruct (Dom.getAttribute y "href" _); [destruct (_ && _)|]; dom_cases. }
    apply Hkeep. apply DomFacts.contains_add_same.
Qed.

End Backup.

(** C2, refuted as stated for the other script.  [updateActiveNav]
    marks every link whose href contains the running id.  On a page
    whose first section starts 400 pixels down, below a header, no
    threshold is reached at scroll position 0: the running id is [''],
    and both links are marked.  And once the section [work] is
    reached, the links to [#work] and to [#workshop] are both
    marked. *)
Lemma backup_marks_two_links :
  let layout := Layout.Mk (fun e => if bool_decide (e = 2) then 1000%Z else 400%Z)
                          (fun _ => 600%Z) in
  let d := Dom.Mk ∅ {[ (1, "id") := "about"; (2, "id") := "work";
                       (5, "href") := "#about"; (6, "href") := "#work" ]} "" None in
  let e := Dom.Mk ∅ {[ (1, "id") := "work"; (2, "id") := "workshop";
                       (5, "href") := "#work"; (6, "href") := "#workshop" ]} "" None in
  ScriptNew.activeEntries [5; 6]
    (TopnavBackup.updateActiveNav [1; 2] [5; 6] 70 layout 0 d) = [5; 6]
  ∧ ScriptNew.activeEntries [5; 6]
      (TopnavBackup.updateActiveNav [1; 2] [5; 6] 70 layout (300 # 1) e) = [5; 6].
Proof. split; vm_compute; reflexivity. Qed.

(** The conditions on the markup are needed.  Two entries with the
    same link target are marked together; and while no section is in
    view, an entry whose href is the bare ['#'] is marked. *)
Example same_href_marked_together :
  let layout := Layout.Mk (fun _ => 0%Z) (fun _ => 600%Z) in
  let d := Dom.Mk ∅ {[ (1, "id") := "about";
                       (5, "href") := "#about"; (6, "href") := "#about" ]} "" None in
  ScriptNew.activeEntries [5; 6]
    (ScriptNew.updateActiveNavOnScroll [1] [5; 6] layout 0 900 d) = [5; 6].
Proof. vm_compute. reflexivity. Qed.

Example bare_hash_marked :
  let layout := Layout.Mk (fun _ => 0%Z) (fun _ => 600%Z) in
  let d := Dom.Mk ∅ {[ (1, "id") := "about";
                       (5, "href") := "#about"; (6, "href") := "#" ]} "" None in
  ScriptNew.inView layout (700 # 1) 900 1 = false
  ∧ ScriptNew.activeEntries [5; 6]
      (ScriptNew.updateActiveNavOnScroll [1] [5; 6] layout (700 # 1) 900 d) = [6].
Proof. vm_compute. done. Qed.

(** The reference point is the rounded one.  Two sections of 600
    pixels in a window 1000 pixels tall, scrolled to the number
    nearest to 266.66666666666663: the exact sum of the scroll
    position and a third of the height lies below 600, but the sum the
    script computes is 600, and the second entry is marked.  The
    Standard Library's model of the format computes the same sum. *)
Example boundary_rounds_up :
  let layout := Layout.Mk (fun e => if bool_decide (e = 2) then 600%Z else 0%Z)
                          (fun _ => 600%Z) in
  let d := Dom.Mk ∅ {[ (1, "id") := "about"; (2, "id") := "work";
                       (5, "href") := "#about"; (6, "href") := "#work" ]} "" None in
  let scrollY := Binary64.nearest (26666666666666663 # 100000000000000) in
  (scrollY + inject_Z 1000 / inject_Z 3 < inject_Z 600)%Q
  ∧ ScriptNew.scrollPosition scrollY 1000 = Binary64.Fin (inject_Z 600)
  ∧ ScriptNew.activeEntries [5; 6]
      (ScriptNew.updateActiveNavOnScroll [1; 2] [5; 6] layout scrollY 1000 d) = [6]
  ∧ Binary64.Fin scrollY = Binary64.ofSpec (S754_finite false 4691249611844266 (-44))
  ∧ ScriptNew.scrollPosition scrollY 1000
    = Binary64.ofSpec
        (SFadd 53 1024 (S754_finite false 4691249611844266 (-44))
           (SFdiv 53 1024 (Binary64.toSpec 1000) (Binary64.toSpec 3))).
Proof. vm_compute. done. Qed.

End ActiveNavFacts.

(** ** Strings, patterns and percent-encoding *)

Module RegexFacts.
Import Regex.

Implicit Types (r : re) (s : Js.jsstring) (c : Z).

(** Each constructor read backwards. *)
Lemma never_inv s : Matches Never s ↔ False.
Proof. split; [inversion 1 | done]. Qed.

Lemma eps_inv s : Matches Eps s ↔ s = [].
Proof. split; [by inversion 1 | intros ->; constructor]. Qed.

Lemma class_inv (p : Z → bool) s : Matches (Class p) s ↔ ∃ c, s = [c] ∧ p c = true.
Proof.
  split.
  - inversion 1; subst. eauto.
  - intros (c & -> & H). by constructor.
Qed.

Lemma cat_inv r1 r2 s :
  Matches (Cat r1 r2) s ↔ ∃ s1 s2, s = s1 ++ s2 ∧ Matches r1 s1 ∧ Matches r2 s2.
Proof.
  split.
  - inversion 1; subst. eauto.
  - intros (s1 & s2 & -> & H1 & H2). by constructor.
Qed.

Lemma alt_inv r1 r2 s : Matches (Alt r1 r2) s ↔ Matches r1 s ∨ Matches r2 s.
Proof.
  split.
  - inversion 1; subst; eauto.
  - intros [H|H]; [by apply MAltL | by apply MAltR].
Qed.

Lemma nullable_spec r : nullable r = true ↔ Matches r [].
Proof.
  induction r as [| |p|r1 IH1 r2 IH2|r1 IH1 r2 IH2|r IH]; simpl.
  - rewrite never_inv. split; [discriminate | done].
  - by rewrite eps_inv.
  - rewrite class_inv. split; [discriminate | by intros (c & ? & _)].
  - rewrite andb_true_iff, IH1, IH2, cat_inv. split.
    + intros [H1 H2]. by exists [], [].
    + intros (s1 & s2 & Heq & H1 & H2). symmetry in Heq.
      apply app_eq_nil in Heq as [-> ->]. done.
  - by rewrite orb_true_iff, IH1, IH2, alt_inv.
  - split; [constructor | done].
Qed.

(** A starred match of a non-empty string starts with a non-empty
    match of the body. *)
Lemma star_cons r c s :
  Matches (Star r) (c :: s) →
  ∃ s1 s2, s = s1 ++ s2 ∧ Matches r (c :: s1) ∧ Matches (Star r) s2.
Proof.
  intros H. remember (Star r) as r' eqn:Er. remember (c :: s) as s' eqn:Es.
  revert s Es.
  induction H as [| | | | | |r0 s1 s2 H1 _ H2 IH2]; intros t Es; try discriminate.
  injection Er as ->. destruct s1 as [|c1 s1]; simpl in Es.
  - by apply IH2.
  - injection Es as -> <-. by exists s1, s2.
Qed.

Lemma cat_deriv r1 r2 c s :
  (∀ s, Matches (deriv c r1) s ↔ Matches r1 (c :: s)) →
  Matches (Cat (deriv c r1) r2) s ↔
  ∃ s1 s2, s = s1 ++ s2 ∧ Matches r1 (c :: s1) ∧ Matches r2 s2.
Proof.
  intros IH. rewrite cat_inv. split.
  - intros (s1 & s2 & -> & H1 & H2). exists s1, s2. by rewrite <- IH.
  - intros (s1 & s2 & -> & H1 & H2). exists s1, s2. by rewrite IH.
Qed.

(** A match of a concatenation on a non-empty string: the first
    character belongs to the left part, or the left part is empty. *)
Lemma cat_cons r1 r2 c s :
  Matches (Cat r1 r2) (c :: s) ↔
  (∃ s1 s2, s = s1 ++ s2 ∧ Matches r1 (c :: s1) ∧ Matches r2 s2)
  ∨ (Matches r1 [] ∧ Matches r2 (c :: s)).
Proof.
  rewrite cat_inv. split.
  - intros (s1 & s2 & Heq & H1 & H2). destruct s1 as [|c1 s1]; simpl in Heq.
    + subst s2. by right.
    + injection Heq as -> ->. left. by exists s1, s2.
  - intros [(s1 & s2 & -> & H1 & H2)|[H1 H2]].
    + by exists (c :: s1), s2.
    + by exists [], (c :: s).
Qed.

Lemma deriv_spec r c s : Matches (deriv c r) s ↔ Matches r (c :: s).
Proof.
  revert s. induction r as [| |p|r1 IH1 r2 IH2|r1 IH1 r2 IH2|r IH]; intros s; simpl.
  - by rewrite !never_inv.
  - rewrite never_inv, eps_inv. split; [done | discriminate].
  - rewrite class_inv. destruct (p c) eqn:E.
    + rewrite eps_inv. split.
      * intros ->. by exists c.
      * intros (c' & Heq & _). by injection Heq.
    + rewrite never_inv. split; [done|].
      intros (c' & Heq & Hc). injection Heq as -> _. congruence.
  - rewrite cat_cons, <- (cat_deriv r1 r2 c s IH1), <- nullable_spec, <- IH2.
    destruct (nullable r1).
    + rewrite alt_inv. tauto.
    + split; [tauto | intros [?|[? _]]; [done | discriminate]].
  - by rewrite !alt_inv, IH1, IH2.
  - rewrite (cat_deriv r (Star r) c s IH). split.
    + intros (s1 & s2 & -> & H1 & H2). by apply (MStarS r (c :: s1) s2).
    + apply star_cons.
Qed.

(** The matcher decides membership in the language. *)
Theorem test_spec r s : test r s = true ↔ Matches r s.
Proof.
  revert r. induction s as [|c s IH]; intros r; simpl.
  - apply nullable_spec.
  - by rewrite IH, deriv_spec.
Qed.

Lemma star_class (p : Z → bool) s :
  Matches (Star (Class p)) s ↔ Forall (fun c => p c = true) s.
Proof.
  split.
  - intros H. remember (Star (Class p)) as r eqn:Er.
    induction H as [| | | | | |r0 s1 s2 H1 _ H2 IH2]; try discriminate; [constructor|].
    injection Er as ->. apply class_inv in H1 as (c & -> & Hc).
    constructor; [done | by apply IH2].
  - induction 1 as [|c s' Hc _ IH]; [constructor|].
    apply (MStarS (Class p) [c] s'); [by constructor | done].
Qed.

Lemma plus_class (p : Z → bool) s :
  Matches (Plus (Class p)) s ↔ s ≠ [] ∧ Forall (fun c => p c = true) s.
Proof.
  unfold Plus. rewrite cat_inv. split.
  - intros (s1 & s2 & -> & H1 & H2). apply class_inv in H1 as (c & -> & Hc).
    apply star_class in H2. split; [done | by constructor].
  - intros [Hne Hall]. destruct Hall as [|c s' Hc Hs]; [done|].
    exists [c], s'. split; [done|]. split; [by constructor | by apply star_class].
Qed.

Lemma one_char a s : Matches (Class (isChar a)) s ↔ s = [Js.unit a].
Proof.
  rewrite class_inv. unfold isChar. split.
  - intros (c & -> & Hc). apply Z.eqb_eq in Hc. by subst.
  - intros ->. exists (Js.unit a). split; [done | apply Z.eqb_refl].
Qed.

(** The pattern of the two scripts describes the
    [local@domain.tld] shape. *)
Theorem emailPattern_spec s : test emailPattern s = true ↔ emailShape s.
Proof.
  rewrite test_spec. unfold emailPattern, emailShape, plain. split.
  - intros H.
    apply cat_inv in H as (l & s1 & -> & Hl & H).
    apply cat_inv in H as (a & s2 & -> & Ha & H).
    apply cat_inv in H as (d & s3 & -> & Hd & H).
    apply cat_inv in H as (b & t & -> & Hb & Ht).
    apply one_char in Ha as ->, Hb as ->.
    apply plus_class in Hl, Hd, Ht. by exists l, d, t.
  - intros (l & d & t & -> & Hl & Hd & Ht).
    apply plus_class in Hl, Hd, Ht.
    repeat (constructor; try done); by apply one_char.
Qed.

Example email_accepted :
  test emailPattern (Js.lit "jane@example.com") = true
  ∧ test emailPattern (Js.lit "j.doe@mail.example.org") = true.
Proof. by vm_compute. Qed.

Example email_refused :
  test emailPattern (Js.lit "a@b") = false
  ∧ test emailPattern (Js.lit "jane doe@example.com") = false
  ∧ test emailPattern (Js.lit "jane@@example.com") = false
  ∧ test emailPattern (Js.lit "@example.com") = false
  ∧ test emailPattern [] = false.
Proof. by vm_compute. Qed.

End RegexFacts.

Module JsFacts.
Import Js.

Implicit Types (s : jsstring) (c : Z).

Local Abbreviation spaces := (Forall (fun c => isWhiteSpace c = true)).

Lemma trimStart_nil s : trimStart s = [] ↔ spaces s.
Proof.
  induction s as [|c s IH]; simpl.
  - split; [constructor | done].
  - destruct (isWhiteSpace c) eqn:E.
    + rewrite IH. split; [by constructor | by inversion 1].
    + split; [done | inversion 1; congruence].
Qed.

Lemma trimStart_spaces s : spaces (trimStart s) ↔ spaces s.
Proof.
  induction s as [|c s IH]; simpl; [done|].
  destruct (isWhiteSpace c) eqn:E; [|done].
  rewrite IH. split; [by constructor | by inversion 1].
Qed.

(** [trim] leaves nothing exactly when the string is white space
    throughout. *)
Lemma trim_nil s : trim s = [] ↔ spaces s.
Proof.
  unfold trim, trimEnd.
  rewrite <- trimStart_spaces, <- (Forall_reverse _ (trimStart s)), <- trimStart_nil.
  split.
  - intros H. apply (f_equal reverse) in H. by rewrite reverse_involutive in H.
  - by intros ->.
Qed.

Example trim_both_ends :
  trim ([32; 9] ++ lit "Jane Doe" ++ [160; 10; 32])%Z = lit "Jane Doe".
Proof. reflexivity. Qed.

End JsFacts.

Module UriFacts.
Import Uri.

Implicit Types (s a b : Js.jsstring) (c : Z).

(** Turn boolean range tests in the hypotheses into arithmetic. *)
Ltac ranges :=
  repeat match goal with
  | H : (_ || _) = true |- _ => apply orb_true_iff in H as [H|H]
  | H : (_ && _) = true |- _ => apply andb_true_iff in H as [? ?]
  | H : (_ <=? _)%Z = true |- _ => apply Z.leb_le in H
  | H : (_ =? _)%Z = true |- _ => apply Z.eqb_eq in H
  end.

Lemma unreserved_not_surrogate c :
  isUnreserved c = true → isLeadSurrogate c = false ∧ isTrailSurrogate c = false.
Proof.
  intros H. split.
  - destruct (isLeadSurrogate c) eqn:E; [exfalso|done].
    unfold isUnreserved, isLeadSurrogate in *. ranges; lia.
  - destruct (isTrailSurrogate c) eqn:E; [exfalso|done].
    unfold isUnreserved, isTrailSurrogate in *. ranges; lia.
Qed.

(** The encoder reads one or two units at a time; the cases of its
    body, each with what is left to encode. *)
Lemma encode_cons c r :
  encodeURIComponent (c :: r)
  = if isUnreserved c then cons c <$> encodeURIComponent r
    else if isLeadSurrogate c then
      match r with
      | d :: r' =>
          if isTrailSurrogate d
          then app (escape (codePoint c d)) <$> encodeURIComponent r'
          else None
      | [] => None
      end
    else if isTrailSurrogate c then None
    else app (escape c) <$> encodeURIComponent r.
Proof. reflexivity. Qed.

Lemma wellFormed_cons c r :
  wellFormed (c :: r)
  = if isLeadSurrogate c then
      match r with
      | d :: r' => isTrailSurrogate d && wellFormed r'
      | [] => false
      end
    else negb (isTrailSurrogate c) && wellFormed r.
Proof. reflexivity. Qed.

(** Encoding distributes over concatenation when both parts encode. *)
Lemma encode_app a b ea eb :
  encodeURIComponent a = Some ea → encodeURIComponent b = Some eb →
  encodeURIComponent (a ++ b) = Some (ea ++ eb).
Proof.
  intros Ha Hb. revert ea Ha.
  induction a as [a IH] using (induction_ltof1 _ (@List.length Z)).
  unfold ltof in IH. intros ea Ha. destruct a as [|c r]; simpl app.
  - by injection Ha as <-.
  - rewrite encode_cons in *. destruct (isUnreserved c).
    + apply fmap_Some in Ha as (er & Hr & ->).
      rewrite (IH r ltac:(simpl; lia) er Hr). done.
    + destruct (isLeadSurrogate c).
      * destruct r as [|d r']; [done|]. cbn [app].
        destruct (isTrailSurrogate d); [|done].
        apply fmap_Some in Ha as (er & Hr & ->).
        rewrite (IH r' ltac:(simpl; lia) er Hr). simpl. by rewrite app_assoc.
      * destruct (isTrailSurrogate c); [done|].
        apply fmap_Some in Ha as (er & Hr & ->).
        rewrite (IH r ltac:(simpl; lia) er Hr). simpl. by rewrite app_assoc.
Qed.

(** The encoder throws exactly on strings with an unpaired surrogate. *)
Lemma encode_wellFormed s : is_Some (encodeURIComponent s) ↔ wellFormed s = true.
Proof.
  induction s as [s IH] using (induction_ltof1 _ (@List.length Z)).
  unfold ltof in IH. destruct s as [|c r]; [by split; [|eexists]|].
  rewrite encode_cons, wellFormed_cons.
  destruct (isUnreserved c) eqn:Eu.
  - destruct (unreserved_not_surrogate c Eu) as [-> ->]. simpl.
    rewrite fmap_is_Some. apply IH. simpl; lia.
  - destruct (isLeadSurrogate c) eqn:El.
    + destruct r as [|d r']; [by split; [intros []|]|].
      destruct (isTrailSurrogate d); simpl.
      * rewrite fmap_is_Some. apply IH. simpl; lia.
      * by split; [intros []|].
    + destruct (isTrailSurrogate c); simpl.
      * by split; [intros []|].
      * rewrite fmap_is_Some. apply IH. simpl; lia.
Qed.

Lemma wellFormed_app a b :
  wellFormed a = true → wellFormed b = true → wellFormed (a ++ b) = true.
Proof.
  intros Ha Hb. apply encode_wellFormed in Ha as [ea Ha], Hb as [eb Hb].
  apply encode_wellFormed. rewrite (encode_app a b ea eb Ha Hb). by eexists.
Qed.

Lemma hexDigit_unreserved n : isUnreserved (hexDigit n) = true.
Proof.
  unfold hexDigit.
  assert (H : (0 ≤ Z.land n 15 < 16)%Z).
  { change 15%Z with (Z.ones 4). rewrite Z.land_ones by lia.
    apply Z.mod_pos_bound. lia. }
  set (k := Z.land n 15) in *. clearbody k. simpl.
  unfold isUnreserved. destruct (k <? 10)%Z eqn:E.
  - apply Z.ltb_lt in E.
    assert (((48 <=? 48 + k) && (48 + k <=? 57))%Z = true) as ->
      by (apply andb_true_iff; split; apply Z.leb_le; lia).
    by rewrite orb_true_r.
  - apply Z.ltb_ge in E.
    assert (((65 <=? 55 + k) && (55 + k <=? 90))%Z = true) as ->
      by (apply andb_true_iff; split; apply Z.leb_le; lia).
    done.
Qed.

Lemma escape_safe cp : Forall (fun c => isSafe c = true) (escape cp).
Proof.
  unfold escape, utf8.
  repeat (destruct (_ <? _)%Z); simpl;
    repeat constructor; unfold isSafe; by rewrite hexDigit_unreserved.
Qed.

(** An encoded component holds nothing but unreserved characters and
    [%XX] escapes, so no [&], [=], [?], [#] or space can come out. *)
Lemma encode_safe s e :
  encodeURIComponent s = Some e → Forall (fun c => isSafe c = true) e.
Proof.
  revert e. induction s as [s IH] using (induction_ltof1 _ (@List.length Z)).
  unfold ltof in IH. intros e He. destruct s as [|c r].
  - injection He as <-. constructor.
  - rewrite encode_cons in He. destruct (isUnreserved c) eqn:Eu.
    + apply fmap_Some in He as (er & Hr & ->).
      constructor; [unfold isSafe; by rewrite Eu | apply (IH r); [simpl; lia | done]].
    + destruct (isLeadSurrogate c).
      * destruct r as [|d r']; [done|]. destruct (isTrailSurrogate d); [|done].
        apply fmap_Some in He as (er & Hr & ->).
        apply Forall_app. split; [apply escape_safe | apply (IH r'); [simpl; lia | done]].
      * destruct (isTrailSurrogate c); [done|].
        apply fmap_Some in He as (er & Hr & ->).
        apply Forall_app. split; [apply escape_safe | apply (IH r); [simpl; lia | done]].
Qed.

(** Text of the source is plain ASCII and always encodes. *)
Lemma lit_wellFormed t : wellFormed (Js.lit t) = true.
Proof.
  induction t as [|ch t IH]; [done|]. simpl Js.lit. rewrite wellFormed_cons.
  assert (H : (0 ≤ Js.unit ch < 256)%Z).
  { unfold Js.unit. pose proof (N_ascii_bounded ch). lia. }
  assert (Hl : isLeadSurrogate (Js.unit ch) = false).
  { unfold isLeadSurrogate. apply andb_false_iff. left. apply Z.leb_gt. lia. }
  assert (Ht : isTrailSurrogate (Js.unit ch) = false).
  { unfold isTrailSurrogate. apply andb_false_iff. left. apply Z.leb_gt. lia. }
  by rewrite Hl, Ht, IH.
Qed.

(** None of the characters that structure a [mailto:] address
    ([&], [=], [?], [#], space) is among the safe ones. *)
Lemma safe_not_delimiter c :
  isSafe c = true → c ∉ [38; 61; 63; 35; 32]%Z.
Proof.
  intros H Hin. unfold isSafe, isUnreserved in H.
  repeat (apply elem_of_cons in Hin as [->|Hin]; [discriminate|]).
  by apply elem_of_nil in Hin.
Qed.

Example encode_reserved :
  encodeURIComponent (Js.lit "R&D = 100% ?") = Some (Js.lit "R%26D%20%3D%20100%25%20%3F").
Proof. reflexivity. Qed.

(** e-acute, the euro sign, and an emoji written as a surrogate pair. *)
Example encode_beyond_ascii :
  encodeURIComponent [233; 8364; 55357; 56832]%Z
  = Some (Js.lit "%C3%A9%E2%82%AC%F0%9F%98%80").
Proof. reflexivity. Qed.

Example encode_unpaired : encodeURIComponent [72; 105; 56832]%Z = None.
Proof. reflexivity. Qed.

End UriFacts.

(** ** Contact form *)

Module ContactFacts.
Import TopnavBackup.Contact.

Implicit Types (s : t) (f : option field).

#[local] Arguments Uri.encodeURIComponent : simpl never.
#[local] Arguments Js.trim : simpl never.
#[local] Arguments Js.lit : simpl never.
#[local] Arguments Regex.test : simpl never.
#[local] Arguments subjectText : simpl never.
#[local] Arguments bodyText : simpl never.
#[local] Arguments mailtoLink : simpl never.

(** The listener, with its first decision singled out. *)
Lemma submit_eq s :
  submit s
  = if passes s then
      let name := default [] (trimmed (nameField s)) in
      let email := default [] (trimmed (emailField s)) in
      let message := default [] (trimmed (messageField s)) in
      match Uri.encodeURIComponent (subjectText name) with
      | None => Threw true s
      | Some subject =>
          match Uri.encodeURIComponent (bodyText name email message) with
          | None => Threw true s
          | Some body =>
              Returned true
                (reset (showAlert
                   "Thank you for your message! Your email client should open shortly."
                   "success" (setHref (mailtoLink subject body) s)))
          end
      end
    else
      Returned true
        (showAlert
           (snd (validate (trimmed (nameField s)) (trimmed (emailField s))
                          (trimmed (messageField s))))
           "error" s).
Proof.
  unfold submit, passes. by destruct (validate _ _ _) as [[] message].
Qed.

Lemma shape_nonempty v : Regex.emailShape v → v ≠ [].
Proof.
  intros (l & d & x & -> & [Hl _] & _) H. apply app_eq_nil in H as [-> _]. done.
Qed.

Lemma missingOrShorter_false f n :
  (1 ≤ n)%Z → missingOrShorter (trimmed f) n = false ↔ atLeast n f.
Proof.
  intros Hn. destruct f as [f|]; simpl; [|by split].
  rewrite orb_false_iff, negb_false_iff, Z.ltb_ge. split; [tauto|].
  intros H. split; [|done].
  destruct (Js.trim (value f)) eqn:E; [|done].
  unfold Js.length in H. simpl in H. lia.
Qed.

Lemma missingOrMalformed_false f :
  missingOrMalformed (trimmed f) = false ↔ wellShaped f.
Proof.
  destruct f as [f|]; simpl; [|by split].
  rewrite orb_false_iff, !negb_false_iff, RegexFacts.emailPattern_spec.
  split; [tauto|]. intros H. split; [|done].
  apply shape_nonempty in H. by destruct (Js.trim (value f)).
Qed.

Lemma blank_missing f n : blank f → missingOrShorter (trimmed f) n = true.
Proof.
  destruct f as [f|]; simpl; [|done].
  intros H. apply JsFacts.trim_nil in H. by rewrite H.
Qed.

(** What gets a submission past the three checks. *)
Lemma passes_spec s :
  passes s = true ↔
  atLeast 2 (nameField s) ∧ wellShaped (emailField s) ∧ atLeast 10 (messageField s).
Proof.
  rewrite <- !missingOrShorter_false, <- missingOrMalformed_false by lia.
  unfold passes, validate.
  destruct (missingOrShorter (trimmed (nameField s)) 2),
           (missingOrMalformed (trimmed (emailField s))),
           (missingOrShorter (trimmed (messageField s)) 10); simpl;
    split; try done; intros (? & ? & ?); done.
Qed.

Lemma submit_failing s :
  passes s = false →
  ∃ message, submit s = Returned true (showAlert message "error" s).
Proof.
  intros H. rewrite submit_eq, H. by eexists.
Qed.

Lemma submit_passing s :
  passes s = true →
  submit s = Threw true s
  ∨ ∃ subject body,
      submit s = Returned true
        (reset (showAlert
           "Thank you for your message! Your email client should open shortly."
           "success" (setHref (mailtoLink subject body) s))).
Proof.
  intros H. rewrite submit_eq, H. cbv zeta.
  destruct (Uri.encodeURIComponent (subjectText _)) as [subject|]; [|by left].
  destruct (Uri.encodeURIComponent (bodyText _ _ _)) as [body|]; [|by left].
  right. by exists subject, body.
Qed.

(** The refusal path is taken exactly when a check fails. *)
Lemma rejected_iff s : rejected s ↔ passes s = false.
Proof.
  split; [|apply submit_failing].
  intros [message H]. destruct (passes s) eqn:E; [exfalso|done].
  destruct (submit_passing s E) as [Ht|(subject & body & Hr)]; [congruence|].
  rewrite Hr in H. apply (f_equal (fun o => alerts (stateOf o))) in H. simpl in H.
  apply app_inj_tail in H as [_ H]. discriminate.
Qed.

Lemma showAlert_error message s :
  errorShown (showAlert message "error" s)
  ∧ href (showAlert message "error" s) = href s
  ∧ entered (showAlert message "error" s) = entered s.
Proof.
  split; [|done]. unfold errorShown, showAlert. cbn [alerts timers].
  eexists. split; [apply last_snoc|]. repeat split.
  apply elem_of_app. right. apply list_elem_of_here.
Qed.

(** The checks of [initContactForm]: a submission with a blank name,
    e-mail or message, or whose e-mail lacks the [local@domain.tld]
    shape, is refused; a refusal cancels the submission and shows an
    error notice while the address of the page and the values entered
    stay as they were; and a submission passes the checks exactly
    when, after trimming, the name has at least 2 code units, the
    message at least 10, and the e-mail has that shape. *)
Lemma checks_topnav s :
  (blank (nameField s) ∨ blank (emailField s) ∨ blank (messageField s)
   ∨ ¬ wellShaped (emailField s) → rejected s)
  ∧ (rejected s →
     prevented (submit s) = true
     ∧ errorShown (stateOf (submit s))
     ∧ href (stateOf (submit s)) = href s
     ∧ entered (stateOf (submit s)) = entered s)
  ∧ (passes s = true ↔
     atLeast 2 (nameField s) ∧ wellShaped (emailField s)
     ∧ atLeast 10 (messageField s))
  ∧ (rejected s ↔ passes s = false).
Proof.
  split; [|split; [|split; [apply passes_spec | apply rejected_iff]]].
  - intros H. apply rejected_iff. apply not_true_is_false. rewrite passes_spec.
    intros (Hn & He & Hm).
    destruct H as [H|[H|[H|H]]]; [| | |done].
    + apply (blank_missing _ 2) in H. apply missingOrShorter_false in Hn; [congruence|lia].
    + destruct (emailField s) as [f|]; [|done]. simpl in H, He.
      apply JsFacts.trim_nil in H. apply shape_nonempty in He. done.
    + apply (blank_missing _ 10) in H. apply missingOrShorter_false in Hm; [congruence|lia].
  - intros [message H]. rewrite H. simpl.
    destruct (showAlert_error message s) as (H1 & H2 & H3). done.
Qed.

(** C4, refuted as stated: all three fields are filled in and the
    e-mail has the shape, yet the submission is refused, because the
    name is shorter than 2 and the message shorter than 10. *)
Lemma short_entries_refused :
  let s := Mk (Some (Field (Js.lit "J") []))
              (Some (Field (Js.lit "jane@example.com") []))
              (Some (Field (Js.lit "Hi there") []))
              (Js.lit "https://mueez21.github.io/") [] [] 0 in
  ¬ blank (nameField s) ∧ ¬ blank (emailField s) ∧ ¬ blank (messageField s)
  ∧ wellShaped (emailField s)
  ∧ rejected s
  ∧ ¬ accepted s.
Proof.
  intros s.
  assert (Hr : rejected s)
    by (exists "Please enter a message (at least 10 characters)."; reflexivity).
  repeat split; try exact Hr.
  - intros H. apply JsFacts.trim_nil in H. vm_compute in H. discriminate.
  - intros H. apply JsFacts.trim_nil in H. vm_compute in H. discriminate.
  - intros H. apply JsFacts.trim_nil in H. vm_compute in H. discriminate.
  - apply RegexFacts.emailPattern_spec. by vm_compute.
  - intros (subject & body & H).
    apply (f_equal (fun o => alerts (stateOf o))) in H. vm_compute in H.
    discriminate.
Qed.

(** A well-formed part encodes, and its encoding is a prefix of the
    encoding of anything it starts. *)
Lemma encode_prefix a b eb :
  Uri.wellFormed a = true → Uri.encodeURIComponent b = Some eb →
  ∃ ea, Uri.encodeURIComponent a = Some ea
        ∧ Uri.encodeURIComponent (a ++ b) = Some (ea ++ eb).
Proof.
  intros Ha Hb. apply UriFacts.encode_wellFormed in Ha as [ea Ha].
  exists ea. split; [done | by apply UriFacts.encode_app].
Qed.

(** C5, as the code has it: for every submission that passes the
    checks and whose trimmed values hold no unpaired surrogate, the
    listener hands the mail client a link whose subject carries the
    percent-encoded name and whose body carries the percent-encoded
    name, e-mail and message, both made of unreserved characters and
    [%XX] escapes only; the success notice is up and set to fade; and
    the fields are cleared, each back at the value the markup presets
    (none, as a rule). *)
Theorem submit_sends s n e m :
  passes s = true →
  trimmed (nameField s) = Some n → trimmed (emailField s) = Some e →
  trimmed (messageField s) = Some m →
  Uri.wellFormed n = true → Uri.wellFormed e = true → Uri.wellFormed m = true →
  ∃ en ee em subject body,
    Uri.encodeURIComponent n = Some en
    ∧ Uri.encodeURIComponent e = Some ee
    ∧ Uri.encodeURIComponent m = Some em
    ∧ occursIn en subject
    ∧ occursIn en body ∧ occursIn ee body ∧ occursIn em body
    ∧ Forall (fun c => Uri.isSafe c = true) subject
    ∧ Forall (fun c => Uri.isSafe c = true) body
    ∧ submit s = Returned true
        (reset (showAlert
           "Thank you for your message! Your email client should open shortly."
           "success" (setHref (mailtoLink subject body) s)))
    ∧ href (stateOf (submit s))
      = recipient ++ Js.lit "?subject=" ++ subject ++ Js.lit "&body=" ++ body
    ∧ successShown (stateOf (submit s))
    ∧ entered (stateOf (submit s)) = defaults s.
Proof.
  intros Hp Hn He Hm Wn We Wm.
  destruct (proj2 (UriFacts.encode_wellFormed n) Wn) as [en En].
  destruct (proj2 (UriFacts.encode_wellFormed e) We) as [ee Ee].
  destruct (proj2 (UriFacts.encode_wellFormed m) Wm) as [em Em].
  (* the subject *)
  destruct (encode_prefix (Js.lit "Portfolio Contact from ") n en
              (UriFacts.lit_wellFormed _) En) as (p0 & _ & Hsubject).
  (* the body, from its end *)
  destruct (encode_prefix [10%Z] m em eq_refl Em) as (p6 & _ & H6).
  destruct (encode_prefix (Js.lit "Message:") _ _ (UriFacts.lit_wellFormed _) H6)
    as (p5 & _ & H5).
  destruct (encode_prefix [10%Z; 10%Z] _ _ eq_refl H5) as (p4 & _ & H4).
  pose proof (UriFacts.encode_app e _ ee _ Ee H4) as H4e.
  destruct (encode_prefix (Js.lit "Email: ") _ _ (UriFacts.lit_wellFormed _) H4e)
    as (p3 & _ & H3).
  destruct (encode_prefix [10%Z] _ _ eq_refl H3) as (p2 & _ & H2).
  pose proof (UriFacts.encode_app n _ en _ En H2) as H2n.
  destruct (encode_prefix (Js.lit "Name: ") _ _ (UriFacts.lit_wellFormed _) H2n)
    as (p1 & _ & Hbody).
  change (Uri.encodeURIComponent (subjectText n) = Some (p0 ++ en)) in Hsubject.
  change (Uri.encodeURIComponent (bodyText n e m)
          = Some (p1 ++ en ++ p2 ++ p3 ++ ee ++ p4 ++ p5 ++ p6 ++ em)) in Hbody.
  exists en, ee, em, (p0 ++ en), (p1 ++ en ++ p2 ++ p3 ++ ee ++ p4 ++ p5 ++ p6 ++ em).
  assert (Hs : submit s = Returned true
            (reset (showAlert
               "Thank you for your message! Your email client should open shortly."
               "success"
               (setHref (mailtoLink (p0 ++ en)
                           (p1 ++ en ++ p2 ++ p3 ++ ee ++ p4 ++ p5 ++ p6 ++ em)) s)))).
  { rewrite submit_eq, Hp, Hn, He, Hm. cbv zeta. cbn [default from_option id].
    by rewrite Hsubject, Hbody. }
  do 3 (split; [done|]).
  split; [exists p0, []; by rewrite app_nil_r|].
  split; [by exists p1, (p2 ++ p3 ++ ee ++ p4 ++ p5 ++ p6 ++ em)|].
  split; [exists (p1 ++ en ++ p2 ++ p3), (p4 ++ p5 ++ p6 ++ em); by rewrite <- !app_assoc|].
  split; [exists (p1 ++ en ++ p2 ++ p3 ++ ee ++ p4 ++ p5 ++ p6), [];
          by rewrite <- !app_assoc, app_nil_r|].
  split; [by eapply UriFacts.encode_safe|]. split; [by eapply UriFacts.encode_safe|].
  split; [done|]. rewrite Hs. cbn [stateOf]. split; [done|]. split.
  - unfold successShown, reset, showAlert. cbn [alerts timers].
    eexists. split; [apply last_snoc|]. repeat split.
    apply elem_of_app. right. apply list_elem_of_here.
  - unfold entered, defaults, reset, showAlert, setHref.
    cbn [nameField emailField messageField].
    by destruct (nameField s), (emailField s), (messageField s).
Qed.

(** The valid submission of the specification, worked out: the link
    that opens the mail client. *)
Lemma submit_jane :
  let s := Mk (Some (Field (Js.lit "Jane") []))
              (Some (Field (Js.lit "jane@example.com") []))
              (Some (Field (Js.lit "Hello there, loved your work!") []))
              (Js.lit "https://mueez21.github.io/") [] [] 0 in
  href (stateOf (submit s))
  = Js.lit ("mailto:mueezmejbah284@gmail.com"
            +:+ "?subject=Portfolio%20Contact%20from%20Jane"
            +:+ "&body=Name%3A%20Jane%0AEmail%3A%20jane%40example.com"
            +:+ "%0A%0AMessage%3A%0AHello%20there%2C%20loved%20your%20work!")
  ∧ entered (stateOf (submit s)) = [Some []; Some []; Some []].
Proof. by vm_compute. Qed.

(** The valid submission of the specification goes through. *)
Lemma submit_sends_witness :
  let s := Mk (Some (Field (Js.lit "Jane") []))
              (Some (Field (Js.lit "jane@example.com") []))
              (Some (Field (Js.lit "Hello there, loved your work!") []))
              (Js.lit "https://mueez21.github.io/") [] [] 0 in
  ∃ en ee em subject body,
    Uri.encodeURIComponent (Js.lit "Jane") = Some en
    ∧ Uri.encodeURIComponent (Js.lit "jane@example.com") = Some ee
    ∧ Uri.encodeURIComponent (Js.lit "Hello there, loved your work!") = Some em
    ∧ occursIn en subject
    ∧ occursIn en body ∧ occursIn ee body ∧ occursIn em body
    ∧ href (stateOf (submit s))
      = recipient ++ Js.lit "?subject=" ++ subject ++ Js.lit "&body=" ++ body
    ∧ successShown (stateOf (submit s))
    ∧ entered (stateOf (submit s)) = [Some []; Some []; Some []].
Proof.
  intros s.
  assert (Hp : passes s = true) by (vm_compute; reflexivity).
  assert (Hn : trimmed (nameField s) = Some (Js.lit "Jane"))
    by (vm_compute; reflexivity).
  assert (He : trimmed (emailField s) = Some (Js.lit "jane@example.com"))
    by (vm_compute; reflexivity).
  assert (Hm : trimmed (messageField s) = Some (Js.lit "Hello there, loved your work!"))
    by (vm_compute; reflexivity).
  destruct (submit_sends s _ _ _ Hp Hn He Hm
              (UriFacts.lit_wellFormed _) (UriFacts.lit_wellFormed _)
              (UriFacts.lit_wellFormed _))
    as (en & ee & em & subject & body
        & H1 & H2 & H3 & H4 & H5 & H6 & H7 & _ & _ & _ & H8 & H9 & H10).
  exists en, ee, em, subject, body.
  repeat (split; [assumption|]). assumption.
Defined.

(** C5, refuted as stated: the message ends in an unpaired
    surrogate; the submission passes the three checks,
    [encodeURIComponent] throws on the body, and the listener is left
    with nothing done: the address of the page is unchanged, no notice
    is shown and the fields keep their values. *)
Lemma submit_unpaired_surrogate :
  let s := Mk (Some (Field (Js.lit "Jane") []))
              (Some (Field (Js.lit "jane@example.com") []))
              (Some (Field (Js.lit "Hello there " ++ [55357%Z]) []))
              (Js.lit "https://mueez21.github.io/") [] [] 0 in
  passes s = true
  ∧ submit s = Threw true s
  ∧ ¬ accepted s.
Proof.
  intros s.
  assert (Ht : submit s = Threw true s) by (by vm_compute).
  split; [by vm_compute|]. split; [exact Ht|].
  intros (subject & body & H). congruence.
Qed.

(** Text the user can type and that fails the well-formedness test is
    what makes the encoder throw, and nothing else does. *)
Lemma submit_throws_iff s :
  passes s = true →
  submit s = Threw true s ↔
  Uri.wellFormed
    (bodyText (default [] (trimmed (nameField s)))
              (default [] (trimmed (emailField s)))
              (default [] (trimmed (messageField s)))) = false
  ∨ Uri.wellFormed (subjectText (default [] (trimmed (nameField s)))) = false.
Proof.
  intros Hp. rewrite submit_eq, Hp. cbv zeta.
  rewrite <- !not_true_iff_false, <- !UriFacts.encode_wellFormed.
  destruct (Uri.encodeURIComponent (subjectText _)) as [subject|].
  - destruct (Uri.encodeURIComponent (bodyText _ _ _)) as [body|].
    + split; [discriminate|]. intros [H|H]; exfalso; apply H; by eexists.
    + split; [|done]. intros _. left. by intros [].
  - split; [|done]. intros _. right. by intros [].
Qed.

(** The notice is transient: the two timers take it away again. *)
Lemma notice_goes_away message type s :
  alerts s = [] → timers s = [] →
  alerts (tick (tick (showAlert message type s))) = [].
Proof.
  intros Ha Ht. unfold showAlert, tick. rewrite Ha, Ht. simpl.
  rewrite Nat.eqb_refl. simpl. rewrite filter_cons_False; [done|].
  simpl. intros H. by apply H.
Qed.

End ContactFacts.

Module ContactNewFacts.
Import ScriptNew.Contact.

#[local] Arguments Js.trim : simpl never.
#[local] Arguments Regex.test : simpl never.

(** In [script_new.js] the listener lets a submission through exactly
    when the three trimmed values are non-empty and the e-mail has the
    shape; there is no minimum length. *)
Lemma submit_new_spec f :
  defaultPrevented (submit f) = false ↔
  Js.trim (name f) ≠ [] ∧ Js.trim (message f) ≠ []
  ∧ Regex.emailShape (Js.trim (email f)).
Proof.
  rewrite <- RegexFacts.emailPattern_spec.
  assert (Hd : defaultPrevented (submit f)
               = negb (Js.truthy (Js.trim (name f)) && Js.truthy (Js.trim (message f))
                       && Regex.test Regex.emailPattern (Js.trim (email f)))).
  { unfold submit.
    destruct (Js.trim (email f)) as [|c e].
    - change (Regex.test Regex.emailPattern []) with false.
      by destruct (Js.truthy (Js.trim (name f))), (Js.truthy (Js.trim (message f))).
    - by destruct (Js.truthy (Js.trim (name f))), (Js.truthy (Js.trim (message f))),
                  (Regex.test Regex.emailPattern (c :: e)). }
  rewrite Hd, negb_false_iff, !andb_true_iff.
  assert (Ht : ∀ v, Js.truthy v = true ↔ v ≠ []) by (by intros []).
  rewrite !Ht. tauto.
Qed.

(** The listener either cancels and alerts, or does neither. *)
Lemma submit_new_alerts f :
  (defaultPrevented (submit f) = true ∧ is_Some (alerted (submit f)))
  ∨ submit f = Result false None.
Proof.
  unfold submit. repeat case_match; try (by right); left; by eauto.
Qed.

Local Abbreviation spaces := (Forall (fun c => Js.isWhiteSpace c = true)).

(** C4, as the code has it.  In [initContactForm] a submission with a
    blank name, e-mail or message, or whose trimmed e-mail lacks the
    [local@domain.tld] shape, is refused; a refusal cancels the
    submission and shows an error notice while the address of the page
    and the values entered stay as they were; and a submission passes
    the checks exactly when, after trimming, the name has at least 2
    code units, the message at least 10, and the e-mail has that
    shape.  In the listener of [script_new.js] such a submission is
    cancelled and an alert box names the error; and a submission goes
    through, with no alert, exactly when none of the three values is
    blank and the trimmed e-mail has that shape: there is no minimum
    length. *)
Theorem validation s f :
  ((TopnavBackup.Contact.blank (TopnavBackup.Contact.nameField s)
    ∨ TopnavBackup.Contact.blank (TopnavBackup.Contact.emailField s)
    ∨ TopnavBackup.Contact.blank (TopnavBackup.Contact.messageField s)
    ∨ ¬ TopnavBackup.Contact.wellShaped (TopnavBackup.Contact.emailField s) →
    TopnavBackup.Contact.rejected s)
   ∧ (TopnavBackup.Contact.rejected s →
      TopnavBackup.Contact.prevented (TopnavBackup.Contact.submit s) = true
      ∧ TopnavBackup.Contact.errorShown
          (TopnavBackup.Contact.stateOf (TopnavBackup.Contact.submit s))
      ∧ TopnavBackup.Contact.href
          (TopnavBackup.Contact.stateOf (TopnavBackup.Contact.submit s))
        = TopnavBackup.Contact.href s
      ∧ TopnavBackup.Contact.entered
          (TopnavBackup.Contact.stateOf (TopnavBackup.Contact.submit s))
        = TopnavBackup.Contact.entered s)
   ∧ (TopnavBackup.Contact.passes s = true ↔
      TopnavBackup.Contact.atLeast 2 (TopnavBackup.Contact.nameField s)
      ∧ TopnavBackup.Contact.wellShaped (TopnavBackup.Contact.emailField s)
      ∧ TopnavBackup.Contact.atLeast 10 (TopnavBackup.Contact.messageField s))
   ∧ (TopnavBackup.Contact.rejected s ↔ TopnavBackup.Contact.passes s = false))
  ∧ ((spaces (name f) ∨ spaces (email f) ∨ spaces (message f)
      ∨ ¬ Regex.emailShape (Js.trim (email f)) →
      defaultPrevented (submit f) = true ∧ is_Some (alerted (submit f)))
     ∧ (submit f = Result false None ↔
        ¬ spaces (name f) ∧ ¬ spaces (email f) ∧ ¬ spaces (message f)
        ∧ Regex.emailShape (Js.trim (email f)))).
Proof.
  split; [apply ContactFacts.checks_topnav|].
  assert (Hpass : submit f = Result false None ↔
                  ¬ spaces (name f) ∧ ¬ spaces (email f) ∧ ¬ spaces (message f)
                  ∧ Regex.emailShape (Js.trim (email f))).
  { rewrite <- !JsFacts.trim_nil. split.
    - intros H. assert (Hd : defaultPrevented (submit f) = false) by by rewrite H.
      apply submit_new_spec in Hd as (Hn & Hm & He). repeat split; try done.
      intros H0. rewrite H0 in He. by apply ContactFacts.shape_nonempty in He.
    - intros (Hn & _ & Hm & He).
      destruct (submit_new_alerts f) as [[Hd _]|Hr]; [|done].
      assert (defaultPrevented (submit f) = false); [|congruence].
      by apply submit_new_spec. }
  split; [|exact Hpass].
  intros H. destruct (submit_new_alerts f) as [Hd|Hr]; [done|].
  apply Hpass in Hr as (Hn & He & Hm & Hs). tauto.
Qed.

(** The address ['a@b'] of the specification, with a name and a
    message that pass: no dot after the [@], so both listeners refuse
    it. *)
Lemma validation_witness :
  let s := TopnavBackup.Contact.Mk
             (Some (TopnavBackup.Contact.Field (Js.lit "Jane") []))
             (Some (TopnavBackup.Contact.Field (Js.lit "a@b") []))
             (Some (TopnavBackup.Contact.Field (Js.lit "Hello there, loved your work!") []))
             (Js.lit "https://mueez21.github.io/") [] [] 0 in
  let f := Form (Js.lit "Jane") (Js.lit "a@b") (Js.lit "Hello there, loved your work!") in
  TopnavBackup.Contact.rejected s
  ∧ TopnavBackup.Contact.entered
      (TopnavBackup.Contact.stateOf (TopnavBackup.Contact.submit s))
    = TopnavBackup.Contact.entered s
  ∧ defaultPrevented (submit f) = true.
Proof.
  intros s f.
  assert (Hbad : ¬ TopnavBackup.Contact.wellShaped (TopnavBackup.Contact.emailField s)).
  { intros H. apply RegexFacts.emailPattern_spec in H. vm_compute in H. discriminate. }
  assert (Hbad' : ¬ Regex.emailShape (Js.trim (email f))).
  { intros H. apply RegexFacts.emailPattern_spec in H. vm_compute in H. discriminate. }
  destruct (validation s f) as ((Hrej & Heff & _) & Hnew & _).
  pose proof (Hrej (or_intror (or_intror (or_intror Hbad)))) as Hr.
  destruct (Heff Hr) as (_ & _ & _ & H4).
  destruct (Hnew (or_intror (or_intror (or_intror Hbad')))) as [Hd _].
  split; [exact Hr | split; [exact H4 | exact Hd]].
Defined.

End ContactNewFacts.

(** * Further properties *)

Module TimersFacts.

(** A delay of at most 2147483647 ms is taken as it is. *)
Lemma delayOf_small delay :
  (0 ≤ delay < 2 ^ 31)%Z → Timers.delayOf delay = delay.
Proof.
  intros H. unfold Timers.delayOf, Timers.toInt32.
  rewrite Z.mod_small by lia. lia.
Qed.

Lemma delayOf_nonneg delay : (0 ≤ Timers.delayOf delay)%Z.
Proof. unfold Timers.delayOf. lia. Qed.

(** From 2147483648 ms on the delay wraps around: the timer is due
    at once. *)
Example delayOf_wraps : Timers.delayOf (2 ^ 31) = 0%Z.
Proof. reflexivity. Qed.

End TimersFacts.

Module DebounceFacts.
Import Debounce.

Section Facts.
Context {A S : Type}.
Variable func : A → S → S.
Variable wait : Z.
Implicit Types (s : t A S) (ev : event A S) (evs : list (event A S)) (a : A) (w : S).

Local Abbreviation run := (run func wait).
Local Abbreviation step := (step func wait).
Local Abbreviation P s := (Timers.pending (timers s)).
Local Abbreviation delay := (Timers.delayOf wait).

Lemma run_app evs1 evs2 s : run (evs1 ++ evs2) s = run evs2 (run evs1 s).
Proof. apply fold_left_app. Qed.

Lemma elapsed_nonneg evs : (0 ≤ elapsed evs)%Z.
Proof. induction evs as [|[| | |] evs IH]; simpl; lia. Qed.

Lemma elapsed_app evs1 evs2 : elapsed (evs1 ++ evs2) = (elapsed evs1 + elapsed evs2)%Z.
Proof. induction evs1 as [|[| | |] evs1 IH]; simpl; lia. Qed.

Lemma envs_app evs1 evs2 w : envs (evs1 ++ evs2) w = envs evs2 (envs evs1 w).
Proof. apply fold_left_app. Qed.

Lemma call_state a s :
  tidy s →
  let s' := executedFunction wait a s in
  timeout s' = Some (Timers.nextId (timers s))
  ∧ P s' = {[Timers.nextId (timers s) := ((Timers.now (timers s) + delay)%Z, a)]}
  ∧ Timers.now (timers s') = Timers.now (timers s)
  ∧ world s' = world s.
Proof.
  intros Ht. unfold executedFunction, Timers.setTimeout, Timers.clearTimeout.
  destruct (timeout s) as [id0|] eqn:E; simpl; repeat split.
  - apply map_eq. intros i. destruct (decide (i = Timers.nextId (timers s))) as [->|Hne].
    + by rewrite lookup_insert_eq, lookup_singleton_eq.
    + rewrite lookup_insert_ne, lookup_singleton_ne by done.
      destruct (decide (i = id0)) as [->|Hne'].
      * by rewrite lookup_delete_eq.
      * rewrite lookup_delete_ne by done.
        destruct (P s !! i) as [x|] eqn:Ei; [|done].
        apply Ht in Ei. congruence.
  - apply map_eq. intros i. destruct (decide (i = Timers.nextId (timers s))) as [->|Hne].
    + by rewrite lookup_insert_eq, lookup_singleton_eq.
    + rewrite lookup_insert_ne, lookup_singleton_ne by done.
      destruct (P s !! i) as [x|] eqn:Ei; [|done].
      apply Ht in Ei. congruence.
Qed.

Lemma init_tidy w : tidy (init w : t A S).
Proof. intros id x H. simpl in H. by rewrite lookup_empty in H. Qed.

Lemma fire_cases id s :
  tidy s →
  (fire func id s = s)
  ∨ (∃ time a, P s !! id = Some (time, a) ∧ (time ≤ Timers.now (timers s))%Z
       ∧ timeout s = Some id
       ∧ fire func id s
         = Mk (Some id) (Timers.Mk (Timers.now (timers s)) (Timers.nextId (timers s))
                                   (delete id (P s)))
              (func a (world s))).
Proof.
  intros Ht. unfold fire, Timers.due.
  destruct (P s !! id) as [[time a]|] eqn:E; [|by left].
  destruct (Z.leb_spec time (Timers.now (timers s))) as [Hle|Hgt]; [|by left].
  right. exists time, a. pose proof (Ht _ _ E) as Hto.
  repeat split; try done.
  unfold later, Timers.clearTimeout, Timers.take; simpl. rewrite Hto; simpl.
  by rewrite delete_delete_eq.
Qed.

Lemma step_tidy ev s : tidy s → tidy (step ev s).
Proof.
  intros Ht. destruct ev as [a|dt|id|g]; simpl; try done.
  - destruct (call_state a s Ht) as (Hto & Hp & _). intros i x Hi.
    rewrite Hp in Hi. apply lookup_singleton_Some in Hi as [<- _]. done.
  - destruct (fire_cases id s Ht) as [->|(time & a & _ & _ & Hto & ->)]; [done|].
    intros i x Hi; simpl in *.
    apply lookup_delete_Some in Hi as [Hne Hi]. apply Ht in Hi. congruence.
Qed.

Lemma run_tidy evs s : tidy s → tidy (run evs s).
Proof.
  revert s. induction evs as [|ev evs IH]; intros s Ht; [done|].
  apply IH. by apply step_tidy.
Qed.

(** X1: whatever calls, waits, timer firings and other page activity
    a debounced function has seen since [debounce] returned it, at most
    one of its timers is pending, and that one is the timer its
    [timeout] variable names. *)
Theorem debounce_one_timer evs w :
  let s := run evs (init w) in
  (size (P s) ≤ 1)%nat
  ∧ (∀ id x, P s !! id = Some x → timeout s = Some id).
Proof.
  intros s. assert (Ht : tidy s) by apply run_tidy, init_tidy.
  split; [|exact Ht].
  destruct (timeout s) as [id|] eqn:E.
  - destruct (P s !! id) as [x|] eqn:Ei.
    + assert (P s = {[id := x]}) as ->; [|by rewrite map_size_singleton].
      apply map_eq. intros i. destruct (decide (i = id)) as [->|Hne].
      * by rewrite lookup_singleton_eq.
      * rewrite lookup_singleton_ne by done.
        destruct (P s !! i) as [y|] eqn:Ey; [|done]. apply Ht in Ey. congruence.
    + assert (P s = ∅) as ->; [|by rewrite map_size_empty; lia].
      apply map_eq. intros i. rewrite lookup_empty.
      destruct (P s !! i) as [y|] eqn:Ey; [|done].
      pose proof (Ht _ _ Ey). congruence.
  - assert (P s = ∅) as ->; [|by rewrite map_size_empty; lia].
    apply map_eq. intros i. rewrite lookup_empty.
    destruct (P s !! i) as [y|] eqn:Ey; [|done].
    pose proof (Ht _ _ Ey). congruence.
Qed.

Lemma run_cons ev evs s : run (ev :: evs) s = run evs (step ev s).
Proof. done. Qed.

Lemma envs_cons ev evs w :
  envs (ev :: evs) w = envs evs (match ev with Env g => g w | _ => w end).
Proof. done. Qed.

Lemma quiet_run evs s :
  (elapsed evs < delay)%Z →
  (∀ id time a, P s !! id = Some (time, a) →
     (Timers.now (timers s) + elapsed evs < time)%Z) →
  world (run evs s) = envs evs (world s).
Proof.
  revert s. induction evs as [|ev evs IH]; intros s Hw Hp; [done|].
  pose proof (elapsed_nonneg evs) as Hnn.
  rewrite run_cons, envs_cons.
  destruct ev as [b|dt|id|g]; cbn [Debounce.step].
  - rewrite IH; [done | done |].
    intros i time a. unfold executedFunction, Timers.setTimeout; simpl.
    intros [[_ Heq]|[_ Hi]]%lookup_insert_Some.
    + simplify_eq. simpl in Hw. lia.
    + destruct (timeout s) as [id0|]; simpl in Hi.
      * apply lookup_delete_Some in Hi as [_ Hi]. by apply Hp in Hi.
      * by apply Hp in Hi.
  - simpl in Hw. rewrite IH; [done | lia |]. simpl.
    intros i time a Hi. apply Hp in Hi. simpl in Hi. lia.
  - assert (fire func id s = s) as ->; [|by apply IH].
    unfold fire, Timers.due.
    destruct (P s !! id) as [[time a]|] eqn:E; [|done].
    apply Hp in E. simpl in E.
    destruct (Z.leb_spec time (Timers.now (timers s))); [lia|done].
  - rewrite IH; [done | done |]. simpl. intros i time a Hi. by apply Hp in Hi.
Qed.

(** X2: for a [wait] that [setTimeout] takes as it is (below 2^31
    milliseconds): after any history, once the debounced function has
    been called, [func] is not invoked for as long as less than [wait]
    milliseconds have passed since that call, whatever happens in
    between (further calls, timers the browser tries to fire, other
    page activity): the world is what the other page activity alone
    made of it. *)
Theorem debounce_silent evs w a evs' :
  (wait < 2 ^ 31)%Z →
  (elapsed evs' < wait)%Z →
  let s := run evs (init w) in
  world (run (Call a :: evs') s) = envs evs' (world s).
Proof.
  intros Hr Hw s. assert (Ht : tidy s) by apply run_tidy, init_tidy.
  pose proof (elapsed_nonneg evs') as Hnn.
  assert (Hd : delay = wait) by (apply TimersFacts.delayOf_small; lia).
  rewrite <- Hd in Hw.
  rewrite run_cons. cbn [Debounce.step].
  destruct (call_state a s Ht) as (_ & Hp & Hn & Hworld).
  rewrite quiet_run; [by rewrite Hworld | done |].
  intros i time b Hi. rewrite Hp in Hi.
  apply lookup_singleton_Some in Hi as [_ Hi]. simplify_eq. rewrite Hn. lia.
Qed.

Local Abbreviation noCalls := (Forall (fun ev => isCall ev = false)).

Lemma settled_run evs s :
  noCalls evs → P s = ∅ →
  P (run evs s) = ∅ ∧ world (run evs s) = envs evs (world s).
Proof.
  revert s. induction evs as [|ev evs IH]; intros s Hc Hp; [done|].
  apply Forall_cons in Hc as [Hev Hc].
  rewrite run_cons, envs_cons.
  destruct ev as [b|dt|id|g]; cbn [Debounce.step]; try done.
  - by apply (IH (Mk (timeout s) (Timers.advance dt (timers s)) (world s))).
  - assert (fire func id s = s) as ->; [|by apply IH].
    unfold fire, Timers.due. by rewrite Hp, lookup_empty.
  - by apply (IH (Mk (timeout s) (timers s) (g (world s)))).
Qed.

Lemma pending_run evs s id time a :
  noCalls evs → timeout s = Some id → P s = {[id := (time, a)]} →
  let s' := run evs s in
  (timeout s' = Some id ∧ P s' = {[id := (time, a)]}
   ∧ Timers.now (timers s') = (Timers.now (timers s) + elapsed evs)%Z
   ∧ world s' = envs evs (world s))
  ∨ (P s' = ∅
     ∧ ∃ e1 e2, evs = e1 ++ e2 ∧ (time ≤ Timers.now (timers s) + elapsed e1)%Z
                ∧ world s' = envs e2 (func a (envs e1 (world s)))).
Proof.
  revert s. induction evs as [|ev evs IH]; intros s Hc Hto Hp; cbv zeta.
  { left. repeat split; try done. simpl. lia. }
  apply Forall_cons in Hc as [Hev Hc].
  rewrite run_cons, envs_cons.
  destruct ev as [b|dt|id'|g]; cbn [Debounce.step]; try done.
  - destruct (IH (Mk (timeout s) (Timers.advance dt (timers s)) (world s)) Hc Hto Hp)
      as [(H1 & H2 & H3 & H4)|(H1 & e1 & e2 & -> & H2 & H3)].
    + left. repeat split; try done. rewrite H3. simpl. lia.
    + right. split; [done|]. exists (Wait dt :: e1), e2. repeat split; try done.
      simpl in *. lia.
  - unfold fire, Timers.due. rewrite Hp.
    destruct (decide (id' = id)) as [->|Hne].
    + rewrite lookup_singleton_eq.
      destruct (Z.leb_spec time (Timers.now (timers s))) as [Hle|Hgt].
      * right.
        set (s1 := later func a _).
        assert (Hp1 : P s1 = ∅).
        { subst s1. unfold later, Timers.clearTimeout, Timers.take; simpl.
          rewrite Hto; simpl. by rewrite Hp, delete_singleton_eq, delete_empty. }
        destruct (settled_run evs s1 Hc Hp1) as [H1 H2].
        split; [done|]. exists [Fire id], evs.
        repeat split; try done; try (simpl; lia); try (by rewrite H2).
      * destruct (IH s Hc Hto Hp) as [(H1 & H2 & H3 & H4)|(H1 & e1 & e2 & -> & H2 & H3)].
        -- left. repeat split; done.
        -- right. split; [done|]. exists (Fire id :: e1), e2. repeat split; done.
    + rewrite lookup_singleton_ne by done.
      destruct (IH s Hc Hto Hp) as [(H1 & H2 & H3 & H4)|(H1 & e1 & e2 & -> & H2 & H3)].
      * left. repeat split; done.
      * right. split; [done|]. exists (Fire id' :: e1), e2. repeat split; done.
  - destruct (IH (Mk (timeout s) (timers s) (g (world s))) Hc Hto Hp)
      as [(H1 & H2 & H3 & H4)|(H1 & e1 & e2 & -> & H2 & H3)].
    + left. repeat split; done.
    + right. split; [done|]. exists (Env g :: e1), e2. repeat split; done.
Qed.

(** X3: for a [wait] that [setTimeout] takes as it is (from 0 to
    below 2^31 milliseconds): after any history, a call with arguments
    [a] that no further call follows leads to at most one invocation
    of [func], with [a]: either the call's timer is still the one pending, due [wait]
    milliseconds after the call, [func] has not run, and it runs with
    [a] as soon as the browser fires the timer once [wait]
    milliseconds have passed; or nothing is pending and [func] has
    run exactly once, with [a], no earlier than [wait] milliseconds
    after the call. *)
Theorem debounce_trailing evs w a evs' :
  (0 ≤ wait < 2 ^ 31)%Z →
  Forall (fun ev => isCall ev = false) evs' →
  let s := run evs (init w) in
  let s' := run (Call a :: evs') s in
  (∃ id, timeout s' = Some id
         ∧ P s' = {[id := ((Timers.now (timers s) + wait)%Z, a)]}
         ∧ world s' = envs evs' (world s)
         ∧ ((wait ≤ elapsed evs')%Z →
            world (fire func id s') = func a (world s') ∧ P (fire func id s') = ∅))
  ∨ (P s' = ∅
     ∧ ∃ e1 e2, evs' = e1 ++ e2 ∧ (wait ≤ elapsed e1)%Z
                ∧ world s' = envs e2 (func a (envs e1 (world s)))).
Proof.
  intros Hr Hc s s'. assert (Ht : tidy s) by apply run_tidy, init_tidy.
  subst s'. rewrite run_cons. cbn [Debounce.step].
  destruct (call_state a s Ht) as (Hto & Hp & Hn & Hworld).
  rewrite (TimersFacts.delayOf_small wait Hr) in Hp.
  destruct (pending_run evs' _ _ _ _ Hc Hto Hp)
    as [(H1 & H2 & H3 & H4)|(H1 & e1 & e2 & -> & H2 & H3)].
  - left. eexists. split; [exact H1|]. split; [exact H2|].
    split; [by rewrite H4, Hworld|].
    intros Hw. unfold fire, Timers.due. rewrite H2, lookup_singleton_eq.
    destruct (Z.leb_spec (Timers.now (timers s) + wait)
                (Timers.now (timers (run evs' (executedFunction wait a s))))) as [Hle|Hgt].
    + unfold later, Timers.clearTimeout, Timers.take; simpl. rewrite H1; simpl.
      by rewrite H2, delete_singleton_eq, delete_empty.
    + rewrite H3, Hn in Hgt. lia.
  - right. split; [done|]. exists e1, e2.
    repeat split; try done; try (rewrite Hn in H2; lia); try (by rewrite H3, Hworld).
Qed.

End Facts.

(** Three scroll events 4 ms apart on a handler debounced by 10 ms;
    [func] logs its argument.  Nothing is logged while the burst
    lasts. *)
Lemma debounce_silent_witness :
  world (run (fun a log => log ++ [a]) 10
           [Call 2; Wait 4; Call 3; Fire 1; Wait 4; Fire 2]
           (run (fun a log => log ++ [a]) 10 [Call 1; Wait 4] (init []))) = [].
Proof.
  apply (debounce_silent (fun a log => log ++ [a]) 10 [Call 1; Wait 4] [] 2
           [Wait 4; Call 3; Fire 1; Wait 4; Fire 2]).
  - vm_compute. reflexivity.
  - vm_compute. reflexivity.
Defined.

(** The same burst, then 10 ms of quiet and the timer of the last
    call fires: the log holds the last argument only. *)
Lemma debounce_trailing_witness :
  world (run (fun a log => log ++ [a]) 10
           [Call 1; Wait 4; Call 2; Wait 4; Call 3; Wait 10; Fire 2] (init [])) = [3].
Proof.
  destruct (debounce_trailing (fun a log => log ++ [a]) 10
              [Call 1; Wait 4; Call 2; Wait 4] [] 3 [Wait 10; Fire 2])
    as [(id & Hid & Hp & _)|(_ & e1 & e2 & _ & _ & _)].
  - lia.
  - repeat constructor.
  - apply (f_equal (fun m => m !! id)) in Hp. rewrite lookup_singleton_eq in Hp.
    vm_compute in Hid. injection Hid as <-. vm_compute in Hp. discriminate.
  - vm_compute. reflexivity.
Defined.

End DebounceFacts.

Module ScrollToTopFacts.
Import ScrollToTop.

Implicit Types (s : t) (ev : event) (evs : list event).

Lemma onScroll_state s :
  tidy s →
  let s' := onScroll s in
  scrollTimeout s' = Some (Timers.nextId (timers s))
  ∧ Timers.pending (timers s')
    = {[Timers.nextId (timers s) := ((Timers.now (timers s) + 100)%Z, ())]}
  ∧ Timers.now (timers s') = Timers.now (timers s)
  ∧ scrollY s' = scrollY s ∧ display s' = display s ∧ ariaHidden s' = ariaHidden s.
Proof.
  intros Ht. unfold onScroll, Timers.setTimeout, Timers.clearTimeout.
  assert (Hp : ∀ i, i ≠ Timers.nextId (timers s) →
            (match scrollTimeout s with
             | Some id => delete id (Timers.pending (timers s))
             | None => Timers.pending (timers s)
             end) !! i = None).
  { intros i Hne. destruct (scrollTimeout s) as [id0|] eqn:E.
    - destruct (decide (i = id0)) as [->|Hne']; [by rewrite lookup_delete_eq|].
      rewrite lookup_delete_ne by done.
      destruct (Timers.pending (timers s) !! i) as [x|] eqn:Ei; [|done].
      apply Ht in Ei. congruence.
    - destruct (Timers.pending (timers s) !! i) as [x|] eqn:Ei; [|done].
      apply Ht in Ei. congruence. }
  destruct (scrollTimeout s) as [id0|] eqn:E; simpl; repeat split;
    apply map_eq; intros i;
    (destruct (decide (i = Timers.nextId (timers s))) as [->|Hne];
     [by rewrite lookup_insert_eq, lookup_singleton_eq
     |rewrite lookup_insert_ne, lookup_singleton_ne by done; by apply Hp]).
Qed.

Lemma check_agree s : agree (check s).
Proof.
  unfold check, agree. destruct (Layout.lt _ _); simpl; [right; left | right; right]; done.
Qed.

Lemma step_agree ev s : agree s → agree (step ev s).
Proof.
  intros Ha. destruct ev as [y| |dt|id|]; try done.
  simpl. unfold fire. destruct (Timers.due id (timers s)); [apply check_agree | done].
Qed.

Lemma button_step_tidy ev s : tidy s → tidy (step ev s).
Proof.
  intros Ht. destruct ev as [y| |dt|id|]; try done.
  - destruct (onScroll_state s Ht) as (Hto & Hp & _). intros i x Hi.
    cbn [step] in *. rewrite Hp in Hi.
    apply lookup_singleton_Some in Hi as [<- _]. done.
  - simpl. unfold fire. destruct (Timers.due id (timers s)); [|done].
    unfold check. intros i x Hi.
    assert (Hi' : Timers.pending (timers s) !! i = Some x).
    { destruct (Layout.lt _ _); simpl in Hi;
        by apply lookup_delete_Some in Hi as [_ Hi]. }
    apply Ht in Hi'. by destruct (Layout.lt _ _).
Qed.

Lemma run_inv evs s : agree s → tidy s → agree (run evs s) ∧ tidy (run evs s).
Proof.
  revert s. induction evs as [|ev evs IH]; intros s Ha Ht; [done|].
  apply IH; [by apply step_agree | by apply button_step_tidy].
Qed.

Lemma init_inv y : agree (init y) ∧ tidy (init y).
Proof.
  split; [by left|]. intros id x H. simpl in H. by rewrite lookup_empty in H.
Qed.

Lemma idle_run evs s :
  Forall (fun ev => idle ev = true) evs →
  let s' := run evs s in
  scrollTimeout s' = scrollTimeout s
  ∧ Timers.pending (timers s') = Timers.pending (timers s)
  ∧ Timers.now (timers s') = (Timers.now (timers s) + elapsed evs)%Z
  ∧ display s' = display s ∧ ariaHidden s' = ariaHidden s.
Proof.
  revert s. induction evs as [|ev evs IH]; intros s Hi; cbv zeta.
  { simpl. repeat split; lia. }
  apply Forall_cons in Hi as [Hev Hi].
  change (run (ev :: evs) s) with (run evs (step ev s)).
  destruct (IH (step ev s) Hi) as (H1 & H2 & H3 & H4 & H5).
  rewrite H1, H2, H3, H4, H5.
  destruct ev as [y| |dt|id|]; try done; simpl; repeat split; lia.
Qed.

(** X4: the scroll-to-top button.  Whatever scrolling, waiting, timer
    firings and clicks have happened since [initScrollToTop], the
    button's [display] and [aria-hidden] agree (both unset, or
    [flex] with ["false"], or [none] with ["true"]), and at most the
    timer named by [scrollTimeout] is pending.  And once a scroll
    event is followed by 100 ms or more without another scroll event
    and the browser fires the timer, the button shows exactly when the
    page is then scrolled by more than 300 pixels: it is the position
    at that moment that counts, not the one at the scroll event. *)
Theorem scroll_button evs y0 quiet :
  let s := run evs (init y0) in
  let s' := run (ScrollEvent :: quiet) s in
  agree s
  ∧ (∀ id x, Timers.pending (timers s) !! id = Some x → scrollTimeout s = Some id)
  ∧ (Forall (fun ev => idle ev = true) quiet → (100 ≤ elapsed quiet)%Z →
     ∃ id, scrollTimeout s' = Some id
           ∧ display (fire id s')
             = Some (if Layout.lt (inject_Z 300) (scrollY s') then "flex" else "none")
           ∧ ariaHidden (fire id s')
             = Some (if Layout.lt (inject_Z 300) (scrollY s') then "false" else "true")
           ∧ Timers.pending (timers (fire id s')) = ∅).
Proof.
  intros s s'.
  destruct (run_inv evs (init y0)) as [Ha Ht]; [apply init_inv | apply init_inv |].
  fold s in Ha, Ht. split; [done|]. split; [done|].
  intros Hq Hw. subst s'.
  change (run (ScrollEvent :: quiet) s) with (run quiet (onScroll s)).
  destruct (onScroll_state s Ht) as (Hto & Hp & Hn & _).
  destruct (idle_run quiet (onScroll s) Hq) as (H1 & H2 & H3 & _).
  exists (Timers.nextId (timers s)). split; [by rewrite H1|].
  unfold fire, Timers.due. rewrite H2, Hp, lookup_singleton_eq.
  destruct (Z.leb_spec (Timers.now (timers s) + 100)
              (Timers.now (timers (run quiet (onScroll s))))) as [Hle|Hgt].
  - unfold check. simpl.
    destruct (Layout.lt _ _); simpl; repeat split; try done;
      by rewrite H2, Hp, delete_singleton_eq.
  - rewrite H3, Hn in Hgt. lia.
Qed.

(** The page is scrolled to 500, the event arrives, the page moves on
    to 120 and rests: when the timer fires the button is hidden. *)
Lemma scroll_button_witness :
  let s' := run [Move (500 # 1); ScrollEvent; Move (120 # 1); Wait 100] (init (0 # 1)) in
  display (fire 0 s') = Some "none" ∧ ariaHidden (fire 0 s') = Some "true".
Proof.
  intros s'.
  destruct (scroll_button [Move (500 # 1)] (0 # 1) [Move (120 # 1); Wait 100])
    as (_ & _ & H).
  destruct H as (id & Hid & Hd & Ha & _).
  - repeat constructor.
  - vm_compute. discriminate.
  - vm_compute in Hid. injection Hid as <-. split; [exact Hd | exact Ha].
Defined.

End ScrollToTopFacts.

Module TypeWriterFacts.
Import TypeWriter.

Section Facts.
Variable speed : Z.
Implicit Types (s : t) (content : Js.jsstring).

Lemma take_charAt content n :
  (n < length content)%nat → take n content ++ charAt n content = take (S n) content.
Proof.
  intros Hn. unfold charAt. case_match eqn:Hc.
  - by rewrite (take_S_r _ _ _ Hc).
  - apply lookup_ge_None in Hc. lia.
Qed.

Lemma type_typing content s :
  text s = content → (i s ≤ length content)%nat →
  textContent s = take (i s) content →
  Timers.nextId (timers s) = i s →
  Timers.pending (timers s) = ∅ →
  typing content (type speed s).
Proof.
  intros Ht Hi Htc Hn Hp. unfold type. rewrite Ht.
  destruct (Nat.ltb_spec (i s) (length content)) as [Hlt|Hge].
  - unfold Timers.setTimeout. simpl. rewrite Hp, Hn, Htc.
    repeat split; simpl; try done.
    + by apply take_charAt.
    + intros id x [[<- _]|[_ H]]%lookup_insert_Some; [done|].
      by rewrite lookup_empty in H.
    + intros _. eexists. apply lookup_insert_eq.
  - repeat split; try done.
    + intros id x H. by rewrite Hp, lookup_empty in H.
    + lia.
Qed.

Lemma step_typing content ev s : typing content s → typing content (step speed ev s).
Proof.
  intros (Ht & Hi & Htc & Hn & Hp & Hq).
  destruct ev as [dt|id]; [done|].
  simpl. unfold fire, Timers.due.
  destruct (Timers.pending (timers s) !! id) as [[time []]|] eqn:E; [|done].
  destruct (time <=? _)%Z; [|done].
  apply type_typing; simpl; try done.
  apply map_eq. intros j. rewrite lookup_empty.
  destruct (decide (j = id)) as [->|Hne]; [by rewrite lookup_delete_eq|].
  rewrite lookup_delete_ne by done.
  destruct (Timers.pending (timers s) !! j) as [y|] eqn:Ej; [|done].
  apply Hp in E, Ej. lia.
Qed.

Lemma run_typing content evs s : typing content s → typing content (run speed evs s).
Proof.
  revert s. induction evs as [|ev evs IH]; intros s H; [done|].
  apply IH. by apply step_typing.
Qed.

(** X5: the typing effect on an element whose text is [content].
    However the timers are fired, the element shows a prefix of
    [content], exactly the [i] code units typed so far; no more than
    [length content] timers are ever set, and at most one is pending;
    when none is pending the whole text is back; and a timer that
    fires while a part is still missing adds exactly the next code
    unit. *)
Theorem typeWriter_types content evs :
  ∃ s0, typeWriter speed (Some content) = Some s0
  ∧ let s := run speed evs s0 in
    textContent s = take (i s) content
    ∧ (i s ≤ length content)%nat
    ∧ Timers.nextId (timers s) = i s
    ∧ (∀ id x, Timers.pending (timers s) !! id = Some x → S id = i s)
    ∧ (Timers.pending (timers s) = ∅ → textContent s = content)
    ∧ (∀ id, is_Some (Timers.due id (timers s)) → (i s < length content)%nat →
         textContent (fire speed id s) = take (S (i s)) content).
Proof.
  eexists. split; [reflexivity|]. intros s.
  assert (H : typing content s).
  { apply run_typing, type_typing; simpl; try done. lia. }
  destruct H as (Ht & Hi & Htc & Hn & Hp & Hq).
  repeat split; try done.
  - intros He. rewrite Htc.
    destruct (decide (i s < length content)%nat) as [Hlt|Hge].
    + destruct (Hq Hlt) as [x Hx]. by rewrite He, lookup_empty in Hx.
    + apply take_ge. lia.
  - intros id [[] Hd] Hlt. unfold fire. rewrite Hd. unfold type. simpl.
    rewrite Ht. destruct (Nat.ltb_spec (i s) (length content)) as [_|Hge]; [|lia].
    simpl. rewrite Htc. by apply take_charAt.
Qed.

End Facts.

End TypeWriterFacts.

Module LazyLoadingFacts.
Import LazyLoading.

Implicit Types (s : t) (d : Dom.t) (img : Dom.elem) (es : list entry).

Lemma load_other img x a d :
  x ≠ img → Dom.getAttribute x a (load img d) = Dom.getAttribute x a d.
Proof.
  intros Hne. unfold load, removeAttribute, Dom.getAttribute, Dom.setAttribute; simpl.
  rewrite lookup_delete_ne, lookup_insert_ne; [done | |]; congruence.
Qed.

Lemma load_same img d v :
  Dom.getAttribute img "data-src" d = Some v →
  Dom.getAttribute img "src" (load img d) = Some v
  ∧ Dom.getAttribute img "data-src" (load img d) = None.
Proof.
  intros Hv. unfold load, removeAttribute, Dom.getAttribute, Dom.setAttribute in *; simpl.
  rewrite Hv; simpl. split.
  - rewrite lookup_delete_ne, lookup_insert_eq; [done|]. intros [=].
  - by rewrite lookup_delete_eq.
Qed.

Lemma images_callback_cons en es s :
  callback (en :: es) s
  = callback es (if isIntersecting en
                 then Mk (load (target en) (dom s)) (observed s ∖ {[target en]})
                 else s).
Proof. done. Qed.

(** Entries that do not report [img] as intersecting leave its
    attributes and its place among the targets alone. *)
Lemma callback_misses es s img a :
  hits img es = [] →
  Dom.getAttribute img a (dom (callback es s)) = Dom.getAttribute img a (dom s)
  ∧ (img ∈ observed (callback es s) ↔ img ∈ observed s).
Proof.
  revert s. induction es as [|en es IH]; intros s Hh; [done|].
  rewrite images_callback_cons. unfold hits in Hh. rewrite filter_cons in Hh.
  destruct (decide (target en = img ∧ isIntersecting en = true)) as [Hy|Hn]; [done|].
  destruct (IH (if isIntersecting en
                then Mk (load (target en) (dom s)) (observed s ∖ {[target en]})
                else s) Hh) as [H1 H2].
  rewrite H1, H2. destruct (isIntersecting en) eqn:E; [|done]. simpl.
  assert (img ≠ target en) by (intros ->; by apply Hn).
  split; [by apply load_other|].
  rewrite elem_of_difference, elem_of_singleton. tauto.
Qed.

Lemma callback_unobserved es s img :
  img ∉ observed s → img ∉ observed (callback es s).
Proof.
  revert s. induction es as [|en es IH]; intros s Hn; [done|].
  rewrite images_callback_cons. apply IH. destruct (isIntersecting en); [|done]. simpl.
  rewrite elem_of_difference. tauto.
Qed.

Lemma hits_filter_nil img (P : entry → Prop) `{∀ en, Decision (P en)} es :
  hits img es = [] → hits img (filter P es) = [].
Proof.
  unfold hits. induction es as [|en es IH]; [done|].
  rewrite !filter_cons.
  destruct (decide (target en = img ∧ _)) as [|Hn]; [done|]. intros Hh.
  destruct (decide (P en)); [|by apply IH].
  rewrite filter_cons, decide_False by done. by apply IH.
Qed.

Lemma hits_observed img es s :
  img ∈ observed s → hits img (filter (fun en => target en ∈ observed s) es) = hits img es.
Proof.
  intros Hin. unfold hits. induction es as [|en es IH]; [done|].
  rewrite !filter_cons. destruct (decide (target en ∈ observed s)) as [Hy|Hn].
  - by rewrite filter_cons, IH.
  - rewrite IH. destruct (decide (target en = img ∧ _)) as [[Ht _]|]; [|done]. congruence.
Qed.

Lemma hits_unobserved img es s :
  img ∉ observed s → hits img (filter (fun en => target en ∈ observed s) es) = [].
Proof.
  intros Hn. unfold hits. induction es as [|en es IH]; [done|].
  rewrite filter_cons. destruct (decide (target en ∈ observed s)) as [Hy|]; [|done].
  rewrite filter_cons, IH.
  destruct (decide (target en = img ∧ _)) as [[Ht _]|]; [|done]. congruence.
Qed.

(** Once an image is no longer observed, no batch touches it. *)
Lemma batches_settled batches s img a :
  img ∉ observed s →
  Dom.getAttribute img a (dom (run batches s)) = Dom.getAttribute img a (dom s)
  ∧ img ∉ observed (run batches s).
Proof.
  revert s. induction batches as [|es batches IH]; intros s Hn; [done|].
  change (run (es :: batches) s) with (run batches (notify es s)).
  unfold notify.
  destruct (callback_misses _ s img a (hits_unobserved img es s Hn)) as [H1 H2].
  destruct (IH (callback (filter (fun en => target en ∈ observed s) es) s)) as [H3 H4].
  { by rewrite H2. }
  split; [by rewrite H3, H1 | done].
Qed.

(** Batches that never report [img] as intersecting leave it as it
    is. *)
Lemma batches_miss batches s img a :
  Forall (fun es => hits img es = []) batches →
  Dom.getAttribute img a (dom (run batches s)) = Dom.getAttribute img a (dom s)
  ∧ (img ∈ observed (run batches s) ↔ img ∈ observed s).
Proof.
  revert s. induction batches as [|es batches IH]; intros s Hb; [done|].
  apply Forall_cons in Hb as [He Hb].
  change (run (es :: batches) s) with (run batches (notify es s)).
  destruct (IH (notify es s) Hb) as [H1 H2]. rewrite H1, H2. unfold notify.
  apply callback_misses. by apply hits_filter_nil.
Qed.

(** The one entry of a batch that reports [img] loads it. *)
Lemma callback_hit es s img v :
  length (hits img es) = 1%nat →
  Dom.getAttribute img "data-src" (dom s) = Some v →
  Dom.getAttribute img "src" (dom (callback es s)) = Some v
  ∧ Dom.getAttribute img "data-src" (dom (callback es s)) = None
  ∧ img ∉ observed (callback es s).
Proof.
  revert s. induction es as [|en es IH]; intros s Hl Hv; [done|].
  rewrite images_callback_cons. unfold hits in Hl. rewrite filter_cons in Hl.
  destruct (decide (target en = img ∧ isIntersecting en = true)) as [[Ht Hi]|Hn].
  - simpl in Hl. assert (Hh : hits img es = []).
    { unfold hits. destruct (filter _ es); [done | simpl in Hl; lia]. }
    rewrite Hi, Ht.
    destruct (load_same img (dom s) v Hv) as [L1 L2].
    destruct (callback_misses es (Mk (load img (dom s)) (observed s ∖ {[img]})) img "src" Hh)
      as [M1 _].
    destruct (callback_misses es (Mk (load img (dom s)) (observed s ∖ {[img]})) img
                "data-src" Hh) as [M2 M3].
    rewrite M1, M2, M3. simpl. repeat split; try done.
    rewrite elem_of_difference, elem_of_singleton. tauto.
  - apply IH; [done|]. destruct (isIntersecting en) eqn:E; [|done]. simpl.
    rewrite load_other; [done|]. intros ->. by apply Hn.
Qed.

Lemma images_observed els d0 obs img :
  let s := fold_left (fun s img => Mk (dom s) (observed s ∪ {[img]})) els (Mk d0 obs) in
  dom s = d0 ∧ (img ∈ observed s ↔ img ∈ obs ∨ img ∈ els).
Proof.
  revert obs. induction els as [|x els IH]; intros obs; simpl.
  - split; [done|]. rewrite elem_of_nil. tauto.
  - destruct (IH (obs ∪ {[x]})) as [H1 H2]. split; [done|].
    rewrite H2, elem_of_union, elem_of_singleton, elem_of_cons. tauto.
Qed.

(** X6: lazy loading.  An image that carries [data-src] when
    [initLazyLoading] runs keeps waiting, observed and with its
    attributes as they were, through all batches that do not report it
    as intersecting; the first batch that does (in one entry) gives
    its [src] the text of [data-src], removes [data-src] and stops
    observing it; and whatever the observer reports afterwards, the
    image is never touched again. *)
Theorem lazy_load_once imgs d img v before es after :
  img ∈ imgs →
  Dom.getAttribute img "data-src" d = Some v →
  Forall (fun b => hits img b = []) before →
  length (hits img es) = 1%nat →
  let s0 := initLazyLoading imgs d in
  let s1 := run before s0 in
  let s2 := run (before ++ [es] ++ after) s0 in
  (img ∈ observed s1
   ∧ Dom.getAttribute img "src" (dom s1) = Dom.getAttribute img "src" d
   ∧ Dom.getAttribute img "data-src" (dom s1) = Some v)
  ∧ Dom.getAttribute img "src" (dom s2) = Some v
  ∧ Dom.getAttribute img "data-src" (dom s2) = None
  ∧ img ∉ observed s2.
Proof.
  intros Hin Hv Hb Hl s0 s1 s2.
  destruct (images_observed (images imgs d) d ∅ img) as [Hd Ho]. fold (initLazyLoading imgs d) in Hd, Ho.
  fold s0 in Hd, Ho.
  assert (Hobs : img ∈ observed s0).
  { apply Ho. right. apply list_elem_of_filter. by rewrite Hv. }
  destruct (batches_miss before s0 img "src" Hb) as [B1 B2].
  destruct (batches_miss before s0 img "data-src" Hb) as [B3 _].
  fold s1 in B1, B2, B3. rewrite Hd in B1, B3.
  assert (Hobs1 : img ∈ observed s1) by by apply B2.
  split; [by rewrite B1, B3, Hv|].
  subst s2. unfold run. rewrite !fold_left_app. fold (run before s0). fold s1.
  cbn [fold_left]. fold (run after (notify es s1)).
  destruct (callback_hit (filter (fun en => target en ∈ observed s1) es) s1 img v)
    as (C1 & C2 & C3).
  { by rewrite hits_observed. }
  { by rewrite B3. }
  fold (notify es s1) in C1, C2, C3.
  destruct (batches_settled after (notify es s1) img "src" C3) as [S1 S2].
  destruct (batches_settled after (notify es s1) img "data-src" C3) as [S3 _].
  by rewrite S1, S3.
Qed.

(** Two images wait; the first batch reports the second as out of
    view, the next one as intersecting, a later one reports it again. *)
Lemma lazy_load_once_witness :
  let d := Dom.Mk ∅ {[ (1, "data-src") := "a.png"; (2, "data-src") := "b.png" ]} "" None in
  let s := run [[Entry 2 false]; [Entry 1 false; Entry 2 true]; [Entry 2 true]]
               (initLazyLoading [1; 2; 3] d) in
  Dom.getAttribute 2 "src" (dom s) = Some "b.png"
  ∧ Dom.getAttribute 2 "data-src" (dom s) = None.
Proof.
  intros d s.
  destruct (lazy_load_once [1; 2; 3] d 2 "b.png" [[Entry 2 false]]
              [Entry 1 false; Entry 2 true] [[Entry 2 true]])
    as (_ & H1 & H2 & _).
  - apply list_elem_of_further, list_elem_of_here.
  - reflexivity.
  - repeat constructor.
  - reflexivity.
  - split; [exact H1 | exact H2].
Defined.

(** The same image reported twice in one batch: by the second entry
    [data-src] is gone, and [src] becomes the text ["undefined"]. *)
Lemma reported_twice_in_a_batch :
  let d := Dom.Mk ∅ {[ (1, "data-src") := "a.png" ]} "" None in
  let s := notify [Entry 1 true; Entry 1 false; Entry 1 true] (initLazyLoading [1] d) in
  Dom.getAttribute 1 "src" (dom s) = Some "undefined".
Proof. reflexivity. Qed.

End LazyLoadingFacts.

Module SmoothScrollingFacts.
Import SmoothScrolling.

Section Facts.
Variable querySelector : string → selected.
Variable navbar : option Dom.elem.
Variable layout : Layout.t.
Implicit Types (s : t) (href : string).

Local Abbreviation anchorClick := (anchorClick querySelector navbar layout).
Local Abbreviation clicks := (clicks querySelector navbar layout).
Local Abbreviation leads := (leads querySelector).

Lemma anchorClick_leads href s :
  prevented (anchorClick href s) = leads href
  ∧ history (stateOf (anchorClick href s))
    = history s ++ (if leads href then [href] else [])
  ∧ (leads href = false → stateOf (anchorClick href s) = s).
Proof.
  unfold SmoothScrolling.anchorClick, SmoothScrolling.leads.
  destruct (bool_decide (href = "#")); simpl; [by rewrite app_nil_r|].
  destruct (bool_decide (href = "#!")); simpl; [by rewrite app_nil_r|].
  destruct (querySelector href); simpl; by rewrite ?app_nil_r.
Qed.

(** X7: smooth scrolling.  A click on an anchor cancels the browser's
    own jump exactly when its href is neither ['#'] nor ['#!'] and
    selects an element; any other click leaves the scroll request and
    the history as they were; and after any series of clicks the
    history holds, in order, one new entry for each click that led
    somewhere, and nothing else. *)
Theorem smooth_scroll_history hrefs s :
  history (clicks hrefs s) = history s ++ filter (fun href => leads href = true) hrefs
  ∧ (∀ href s', prevented (anchorClick href s') = leads href)
  ∧ (∀ href s', leads href = false → stateOf (anchorClick href s') = s').
Proof.
  split; [|split; intros href s'; apply anchorClick_leads].
  revert s. induction hrefs as [|href hrefs IH]; intros s.
  - by rewrite app_nil_r.
  - change (clicks (href :: hrefs) s) with (clicks hrefs (stateOf (anchorClick href s))).
    rewrite IH. destruct (anchorClick_leads href s) as (_ & -> & _).
    rewrite filter_cons. destruct (leads href) eqn:E.
    + rewrite decide_True by done. by rewrite <- app_assoc.
    + rewrite decide_False by done. by rewrite app_nil_r.
Qed.

End Facts.

End SmoothScrollingFacts.

Module BackupPageFacts.
Import TopnavBackup BackupPage.

Section Facts.
Variables hamburger navMenu : Dom.elem.
Variable pg : Modal.page.
Variable order : list Dom.elem.
Implicit Types (s : Modal.t) (d : Dom.t) (p : Dom.elem).

Local Abbreviation step := (step hamburger navMenu pg order).
Local Abbreviation run := (run hamburger navMenu pg order).

Lemma documentClick_frame a b d p :
  p ≠ hamburger → p ≠ navMenu →
  Dom.contains p "active" (documentClick hamburger navMenu a b d) = Dom.contains p "active" d
  ∧ Dom.getAttribute p "aria-hidden" (documentClick hamburger navMenu a b d)
    = Dom.getAttribute p "aria-hidden" d.
Proof.
  intros H1 H2. unfold documentClick. destruct (_ && _); [|done].
  split; dom_cases.
Qed.

Lemma onClick_frame c d p :
  p ≠ hamburger → p ≠ navMenu →
  Dom.contains p "active" (onClick hamburger navMenu c d) = Dom.contains p "active" d
  ∧ Dom.getAttribute p "aria-hidden" (onClick hamburger navMenu c d)
    = Dom.getAttribute p "aria-hidden" d.
Proof.
  intros H1 H2. destruct c as [|b|b]; unfold onClick.
  - destruct (documentClick_frame true false (hamburgerClick hamburger navMenu d) p H1 H2)
      as [-> ->].
    unfold hamburgerClick. split; dom_cases.
  - destruct (documentClick_frame false b (navLinkClick hamburger navMenu d) p H1 H2)
      as [-> ->].
    unfold navLinkClick. split; dom_cases.
  - by apply documentClick_frame.
Qed.

(** X8: a click on a project trigger that sits outside the hamburger
    and the menu.  [openModalById] alone marks the panel open and
    suspends page scrolling; but the click then reaches the
    document's click listener of [initMobileNav], which clears the
    body's overflow again.  So after the click the panel is marked
    open, announced and referenced, the mobile menu is closed, and the
    page behind the dialog scrolls. *)
Theorem trigger_click_unlocks modalId modal s :
  Modal.getElementById pg modalId = Some modal →
  modal ≠ hamburger → modal ≠ navMenu →
  let s' := triggerClick hamburger navMenu pg modalId false false s in
  Dom.bodyOverflow (Modal.dom (Modal.openModalById pg modalId s)) = "hidden"
  ∧ Dom.bodyOverflow (Modal.dom s') = ""
  ∧ Modal.isOpen modal s' = true
  ∧ Dom.getAttribute modal "aria-hidden" (Modal.dom s') = Some "false"
  ∧ Modal.activeModal s' = Some modal
  ∧ Dom.contains navMenu "active" (Modal.dom s') = false.
Proof.
  intros Hm H1 H2 s'. subst s'.
  unfold triggerClick, bubble, Modal.openModalById. rewrite Hm.
  destruct (documentClick_frame false false
              (Modal.dom (Modal.openModal pg (Some modal) s)) modal H1 H2) as [Hc Ha].
  unfold Modal.isOpen.
  change (Modal.dom (Modal.setDom ?d _)) with d.
  split; [done|]. split; [done|].
  split; [rewrite Hc; simpl; by dom_cases|].
  split; [rewrite Ha; simpl; by dom_cases|].
  split; [done|]. unfold documentClick; simpl. by dom_cases.
Qed.

Lemma openModalById_announced modalId s p :
  announced p s → announced p (Modal.openModalById pg modalId s).
Proof.
  unfold announced, Modal.isOpen, Modal.openModalById. intros H.
  destruct (Modal.getElementById pg modalId) as [m|]; [|done]. simpl.
  destruct (decide (m = p)) as [->|Hne]; dom_cases.
Qed.

Lemma closeCurrentModal_announced s p :
  announced p s → announced p (Modal.closeCurrentModal s).
Proof.
  unfold announced, Modal.isOpen, Modal.closeCurrentModal, Modal.closeModal. intros H.
  destruct (Modal.activeModal s) as [m|]; [|done].
  destruct (Modal.lastFocusedElement s); simpl;
    (destruct (decide (m = p)) as [->|Hne]; dom_cases).
Qed.

Lemma bubble_announced a b s p :
  p ≠ hamburger → p ≠ navMenu →
  announced p s → announced p (bubble hamburger navMenu a b s).
Proof.
  intros H1 H2 H. unfold announced, Modal.isOpen, bubble in *.
  change (Modal.dom (Modal.setDom ?d _)) with d.
  by destruct (documentClick_frame a b (Modal.dom s) p H1 H2) as [-> ->].
Qed.

Lemma step_announced ev s p :
  p ≠ hamburger → p ≠ navMenu → announced p s → announced p (step ev s).
Proof.
  intros H1 H2 H. destruct ev as [modalId a b|a b|c| |ev]; simpl.
  - by apply bubble_announced, openModalById_announced.
  - by apply bubble_announced, closeCurrentModal_announced.
  - unfold announced, Modal.isOpen in *.
    change (Modal.dom (Modal.setDom ?d _)) with d.
    by destruct (onClick_frame c (Modal.dom s) p H1 H2) as [-> ->].
  - unfold Modal.documentKeydown. destruct (_ && _); [|done].
    by apply closeCurrentModal_announced.
  - destruct (ModalFacts.step_frame pg order ev s) as (_ & _ & Hf).
    unfold announced, Modal.isOpen in *.
    by rewrite (ModalFacts.sameButFocus_contains _ _ _ _ Hf),
               (ModalFacts.sameButFocus_getAttribute _ _ _ _ Hf).
Qed.

(** X9: a panel that is announced rightly to assistive technology
    when the page is loaded ([aria-hidden] is ["true"] while it does
    not carry the class [active], ["false"] while it does) stays so
    through every series of trigger clicks, close clicks, menu clicks,
    Escape and Tab presses, timers and focus changes, also when a
    second panel is opened over it. *)
Theorem panel_announced evs s p :
  p ≠ hamburger → p ≠ navMenu →
  announced p s → announced p (run evs s).
Proof.
  intros H1 H2. revert s. induction evs as [|ev evs IH]; intros s H; [done|].
  apply IH. by apply step_announced.
Qed.

Lemma step_listeners ev s :
  Modal.traps (step ev s) = Modal.traps s ++ map (trapOf pg) (opened pg [ev]).
Proof.
  destruct ev as [modalId a b|a b|c| |ev]; cbn [BackupPage.step opened omap];
    rewrite ?app_nil_r; try done.
  - unfold triggerClick, bubble, Modal.openModalById. simpl.
    repeat case_match; simplify_eq; simpl; by rewrite ?app_nil_r.
  - unfold closeButtonClick, bubble. simpl.
    by destruct (ModalFacts.closeCurrentModal_traps s) as [-> _].
  - unfold Modal.documentKeydown. destruct (_ && _); [|done].
    by destruct (ModalFacts.closeCurrentModal_traps s) as [-> _].
  - apply ModalFacts.step_traps.
Qed.

(** X10: the keydown listeners [trapFocus] attaches are never
    removed.  After any series of events the listeners are those
    there were before, followed by one for every panel a trigger click
    opened, in the order of the clicks: a panel opened n times carries
    n listeners more, whether it was closed in between or not. *)
Theorem listeners_pile_up evs s :
  Modal.traps (run evs s) = Modal.traps s ++ map (trapOf pg) (opened pg evs).
Proof.
  revert s. induction evs as [|ev evs IH]; intros s.
  - by rewrite app_nil_r.
  - change (run (ev :: evs) s) with (run evs (step ev s)).
    rewrite IH, step_listeners, <- app_assoc, <- map_app.
    do 2 f_equal. unfold opened. simpl. by repeat case_match.
Qed.

End Facts.

(** A page with a hamburger 7 and a menu 8 beside the two panels; the
    first panel is opened, a second one over it, and one close
    follows. *)
Lemma panel_announced_witness :
  let d := Dom.Mk ∅ {[ (1, "aria-hidden") := "true"; (2, "aria-hidden") := "true" ]} "" None in
  let s := run 7 8 Modal.twoPanels []
             [ClickTrigger "about" false false; ClickTrigger "work" false false;
              ClickCloseButton false false] (Modal.initial d) in
  Modal.isOpen 1 s = true
  ∧ Dom.getAttribute 1 "aria-hidden" (Modal.dom s) = Some "false".
Proof.
  intros d s.
  assert (H : announced 1 s).
  { apply (panel_announced 7 8 Modal.twoPanels []); [done | done | reflexivity]. }
  assert (Ho : Modal.isOpen 1 s = true) by (vm_compute; reflexivity).
  split; [exact Ho|]. unfold announced in H. by rewrite Ho in H.
Defined.

(** The panel of the page above, found through the id ["about"]. *)
Lemma trigger_click_unlocks_witness :
  let s := triggerClick 7 8 Modal.twoPanels "about" false false (Modal.initial Dom.empty) in
  Modal.isOpen 1 s = true ∧ Dom.bodyOverflow (Modal.dom s) = "".
Proof.
  intros s.
  destruct (trigger_click_unlocks 7 8 Modal.twoPanels "about" 1 (Modal.initial Dom.empty))
    as (_ & H2 & H3 & _); [reflexivity | done | done |].
  split; [exact H3 | exact H2].
Defined.

End BackupPageFacts.

Module NewPageFacts.
Import ScriptNew NewPage.

Section Facts.
Variables modal sidebar icon : Dom.elem.
Variables sections navItems : list Dom.elem.
Variable layout : Layout.t.
Hypothesis modal_not_sidebar : modal ≠ sidebar.
Hypothesis modal_not_item : modal ∉ navItems.
Implicit Types (s : t) (d : Dom.t).

Local Abbreviation step := (step modal sidebar icon sections navItems layout).
Local Abbreviation run := (run modal sidebar icon sections navItems layout).
Local Abbreviation lock d :=
  (Dom.bodyOverflow d = (if Dom.contains modal "active" d then "hidden" else "")).

(** What a listener leaves alone: the body's overflow and the
    modal's marker. *)
Local Abbreviation spares f :=
  (∀ d, Dom.bodyOverflow (f d) = Dom.bodyOverflow d
        ∧ Dom.contains modal "active" (f d) = Dom.contains modal "active" d).

Ltac dom_strs :=
  dom_cases; rewrite ?DomFacts.bodyOverflow_toggle, ?bool_decide_eq_false_2 by done;
  simpl; try done.

Lemma closeSidebar_spares :
  spares (fun d => Dom.add icon "fa-bars" (Dom.remove icon "fa-times"
                     (Dom.remove sidebar "active" d))).
Proof. intros d. split; [done|]. dom_strs. Qed.

Lemma toggleClick_spares : spares (Menu.toggleClick sidebar icon).
Proof.
  intros d. unfold Menu.toggleClick.
  destruct (Dom.contains sidebar "active" _); split; dom_strs.
Qed.

Lemma documentClick_spares w a b : spares (Menu.documentClick sidebar icon w a b).
Proof.
  intros d. unfold Menu.documentClick.
  destruct (w <=? 992)%Z; [|done]. destruct (_ && _); [|done].
  apply closeSidebar_spares.
Qed.

Lemma clear_items_overflow items d :
  Dom.bodyOverflow (fold_left (fun d item => Dom.remove item "active" d) items d)
  = Dom.bodyOverflow d.
Proof. revert d. induction items as [|i items IH]; intros d; simpl; [done|]. by rewrite IH. Qed.

Lemma navItemClick_spares w this hasTarget :
  this ∈ navItems → spares (Menu.navItemClick sidebar icon navItems w this hasTarget).
Proof.
  intros Hthis d. unfold Menu.navItemClick. destruct hasTarget; [|done].
  assert (Hne : this ≠ modal) by (intros ->; done).
  set (d1 := if (w <=? 992)%Z && Dom.contains sidebar "active" d then _ else d).
  assert (H1 : Dom.bodyOverflow d1 = Dom.bodyOverflow d
               ∧ Dom.contains modal "active" d1 = Dom.contains modal "active" d).
  { subst d1. destruct (_ && _); [apply closeSidebar_spares | done]. }
  destruct H1 as [Ho Hc]. split.
  - simpl. by rewrite clear_items_overflow.
  - rewrite DomFacts.contains_add, decide_False by done.
    by rewrite MenuFacts.clear_items_frame.
Qed.

Lemma marks_overflow current items d :
  Dom.bodyOverflow (fold_left (mark current) items d) = Dom.bodyOverflow d.
Proof.
  revert d. induction items as [|i items IH]; intros d; simpl; [done|].
  rewrite IH. unfold mark. by case_bool_decide.
Qed.

Lemma updateActiveNavOnScroll_spares scrollY innerHeight :
  spares (updateActiveNavOnScroll sections navItems layout scrollY innerHeight).
Proof.
  intros d. unfold updateActiveNavOnScroll. split; [apply marks_overflow|].
  by rewrite ActiveNavFacts.marks_contains, decide_False.
Qed.

Lemma fade_callback_spares es (fs : FadeIn.t) :
  Dom.bodyOverflow (FadeIn.dom (FadeIn.callback es fs)) = Dom.bodyOverflow (FadeIn.dom fs)
  ∧ Dom.contains modal "active" (FadeIn.dom (FadeIn.callback es fs))
    = Dom.contains modal "active" (FadeIn.dom fs).
Proof.
  revert fs. induction es as [|en es IH]; intros fs; [done|].
  rewrite RevealFacts.callback_cons_new.
  destruct (IH (if FadeIn.isIntersecting en
                then FadeIn.Mk (Dom.add (FadeIn.target en) "fade-in-up" (FadeIn.dom fs))
                               (FadeIn.observed fs ∖ {[FadeIn.target en]})
                else fs)) as [-> ->].
  destruct (FadeIn.isIntersecting en); [|done]. simpl. split; [done|]. dom_strs.
Qed.

Lemma certificate_open_lock certificateId cs :
  lock (Certificate.dom cs) →
  lock (Certificate.dom (Certificate.openCertificateModal modal certificateId cs)).
Proof.
  intros H. unfold Certificate.openCertificateModal.
  destruct (JsObject.truthy _); [|done]. simpl.
  by rewrite DomFacts.contains_setOverflow, DomFacts.contains_add_same.
Qed.

Lemma certificate_close_lock cs :
  lock (Certificate.dom (Certificate.closeCertificateModal modal cs)).
Proof.
  unfold Certificate.closeCertificateModal. simpl.
  by rewrite DomFacts.contains_setOverflow, DomFacts.contains_remove_same.
Qed.

Lemma spares_lock (f : Dom.t → Dom.t) d : spares f → lock d → lock (f d).
Proof. intros Hf H. destruct (Hf d) as [-> ->]. done. Qed.

Lemma step_locked ev s : locked modal s → locked modal (step ev s).
Proof.
  unfold locked. intros H. destruct ev as [c|key|y h|w|es]; [simpl..|].
  - unfold onClick. simpl. apply spares_lock; [apply documentClick_spares|].
    set (d1 := match landsOn c with OnToggle => _ | OnNavItem _ _ => _ | Plain => _ end).
    assert (H1 : lock d1).
    { subst d1. destruct (landsOn c) as [|index hasTarget|]; [| |done].
      - apply spares_lock; [apply toggleClick_spares | done].
      - destruct (navItems !! index) as [this|] eqn:E; [|done].
        apply spares_lock; [|done].
        apply navItemClick_spares. by eapply list_elem_of_lookup_2. }
    unfold Certificate.documentClick.
    destruct (inClose c); [apply certificate_close_lock|].
    destruct (viewButton c); [by apply certificate_open_lock | done].
  - unfold Certificate.documentKeydown.
    destruct (bool_decide _); [apply certificate_close_lock | done].
  - apply spares_lock; [apply updateActiveNavOnScroll_spares | done].
  - unfold Menu.resize. simpl. destruct (_ && _); [|done].
    by apply (spares_lock _ _ closeSidebar_spares).
  - cbn [NewPage.step dom]. unfold FadeIn.notify.
    by destruct (fade_callback_spares
                   (filter (fun en => FadeIn.target en
                                      ∈ FadeIn.observed (FadeIn.Mk (dom s) (observed s))) es)
                   (FadeIn.Mk (dom s) (observed s))) as [-> ->].
Qed.

(** X11: while [script_new.js] runs the page, scrolling is suspended
    exactly while the certificate modal is marked open.  It is so
    when the page is loaded, and every click (on the toggle, on a nav
    entry, on a view or close button, anywhere else), key press,
    scroll, resize and fade-in report keeps it so. *)
Theorem scroll_lock_follows_modal evs s :
  locked modal s → locked modal (run evs s).
Proof.
  revert s. induction evs as [|ev evs IH]; intros s H; [done|].
  apply IH. by apply step_locked.
Qed.

End Facts.

(** The modal is element 1, the sidebar 2, its icon 3, the nav entries
    5 and 6.  A certificate is opened, the menu toggled, a nav entry
    clicked; scrolling is still suspended. *)
Lemma scroll_lock_follows_modal_witness :
  let layout := Layout.Mk (fun _ => 0%Z) (fun _ => 0%Z) in
  let s0 := Mk Dom.empty (Image.Mk JsObject.Undefined "") 800 ∅ in
  let opened := [Clicked (Click Plain (Some (Some "matlab-certificate")) false false 800);
                 Clicked (Click OnToggle None false false 800);
                 Clicked (Click (OnNavItem 1 true) None false true 800)] in
  Dom.bodyOverflow (dom (run 1 2 3 [] [5; 6] layout opened s0)) = "hidden".
Proof.
  intros layout s0 opened.
  assert (Hnot : 1 ∉ [5; 6]).
  { intros H. apply elem_of_cons in H as [H|H]; [discriminate|].
    apply list_elem_of_singleton in H. discriminate. }
  assert (H0 : locked 1 s0) by (vm_compute; reflexivity).
  pose proof (scroll_lock_follows_modal 1 2 3 [] [5; 6] layout
                ltac:(discriminate) Hnot opened s0 H0) as H1.
  assert (Hc : Dom.contains 1 "active" (dom (run 1 2 3 [] [5; 6] layout opened s0)) = true)
    by (vm_compute; reflexivity).
  unfold locked in H1. rewrite Hc in H1. exact H1.
Defined.

End NewPageFacts.

Module ThemeMoreFacts.
Import TopnavBackup.Theme.

Section Facts.
Variable documentElement : Dom.elem.
Implicit Types (s : t) (v w : string).

Local Abbreviation setTheme := (setTheme documentElement).
Local Abbreviation getCurrentTheme := (getCurrentTheme documentElement).
Local Abbreviation reload := (reload documentElement).

(** X12: the theme functions take any text.  What [getCurrentTheme]
    answers after [setTheme(v)], at once or after the page has been
    loaded again, is [v] itself, whatever it is, except that the
    empty text reads back as ['dark'] (while it is the empty text that
    sits in storage); the later of two [setTheme] calls wins, leaving
    the very state it alone would leave; and loading the page applies
    the stored theme but never writes to storage. *)
Theorem theme_any_text v w s fresh :
  getCurrentTheme (setTheme v s) = (if bool_decide (v = "") then "dark" else v)
  ∧ getCurrentTheme (reload fresh (setTheme v s))
    = (if bool_decide (v = "") then "dark" else v)
  ∧ localStorage (setTheme v s) !! THEME_KEY = Some v
  ∧ setTheme v (setTheme w s) = setTheme v s
  ∧ localStorage (reload fresh s) = localStorage s.
Proof.
  assert (Ho : ∀ x, Text.orElse (Some x) "dark" = if bool_decide (x = "") then "dark" else x)
    by done.
  repeat split.
  - unfold TopnavBackup.Theme.getCurrentTheme, TopnavBackup.Theme.setTheme; simpl.
    by rewrite DomFacts.getAttribute_setAttribute_same.
  - unfold TopnavBackup.Theme.reload, TopnavBackup.Theme.getCurrentTheme,
      TopnavBackup.Theme.initThemePersistence, savedTheme,
      TopnavBackup.Theme.setTheme; simpl.
    rewrite DomFacts.getAttribute_setAttribute_same, lookup_insert_eq, !Ho.
    by repeat case_bool_decide.
  - unfold TopnavBackup.Theme.setTheme; simpl. apply lookup_insert_eq.
  - unfold TopnavBackup.Theme.setTheme, Dom.setAttribute; simpl.
    by rewrite !insert_insert_eq.
Qed.

End Facts.
End ThemeMoreFacts.

Module MenuMoreFacts.

Section Facts.
Variables hamburger navMenu sidebar icon : Dom.elem.
Variable navItems : list Dom.elem.
Hypothesis apart : sidebar ∉ navItems.

Local Abbreviation onClick := (TopnavBackup.onClick hamburger navMenu).
Local Abbreviation step := (ScriptNew.Menu.step sidebar icon navItems).

Lemma closes d :
  Dom.contains navMenu "active"
    (Dom.setOverflow ""
       (Dom.setAttribute hamburger "aria-expanded" "false"
          (Dom.remove hamburger "active" (Dom.remove navMenu "active" d)))) = false.
Proof. dom_cases. Qed.

Lemma documentClick_closed a b d :
  Dom.contains navMenu "active" d = false →
  Dom.contains navMenu "active" (TopnavBackup.documentClick hamburger navMenu a b d) = false.
Proof.
  intros H. unfold TopnavBackup.documentClick. destruct (_ && _); [apply closes | done].
Qed.

Lemma closeSidebar_closed d :
  Dom.contains sidebar "active"
    (Dom.add icon "fa-bars" (Dom.remove icon "fa-times" (Dom.remove sidebar "active" d)))
  = false.
Proof. dom_cases; by rewrite ?bool_decide_eq_false_2. Qed.

Lemma documentClick_closed_new w a b d :
  Dom.contains sidebar "active" d = false →
  Dom.contains sidebar "active" (ScriptNew.Menu.documentClick sidebar icon w a b d) = false.
Proof.
  intros H. unfold ScriptNew.Menu.documentClick.
  destruct (w <=? 992)%Z; [|done]. destruct (_ && _); [apply closeSidebar_closed | done].
Qed.

Lemma navItemClick_closed w this hasTarget d :
  this ∈ navItems →
  Dom.contains sidebar "active" d = false →
  Dom.contains sidebar "active"
    (ScriptNew.Menu.navItemClick sidebar icon navItems w this hasTarget d) = false.
Proof.
  intros Hthis H. unfold ScriptNew.Menu.navItemClick. destruct hasTarget; [|done].
  assert (Hne : this ≠ sidebar) by (intros ->; done).
  rewrite DomFacts.contains_add, decide_False by done.
  rewrite MenuFacts.clear_items_frame by done.
  destruct (_ && _); [apply closeSidebar_closed | done].
Qed.

(** X13: nothing but its toggle opens a menu.  In [initMobileNav], a
    click on a nav link always leaves the menu closed, so does a click
    outside the menu and the hamburger, and no click other than one on
    the hamburger opens a closed menu.  In [script_new.js], no click
    other than one on the toggle, and no resize, opens a closed
    sidebar; a click outside the sidebar and the toggle closes it on a
    window up to 992 pixels wide and changes nothing on a wider
    one. *)
Theorem menu_opens_only_by_toggle :
  (∀ inNavMenu d,
     Dom.contains navMenu "active" (onClick (TopnavBackup.OnNavLink inNavMenu) d) = false)
  ∧ (∀ d, Dom.contains navMenu "active" (onClick (TopnavBackup.Elsewhere false) d) = false)
  ∧ (∀ c d, c ≠ TopnavBackup.OnHamburger →
       Dom.contains navMenu "active" d = false →
       Dom.contains navMenu "active" (onClick c d) = false)
  ∧ (∀ ev s, (∀ w inSidebar, ev ≠ ScriptNew.Menu.ClickToggle w inSidebar) →
       Dom.contains sidebar "active" (ScriptNew.Menu.dom s) = false →
       Dom.contains sidebar "active" (ScriptNew.Menu.dom (step ev s)) = false)
  ∧ (∀ w s, (w ≤ 992)%Z →
       Dom.contains sidebar "active"
         (ScriptNew.Menu.dom (step (ScriptNew.Menu.ClickElsewhere w false) s)) = false)
  ∧ (∀ w inSidebar s, (992 < w)%Z →
       ScriptNew.Menu.dom (step (ScriptNew.Menu.ClickElsewhere w inSidebar) s)
       = ScriptNew.Menu.dom s).
Proof.
  split; [|split; [|split; [|split; [|split]]]].
  - intros b d. cbn [TopnavBackup.onClick]. apply documentClick_closed.
    unfold TopnavBackup.navLinkClick. apply closes.
  - intros d. cbn [TopnavBackup.onClick]. unfold TopnavBackup.documentClick. simpl.
    apply closes.
  - intros c d Hc H. destruct c as [|b|b]; [done | |]; cbn [TopnavBackup.onClick].
    + apply documentClick_closed. unfold TopnavBackup.navLinkClick. apply closes.
    + by apply documentClick_closed.
  - intros ev s Hev H. destruct ev as [w a|w i t a|w a|w]; cbn [ScriptNew.Menu.step].
    + by destruct (Hev w a).
    + destruct (navItems !! i) as [this|] eqn:E; [|done]. cbn [ScriptNew.Menu.dom].
      apply documentClick_closed_new, navItemClick_closed; [|done].
      by eapply list_elem_of_lookup_2.
    + cbn [ScriptNew.Menu.dom]. by apply documentClick_closed_new.
    + unfold ScriptNew.Menu.resize. cbn [ScriptNew.Menu.dom].
      destruct (_ && _); [apply closeSidebar_closed | done].
  - intros w s Hw. cbn [ScriptNew.Menu.step ScriptNew.Menu.dom].
    unfold ScriptNew.Menu.documentClick.
    destruct (Z.leb_spec w 992) as [_|?]; [|lia]. cbn [negb andb].
    destruct (Dom.contains sidebar "active" (ScriptNew.Menu.dom s)) eqn:E;
      [apply closeSidebar_closed | done].
  - intros w a s Hw. cbn [ScriptNew.Menu.step ScriptNew.Menu.dom].
    unfold ScriptNew.Menu.documentClick.
    destruct (Z.leb_spec w 992) as [?|_]; [lia | done].
Qed.

End Facts.

(** The sidebar 3 with its icon 4 and the nav entries 5 and 6 on a
    narrow window: closed, it stays closed under a click on a nav
    entry. *)
Lemma menu_opens_only_by_toggle_witness :
  Dom.contains 3 "active"
    (ScriptNew.Menu.dom
       (ScriptNew.Menu.step 3 4 [5; 6] (ScriptNew.Menu.ClickNavItem 800 0 true true)
          (ScriptNew.Menu.Mk (Dom.add 4 "fa-bars" Dom.empty) 800))) = false.
Proof.
  assert (H : 3 ∉ [5; 6]) by (apply (bool_decide_unpack _); vm_compute; exact I).
  destruct (menu_opens_only_by_toggle 1 2 3 4 [5; 6] H) as (_ & _ & _ & Hs & _).
  apply Hs; [discriminate | reflexivity].
Defined.

End MenuMoreFacts.

Module ActiveNavMoreFacts.

Section New.
Import ScriptNew.
Variables sections navItems : list Dom.elem.
Variable layout : Layout.t.
Implicit Types (d : Dom.t) (item sec : Dom.elem).

Lemma marks_rest current items d :
  Dom.bodyOverflow (fold_left (mark current) items d) = Dom.bodyOverflow d
  ∧ Dom.activeElement (fold_left (mark current) items d) = Dom.activeElement d.
Proof.
  revert d. induction items as [|i items IH]; intros d; simpl; [done|].
  destruct (IH (mark current d i)) as [-> ->]. unfold mark. by case_bool_decide.
Qed.

Lemma currentSection_attributes scrollY innerHeight d d' :
  (∀ x a, Dom.getAttribute x a d' = Dom.getAttribute x a d) →
  currentSection sections layout scrollY innerHeight d'
  = currentSection sections layout scrollY innerHeight d.
Proof.
  intros H. unfold currentSection. generalize (Some "").
  induction sections as [|sec l IH]; intros init; simpl; [done|].
  by rewrite H, IH.
Qed.

(** X14: running the recompute a second time without scrolling
    changes nothing: every class of every element, every attribute,
    the scroll lock and the focus are what the first run left. *)
Theorem recompute_twice scrollY innerHeight d :
  let f := updateActiveNavOnScroll sections navItems layout scrollY innerHeight in
  (∀ x k, Dom.contains x k (f (f d)) = Dom.contains x k (f d))
  ∧ (∀ x a, Dom.getAttribute x a (f (f d)) = Dom.getAttribute x a (f d))
  ∧ Dom.bodyOverflow (f (f d)) = Dom.bodyOverflow (f d)
  ∧ Dom.activeElement (f (f d)) = Dom.activeElement (f d).
Proof.
  intros f.
  assert (Ha : ∀ d0 x a, Dom.getAttribute x a (f d0) = Dom.getAttribute x a d0)
    by (intros; apply ActiveNavFacts.marks_getAttribute).
  assert (Hc : currentSection sections layout scrollY innerHeight (f d)
               = currentSection sections layout scrollY innerHeight d)
    by (apply currentSection_attributes, Ha).
  split; [|split; [apply Ha | split; apply marks_rest]].
  intros x k. destruct (decide (k = "active")) as [->|Hk].
  - assert (Hf : ∀ d0, Dom.contains x "active" (f d0)
                 = if decide (x ∈ navItems)
                   then bool_decide
                          (Dom.getAttribute x "href" d0
                           = Some ("#" +:+ JsObject.keyOf
                                     (currentSection sections layout scrollY innerHeight d0)))
                   else Dom.contains x "active" d0)
      by (intros; apply ActiveNavFacts.marks_contains).
    rewrite (Hf (f d)), (Hf d), Hc, Ha. by destruct (decide (x ∈ navItems)).
  - subst f. by rewrite RevealFacts.updateActiveNavOnScroll_frame.
Qed.

Variables sidebar icon : Dom.elem.

Lemma clear_items_attributes items d x a :
  Dom.getAttribute x a (fold_left (fun d item => Dom.remove item "active" d) items d)
  = Dom.getAttribute x a d.
Proof. revert d. induction items as [|i items IH]; intros d; simpl; [done|]. by rewrite IH. Qed.

Lemma navItemClick_attributes w this hasTarget d x a :
  Dom.getAttribute x a (Menu.navItemClick sidebar icon navItems w this hasTarget d)
  = Dom.getAttribute x a d.
Proof.
  unfold Menu.navItemClick. destruct hasTarget; [|done].
  rewrite DomFacts.getAttribute_add, clear_items_attributes. by destruct (_ && _).
Qed.

(** At the top of a section the reference point lies a third of the
    window below it, the numbers being of the size of a [long]. *)
Lemma inView_at_top innerHeight sec :
  Layout.long (Layout.offsetTop layout sec) →
  Layout.long (Layout.offsetHeight layout sec) →
  Layout.long innerHeight →
  inView layout (NavClick.destination layout sec) innerHeight sec = true
  ↔ (0 ≤ innerHeight ∧ innerHeight < 3 * Layout.offsetHeight layout sec)%Z.
Proof.
  intros Ht Hh Hi.
  destruct (Binary64Facts.third innerHeight Hi) as (t & Hdiv & [Ht1 Ht2] & Hk).
  pose proof (Binary64Facts.long_bounds _ Ht) as [HT1 HT2].
  set (top := Layout.offsetTop layout sec) in *.
  set (height := Layout.offsetHeight layout sec) in *.
  assert (Hs : (Qabs (inject_Z top + t) < inject_Z (2 ^ 51))%Q)
    by (apply Binary64Facts.small; lra).
  assert (Hpos : scrollPosition (NavClick.destination layout sec) innerHeight
                 = Binary64.Fin (Binary64.nearest (inject_Z top + t))).
  { unfold scrollPosition, NavClick.destination. rewrite Hdiv.
    by apply Binary64Facts.round_small. }
  rewrite (ActiveNavFacts.inView_spec _ _ _ _ _ Ht Hh Hpos). fold top height.
  set (p := Binary64.nearest (inject_Z top + t)).
  destruct (Hk 0%Z) as [Hk1 Hk2]. destruct (Hk height) as [Hk3 Hk4].
  rewrite inject_Z_plus.
  split; intros [H1 H2]; split.
  - destruct (Z.le_gt_cases 0 innerHeight) as [|Hneg]; [done|exfalso].
    assert (Hp : (p <= inject_Z top - (1 # 4))%Q).
    { apply Binary64Facts.nearest_below_quarter; [done|].
      assert (t <= inject_Z 0 - (1 # 4))%Q by (apply Hk2; lia).
      change (inject_Z 0) with 0%Q in *. lra. }
    lra.
  - destruct (Z.lt_ge_cases innerHeight (3 * height)) as [|Hbig]; [done|exfalso].
    assert (Hp : (inject_Z (top + height) <= p)%Q).
    { apply Binary64Facts.nearest_above; [done|].
      assert (inject_Z height <= t)%Q by (apply Hk3; lia).
      rewrite inject_Z_plus. lra. }
    rewrite inject_Z_plus in Hp. lra.
  - apply Binary64Facts.nearest_above; [done|].
    assert (inject_Z 0 <= t)%Q by (apply Hk1; lia).
    change (inject_Z 0) with 0%Q in *. lra.
  - assert (Hp : (p <= inject_Z (top + height) - (1 # 4))%Q).
    { apply Binary64Facts.nearest_below_quarter; [done|].
      assert (t <= inject_Z height - (1 # 4))%Q by (apply Hk4; lia).
      rewrite inject_Z_plus. lra. }
    rewrite inject_Z_plus in Hp. lra.
Qed.


End New.


(** The range matters: were a section to start at 2^60, a third of a
    window 150 pixels tall would be lost in the rounding of the sums,
    and a section 100 pixels tall would not hold the reference
    point. *)
Example offsets_beyond_the_range :
  let layout := Layout.Mk (fun _ => 2 ^ 60)%Z (fun _ => 100%Z) in
  ScriptNew.inView layout (NavClick.destination layout 1) 150 1 = false.
Proof. vm_compute. reflexivity. Qed.

Section Backup.
Import TopnavBackup BackupNav.
Variables sections navLinks : list Dom.elem.
Variable navbarHeight : Z.
Variable layout : Layout.t.
Variable scrollY : Q.
Implicit Types (d : Dom.t) (link : Dom.elem).

Local Abbreviation reached := (reached navbarHeight layout scrollY).
Local Abbreviation body current :=
  (fun d link =>
     let d := Dom.remove link "active" d in
     match Dom.getAttribute link "href" d with
     | Some href =>
         if negb (bool_decide (href = "")) && Text.includes (JsObject.keyOf current) href
         then Dom.add link "active" d
         else d
     | None => d
     end).

Lemma body_attributes current d link x a :
  Dom.getAttribute x a (body current d link) = Dom.getAttribute x a d.
Proof.
  simpl. rewrite DomFacts.getAttribute_remove.
  destruct (Dom.getAttribute link "href" d); [destruct (_ && _)|]; done.
Qed.

Lemma body_contains current d link x :
  Dom.contains x "active" (body current d link)
  = if decide (link = x) then matches current (Dom.getAttribute x "href" d)
    else Dom.contains x "active" d.
Proof.
  simpl. rewrite DomFacts.getAttribute_remove. unfold matches.
  destruct (decide (link = x)) as [->|Hne].
  - destruct (Dom.getAttribute x "href" d); [destruct (_ && _)|]; dom_cases.
  - destruct (Dom.getAttribute link "href" d); [destruct (_ && _)|]; dom_cases.
Qed.

Lemma links_contains current links d x :
  Dom.contains x "active" (fold_left (body current) links d)
  = if decide (x ∈ links) then matches current (Dom.getAttribute x "href" d)
    else Dom.contains x "active" d.
Proof.
  revert d. induction links as [|l links IH]; intros d; cbn [fold_left].
  - rewrite decide_False; [done | apply not_elem_of_nil].
  - rewrite IH, body_attributes, body_contains.
    destruct (decide (x ∈ links)) as [Hin|Hout].
    + rewrite decide_True; [done | by apply list_elem_of_further].
    + destruct (decide (l = x)) as [->|Hne].
      * rewrite decide_True; [done | apply list_elem_of_here].
      * rewrite decide_False; [done|]. intros [?|?]%elem_of_cons; congruence.
Qed.

Lemma currentSection_reached d :
  ((∀ sec, sec ∈ sections → reached sec = false)
   ∧ currentSection sections navbarHeight layout scrollY d = Some "")
  ∨ (∃ before sec after,
       sections = before ++ sec :: after
       ∧ reached sec = true
       ∧ (∀ x, x ∈ after → reached x = false)
       ∧ currentSection sections navbarHeight layout scrollY d
         = Dom.getAttribute sec "id" d).
Proof.
  unfold currentSection. generalize (Some "") as init.
  induction sections as [|sec l IH] using rev_ind; intros init.
  - left. split; [|done]. intros sec H. by apply elem_of_nil in H.
  - rewrite fold_left_app. simpl.
    change (Layout.geq scrollY
              (inject_Z (Layout.offsetTop layout sec - navbarHeight - 100)))
      with (reached sec).
    destruct (reached sec) eqn:E.
    + right. exists l, sec, []. repeat split; try done.
      intros x Hx. by apply elem_of_nil in Hx.
    + destruct (IH init) as [[Hn Hc]|(b & s0 & a & -> & Hv & Ha & Hc)].
      * left. split; [|done]. intros x Hx.
        apply elem_of_app in Hx as [Hx|Hx]; [by apply Hn|].
        by apply list_elem_of_singleton in Hx as ->.
      * right. exists b, s0, (a ++ [sec]).
        split; [by rewrite <- app_assoc|]. repeat split; try done.
        intros x Hx. apply elem_of_app in Hx as [Hx|Hx]; [by apply Ha|].
        by apply list_elem_of_singleton in Hx as ->.
Qed.

Lemma includes_nil h : Text.includes "" h = true.
Proof. by destruct h. Qed.

(** X16: [updateActiveNav] of the other script.  The running id is
    that of the last section, in document order, whose top lies no
    more than the navbar's height plus 100 pixels below the scroll
    position, and [''] while there is none; afterwards a nav link
    carries the marker exactly when its href is non-empty and contains
    that id somewhere in it.  So a link is marked whenever its href
    merely contains the id, and while no section is reached every link
    with a non-empty href is marked. *)
Theorem updateActiveNav_marks d :
  let d' := updateActiveNav sections navLinks navbarHeight layout scrollY d in
  let current := currentSection sections navbarHeight layout scrollY d in
  (∀ link, link ∈ navLinks →
     Dom.contains link "active" d' = matches current (Dom.getAttribute link "href" d))
  ∧ (((∀ sec, sec ∈ sections → reached sec = false) ∧ current = Some "")
     ∨ (∃ before sec after,
          sections = before ++ sec :: after ∧ reached sec = true
          ∧ (∀ x, x ∈ after → reached x = false)
          ∧ current = Dom.getAttribute sec "id" d))
  ∧ (∀ id pre post link,
       current = Some id → link ∈ navLinks →
       Dom.getAttribute link "href" d = Some (pre +:+ id +:+ post) →
       pre +:+ id +:+ post ≠ "" →
       Dom.contains link "active" d' = true)
  ∧ ((∀ sec, sec ∈ sections → reached sec = false) →
     ∀ link h, link ∈ navLinks → Dom.getAttribute link "href" d = Some h → h ≠ "" →
       Dom.contains link "active" d' = true).
Proof.
  intros d' current.
  assert (Hm : ∀ link, link ∈ navLinks →
            Dom.contains link "active" d' = matches current (Dom.getAttribute link "href" d)).
  { intros link Hin. pose proof (links_contains current navLinks d link) as H.
    rewrite decide_True in H by done. exact H. }
  split; [exact Hm|]. split; [apply currentSection_reached|]. split.
  - intros id pre post link Hc Hin Hh Hne. rewrite (Hm link Hin), Hh, Hc. simpl.
    rewrite bool_decide_eq_false_2 by done. simpl.
    clear. induction pre as [|c pre IH]; simpl.
    + assert (Hp : String.prefix id (id +:+ post) = true).
      { induction id as [|c id IH]; simpl; [by destruct post|].
        by destruct (ascii_dec c c). }
      destruct (id +:+ post); simpl in *; by rewrite Hp.
    + rewrite IH. apply orb_true_r.
  - intros Hnone link h Hin Hh Hne. rewrite (Hm link Hin), Hh.
    destruct (currentSection_reached d) as [[_ Hc]|(b & sec & a & Hs & Hv & _)].
    + fold current in Hc. rewrite Hc. simpl.
      by rewrite bool_decide_eq_false_2, includes_nil.
    + rewrite Hnone in Hv; [done|]. rewrite Hs. apply elem_of_app. right.
      apply list_elem_of_here.
Qed.

End Backup.

End ActiveNavMoreFacts.

Module RevealMoreFacts.

Section Tag.
Import TopnavBackup.Reveal.
Implicit Types (d : Dom.t) (el x : Dom.elem) (els : list Dom.elem) (k : string).

Lemma tag_frame n els d x k :
  x ∉ els → Dom.contains x k (tag n els d) = Dom.contains x k d.
Proof.
  revert n d. induction els as [|e els IH]; intros n d Hx; [done|].
  assert (e ≠ x) by (intros ->; apply Hx, list_elem_of_here).
  assert (x ∉ els) by (intros ?; apply Hx; by apply list_elem_of_further).
  cbn [tag]. rewrite IH by done.
  destruct (n mod 3 =? 1)%nat; [|destruct (n mod 3 =? 2)%nat]; dom_cases.
Qed.

Lemma tag_first n el els d k :
  el ∉ els →
  Dom.contains el k (tag n (el :: els) d)
  = Dom.contains el k d
    || bool_decide (k = "reveal-element")
    || bool_decide (k = "reveal-left") && (n mod 3 =? 1)%nat
    || bool_decide (k = "reveal-right") && (n mod 3 =? 2)%nat.
Proof.
  intros Hel. cbn [tag]. rewrite tag_frame by done.
  destruct (Nat.eqb_spec (n mod 3) 1) as [E1|E1];
    [rewrite E1 | destruct (Nat.eqb_spec (n mod 3) 2) as [E2|E2]];
    rewrite ?DomFacts.contains_add, ?decide_True by done;
    destruct (Dom.contains el k d); repeat case_bool_decide; simplify_eq; done.
Qed.

Lemma tag_at n els d i el k :
  NoDup els → els !! i = Some el →
  Dom.contains el k (tag n els d)
  = Dom.contains el k d
    || bool_decide (k = "reveal-element")
    || bool_decide (k = "reveal-left") && ((n + i) mod 3 =? 1)%nat
    || bool_decide (k = "reveal-right") && ((n + i) mod 3 =? 2)%nat.
Proof.
  revert n d i. induction els as [|e els IH]; intros n d i Hnd Hi; [done|].
  apply NoDup_cons in Hnd as [He Hnd]. destruct i as [|i].
  - injection Hi as ->. rewrite Nat.add_0_r. by apply tag_first.
  - simpl in Hi. assert (Hne : e ≠ el).
    { intros ->. apply He. by eapply list_elem_of_lookup_2. }
    cbn [tag]. rewrite (IH (S n) _ i Hnd Hi).
    replace (S n + i)%nat with (n + S i)%nat by lia.
    do 3 f_equal.
    destruct (n mod 3 =? 1)%nat; [|destruct (n mod 3 =? 2)%nat]; dom_cases.
Qed.

Ltac strs :=
  repeat first [ rewrite bool_decide_eq_true_2 by done
               | rewrite bool_decide_eq_false_2 by done ];
  cbn [orb andb negb].

Lemma tag_other n els d x k :
  k ≠ "reveal-element" → k ≠ "reveal-left" → k ≠ "reveal-right" →
  Dom.contains x k (tag n els d) = Dom.contains x k d.
Proof.
  intros H1 H2 H3. revert n d. induction els as [|e l IH]; intros n d; [done|].
  cbn [tag]. rewrite IH.
  destruct (n mod 3 =? 1)%nat; [|destruct (n mod 3 =? 2)%nat]; dom_cases;
    by rewrite ?bool_decide_eq_false_2.
Qed.

Lemma init_dom els d : dom (initRevealAnimations els d) = tag 0 els d.
Proof.
  unfold initRevealAnimations. generalize (tag 0 els d) as d0.
  generalize (∅ : gset Dom.elem) as obs.
  induction els as [|e l IH]; intros obs d0; simpl; [done|]. apply IH.
Qed.

(** X17: the start-up loop of [initRevealAnimations].  The element at
    place [i] of the selected list gets the class [reveal-element];
    it gets [reveal-left] exactly when [i] leaves the remainder 1 on
    division by 3 and [reveal-right] exactly when it leaves 2 (for an
    element that carried neither before), so never both; its other
    classes, [revealed] among them, stay as they were; and it is
    handed to the observer. *)
Theorem reveal_directions els d i el :
  NoDup els → els !! i = Some el →
  Dom.contains el "reveal-left" d = false →
  Dom.contains el "reveal-right" d = false →
  let s := initRevealAnimations els d in
  Dom.contains el "reveal-element" (dom s) = true
  ∧ Dom.contains el "reveal-left" (dom s) = (i mod 3 =? 1)%nat
  ∧ Dom.contains el "reveal-right" (dom s) = (i mod 3 =? 2)%nat
  ∧ (Dom.contains el "reveal-left" (dom s) && Dom.contains el "reveal-right" (dom s) = false)
  ∧ (∀ k, k ≠ "reveal-element" → k ≠ "reveal-left" → k ≠ "reveal-right" →
       Dom.contains el k (dom s) = Dom.contains el k d)
  ∧ el ∈ observed s.
Proof.
  intros Hnd Hi Hl Hr s.
  assert (Hdom : dom s = tag 0 els d) by apply init_dom.
  assert (Hat : ∀ k, Dom.contains el k (dom s)
            = Dom.contains el k d
              || bool_decide (k = "reveal-element")
              || bool_decide (k = "reveal-left") && (i mod 3 =? 1)%nat
              || bool_decide (k = "reveal-right") && (i mod 3 =? 2)%nat).
  { intros k. rewrite Hdom. by rewrite (tag_at 0 els d i el k Hnd Hi). }
  assert (H3 : (i mod 3 < 3)%nat) by (apply Nat.mod_upper_bound; lia).
  repeat split.
  - rewrite Hat. strs. by destruct (Dom.contains el "reveal-element" d).
  - rewrite Hat, Hl. strs. by destruct (i mod 3 =? 1)%nat.
  - rewrite Hat, Hr. strs. by destruct (i mod 3 =? 2)%nat.
  - rewrite !Hat, Hl, Hr. strs.
    destruct (Nat.eqb_spec (i mod 3) 1) as [E1|E1],
             (Nat.eqb_spec (i mod 3) 2) as [E2|E2]; cbn [orb andb]; try done. lia.
  - intros k H1 H2 H4. rewrite Hat. strs. by rewrite !orb_false_r.
  - apply RevealFacts.observe_all. left. by eapply list_elem_of_lookup_2.
Qed.

End Tag.

(** Seven cards: the fifth, at place 4, goes left. *)
Lemma reveal_directions_witness :
  let s := TopnavBackup.Reveal.initRevealAnimations [10; 11; 12; 13; 14; 15; 16] Dom.empty in
  Dom.contains 14 "reveal-left" (TopnavBackup.Reveal.dom s) = true
  ∧ Dom.contains 14 "reveal-right" (TopnavBackup.Reveal.dom s) = false.
Proof.
  intros s.
  destruct (reveal_directions [10; 11; 12; 13; 14; 15; 16] Dom.empty 4 14)
    as (_ & H1 & H2 & _).
  - apply (bool_decide_unpack _). vm_compute. exact I.
  - reflexivity.
  - reflexivity.
  - reflexivity.
  - split; [exact H1 | exact H2].
Defined.

Section Watching.
Variables sections navLinks navItems : list Dom.elem.
Variable navbarHeight : Z.
Variable layout : Layout.t.

Lemma callback_watching es (s : TopnavBackup.Reveal.t) el :
  (TopnavBackup.Reveal.revealed el s = true ↔ el ∉ TopnavBackup.Reveal.observed s) →
  (TopnavBackup.Reveal.revealed el (TopnavBackup.Reveal.callback es s) = true
   ↔ el ∉ TopnavBackup.Reveal.observed (TopnavBackup.Reveal.callback es s)).
Proof.
  revert s. induction es as [|en es IH]; intros s H; [done|].
  rewrite RevealFacts.callback_cons. apply IH.
  destruct (TopnavBackup.Reveal.isIntersecting en); [|done].
  unfold TopnavBackup.Reveal.revealed in *. simpl.
  rewrite DomFacts.contains_add, elem_of_difference, elem_of_singleton.
  destruct (decide (TopnavBackup.Reveal.target en = el)) as [->|Hne].
  - simpl. split; [intros _ [_ Hn]; by apply Hn | done].
  - rewrite H. split; [tauto|]. intros Hn Hobs. apply Hn. split; [done | congruence].
Qed.

Lemma callback_watching_new es (s : ScriptNew.FadeIn.t) el :
  (ScriptNew.FadeIn.revealed el s = true ↔ el ∉ ScriptNew.FadeIn.observed s) →
  (ScriptNew.FadeIn.revealed el (ScriptNew.FadeIn.callback es s) = true
   ↔ el ∉ ScriptNew.FadeIn.observed (ScriptNew.FadeIn.callback es s)).
Proof.
  revert s. induction es as [|en es IH]; intros s H; [done|].
  rewrite RevealFacts.callback_cons_new. apply IH.
  destruct (ScriptNew.FadeIn.isIntersecting en); [|done].
  unfold ScriptNew.FadeIn.revealed in *. simpl.
  rewrite DomFacts.contains_add, elem_of_difference, elem_of_singleton.
  destruct (decide (ScriptNew.FadeIn.target en = el)) as [->|Hne].
  - simpl. split; [intros _ [_ Hn]; by apply Hn | done].
  - rewrite H. split; [tauto|]. intros Hn Hobs. apply Hn. split; [done | congruence].
Qed.

Lemma run_watching evs (s : TopnavBackup.Reveal.t) el :
  (TopnavBackup.Reveal.revealed el s = true ↔ el ∉ TopnavBackup.Reveal.observed s) →
  let s' := TopnavBackup.Reveal.run sections navLinks navbarHeight layout evs s in
  (TopnavBackup.Reveal.revealed el s' = true ↔ el ∉ TopnavBackup.Reveal.observed s').
Proof.
  revert s. induction evs as [|ev evs IH]; intros s H; [done|].
  apply IH. destruct ev as [es|y]; simpl.
  - by apply callback_watching.
  - unfold TopnavBackup.Reveal.revealed in *. simpl.
    by rewrite RevealFacts.updateActiveNav_frame.
Qed.

Lemma run_watching_new evs (s : ScriptNew.FadeIn.t) el :
  (ScriptNew.FadeIn.revealed el s = true ↔ el ∉ ScriptNew.FadeIn.observed s) →
  let s' := ScriptNew.FadeIn.run sections navItems layout evs s in
  (ScriptNew.FadeIn.revealed el s' = true ↔ el ∉ ScriptNew.FadeIn.observed s').
Proof.
  revert s. induction evs as [|ev evs IH]; intros s H; [done|].
  apply IH. destruct ev as [es|y h]; simpl.
  - by apply callback_watching_new.
  - unfold ScriptNew.FadeIn.revealed in *. simpl.
    by rewrite RevealFacts.updateActiveNavOnScroll_frame.
Qed.

(** X18: an element is watched until it is revealed, and no longer.
    For an element of the list handed to the observer at start-up that
    does not carry the revealed class in the markup, at every moment
    afterwards, whatever the observer has reported and however the page
    was scrolled: it carries the class exactly when the observer no
    longer watches it.  This holds for the observer of
    [initRevealAnimations] (class [revealed]) and for [fadeInObserver]
    (class [fade-in-up]). *)
Theorem watched_until_revealed el els d evs evs' :
  el ∈ els →
  Dom.contains el "revealed" d = false →
  Dom.contains el "fade-in-up" d = false →
  (let s := TopnavBackup.Reveal.run sections navLinks navbarHeight layout evs
              (TopnavBackup.Reveal.initRevealAnimations els d) in
   TopnavBackup.Reveal.revealed el s = true ↔ el ∉ TopnavBackup.Reveal.observed s)
  ∧ (let s := ScriptNew.FadeIn.run sections navItems layout evs'
                (ScriptNew.FadeIn.observeAll els d) in
     ScriptNew.FadeIn.revealed el s = true ↔ el ∉ ScriptNew.FadeIn.observed s).
Proof.
  intros Hin Hr Hf. split.
  - apply run_watching.
    assert (Hobs : el ∈ TopnavBackup.Reveal.observed
                          (TopnavBackup.Reveal.initRevealAnimations els d))
      by (apply RevealFacts.observe_all; by left).
    unfold TopnavBackup.Reveal.revealed. rewrite init_dom.
    rewrite tag_other, Hr by done. split; [done | tauto].
  - apply run_watching_new.
    assert (Hobs : el ∈ ScriptNew.FadeIn.observed (ScriptNew.FadeIn.observeAll els d))
      by (apply RevealFacts.observe_all_new; by left).
    assert (Hdom : ScriptNew.FadeIn.dom (ScriptNew.FadeIn.observeAll els d) = d).
    { unfold ScriptNew.FadeIn.observeAll. generalize (∅ : gset Dom.elem) as obs.
      clear. induction els as [|e l IH]; intros obs; simpl; [done|]. apply IH. }
    unfold ScriptNew.FadeIn.revealed. rewrite Hdom, Hf. split; [done | tauto].
Qed.

End Watching.

(** Two cards are watched.  Card 7 is reported as intersecting, the
    page is scrolled, and a later batch reports card 8 as out of
    view: by then card 7 is revealed and unwatched, card 8 neither. *)
Lemma watched_until_revealed_witness :
  let layout := Layout.Mk (fun _ => 0%Z) (fun _ => 400%Z) in
  let s := TopnavBackup.Reveal.run [1] [5] 70 layout
             [TopnavBackup.Reveal.Report [TopnavBackup.Reveal.Entry 7 true];
              TopnavBackup.Reveal.Scrolled (300 # 1);
              TopnavBackup.Reveal.Report [TopnavBackup.Reveal.Entry 8 false]]
             (TopnavBackup.Reveal.initRevealAnimations [7; 8] Dom.empty) in
  (7 ∉ TopnavBackup.Reveal.observed s) ∧ TopnavBackup.Reveal.revealed 7 s = true.
Proof.
  intros layout s.
  destruct (watched_until_revealed [1] [5] [] 70 layout 7 [7; 8] Dom.empty
              [TopnavBackup.Reveal.Report [TopnavBackup.Reveal.Entry 7 true];
               TopnavBackup.Reveal.Scrolled (300 # 1);
               TopnavBackup.Reveal.Report [TopnavBackup.Reveal.Entry 8 false]] [])
    as [H _]; [apply list_elem_of_here | reflexivity | reflexivity |].
  assert (Hr : TopnavBackup.Reveal.revealed 7 s = true) by (vm_compute; reflexivity).
  split; [by apply H | exact Hr].
Defined.

End RevealMoreFacts.

Module NoticesFacts.
Import TopnavBackup.Contact Notices.

Implicit Types (s : t) (a : alert) (tk : task) (ev : event).

#[local] Arguments Uri.encodeURIComponent : simpl never.
#[local] Arguments Js.trim : simpl never.
#[local] Arguments Js.lit : simpl never.
#[local] Arguments Regex.test : simpl never.
#[local] Arguments subjectText : simpl never.
#[local] Arguments bodyText : simpl never.
#[local] Arguments mailtoLink : simpl never.

Lemma showAlert_kept message type s : kept s → kept (showAlert message type s).
Proof.
  intros (Hl & Ho & Ha & Ht). unfold kept, showAlert. simpl.
  assert (Htail : tail (alerts s) = []).
  { destruct (alerts s) as [|a [|b l]]; simpl in *; [done | done | lia]. }
  rewrite Htail. simpl. split; [lia|]. split; [|split].
  - intros a Hin. apply list_elem_of_singleton in Hin as ->.
    repeat split. exists (5000%Z, FadeOut (created s)). split; [|done].
    apply elem_of_app. right. apply list_elem_of_here.
  - intros a Hin. apply list_elem_of_singleton in Hin as ->. simpl. lia.
  - intros p [Hp|Hp]%elem_of_app.
    + apply Ht in Hp. lia.
    + apply list_elem_of_singleton in Hp as ->. simpl. lia.
Qed.

Lemma submit_kept s : kept s → kept (stateOf (submit s)).
Proof.
  intros H. rewrite ContactFacts.submit_eq.
  destruct (passes s); cbv zeta.
  - destruct (Uri.encodeURIComponent (subjectText _)) as [subject|]; [|done].
    destruct (Uri.encodeURIComponent (bodyText _ _ _)) as [body|]; [|done].
    exact (showAlert_kept
             "Thank you for your message! Your email client should open shortly."
             "success" (setHref (mailtoLink subject body) s) H).
  - by apply showAlert_kept.
Qed.

Lemma elem_of_delete_other {A} (l : list A) i x y :
  l !! i = Some y → x ∈ l → x ≠ y → x ∈ delete i l.
Proof.
  intros Hi Hx Hne. apply delete_Permutation in Hi. rewrite Hi in Hx.
  apply elem_of_cons in Hx as [?|?]; done.
Qed.

Lemma fireTask_kept tk s : kept s → kept (fireTask tk s).
Proof.
  intros (Hl & Ho & Ha & Ht). unfold fireTask.
  destruct (list_find _ (timers s)) as [[i p]|] eqn:E; [|done].
  apply list_find_Some in E as (Hi & Hp & _). simpl in Hp.
  assert (Hpin : p ∈ timers s) by by eapply list_elem_of_lookup_2.
  assert (Hrest : ∀ q, q ∈ timers s → taskId q.2 ≠ taskId tk → q ∈ delete i (timers s)).
  { intros q Hq Hne. eapply elem_of_delete_other; [done | done |]. congruence. }
  destruct tk as [id|id]; unfold kept, fire; simpl.
  - split; [by rewrite length_map|]. split; [|split].
    + intros a' (a & -> & Hin)%list_elem_of_fmap.
      destruct (Ho a Hin) as (R1 & R2 & R3 & q & Hq & Hid).
      assert (Hsame : alertId (if (alertId a =? id)%nat
                               then Alert (alertId a) (className a) (textContent a)
                                          (role a) (ariaLive a) (ariaAtomic a) "0"
                               else a) = alertId a) by (by destruct (_ =? _)%nat).
      unfold onItsWayOut. rewrite Hsame.
      split; [by destruct (_ =? _)%nat|]. split; [by destruct (_ =? _)%nat|].
      split; [by destruct (_ =? _)%nat|].
      destruct (decide (alertId a = id)) as [He|Hne].
      * exists (300%Z, Remove id). split; [|done].
        apply elem_of_app. right. apply list_elem_of_here.
      * exists q. split; [|done]. apply elem_of_app. left.
        apply Hrest; [done|]. simpl. congruence.
    + intros a' (a & -> & Hin)%list_elem_of_fmap. apply Ha in Hin.
      by destruct (_ =? _)%nat.
    + intros q [Hq|Hq]%elem_of_app.
      * apply Ht. by eapply list_elem_of_delete_inv.
      * apply list_elem_of_singleton in Hq as ->. simpl.
        apply Ht in Hpin. by rewrite Hp in Hpin.
  - split; [|split; [|split]].
    + etransitivity; [apply length_filter | done].
    + intros a [Hne Hin]%list_elem_of_filter.
      destruct (Ho a Hin) as (R1 & R2 & R3 & q & Hq & Hid).
      repeat split; try done. exists q. split; [|done].
      apply Hrest; [done|]. simpl. congruence.
    + intros a [_ Hin]%list_elem_of_filter. by apply Ha.
    + intros q Hq. apply Ht. by eapply list_elem_of_delete_inv.
Qed.

Lemma step_kept ev s : kept s → kept (step ev s).
Proof.
  intros H. destruct ev as [n e m| |message type|tk]; simpl.
  - exact H.
  - by apply submit_kept.
  - by apply showAlert_kept.
  - by apply fireTask_kept.
Qed.

Lemma run_kept evs s : kept s → kept (run evs s).
Proof.
  revert s. induction evs as [|ev evs IH]; intros s H; [done|].
  apply IH. by apply step_kept.
Qed.

Lemma fresh_kept s : fresh s → kept s.
Proof.
  intros [Ha Ht]. unfold kept. rewrite Ha, Ht. simpl.
  split; [lia|]. split; [|split]; intros x Hx; by apply elem_of_nil in Hx.
Qed.

(** X19: the notices of [showAlert].  From a freshly loaded page,
    through every series of form entries, submissions, direct calls of
    [showAlert] and timers firing in any order, there is never more
    than one notice on the page; a notice that is up is an assertive,
    atomic alert, and a timer that fades or removes it is pending. *)
Theorem one_notice evs s0 :
  fresh s0 →
  let s := run evs s0 in
  (length (alerts s) ≤ 1)%nat
  ∧ ∀ a, a ∈ alerts s →
      role a = "alert" ∧ ariaLive a = "assertive" ∧ ariaAtomic a = "true"
      ∧ ∃ p, p ∈ timers s ∧ taskId p.2 = alertId a.
Proof.
  intros Hf s. destruct (run_kept evs s0 (fresh_kept s0 Hf)) as (H1 & H2 & _).
  split; [exact H1 | exact H2].
Qed.

Lemma fire_spares tk s a :
  alerts s = [a] → taskId tk ≠ alertId a → alerts (fireTask tk s) = [a].
Proof.
  intros Ha Hne. unfold fireTask.
  destruct (list_find _ (timers s)) as [[i p]|]; [|done].
  destruct tk as [id|id]; unfold fire; simpl in *; rewrite Ha; simpl.
  - destruct (Nat.eqb_spec (alertId a) id); [congruence | done].
  - rewrite filter_cons_True; [done | congruence].
Qed.

(** X20: a notice is not cut short by the timers of the notices that
    came before it.  In any state the page reaches, every pending
    timer belongs to a notice created earlier; so when [showAlert]
    puts up a new notice, firing any of the timers of its
    predecessors, in any number and order, leaves the new notice on
    the page, alone and fully visible; only its own timer fades it. *)
Theorem notice_outlives_old_timers evs s0 message type tks :
  fresh s0 →
  let s := run evs s0 in
  let s1 := showAlert message type s in
  let notice := Alert (created s) ("custom-alert custom-alert-" +:+ type) message
                      "alert" "assertive" "true" "" in
  (∀ p, p ∈ timers s → taskId p.2 ≠ created s)
  ∧ alerts s1 = [notice]
  ∧ (Forall (fun tk => taskId tk ≠ created s) tks →
     alerts (fold_left (fun s tk => fireTask tk s) tks s1) = [notice])
  ∧ alerts (fireTask (FadeOut (created s)) s1)
    = [Alert (created s) ("custom-alert custom-alert-" +:+ type) message
             "alert" "assertive" "true" "0"].
Proof.
  intros Hf s s1 notice.
  destruct (run_kept evs s0 (fresh_kept s0 Hf)) as (Hl & _ & _ & Ht). fold s in Hl, Ht.
  assert (H1 : alerts s1 = [notice]).
  { subst s1 notice. unfold showAlert. simpl.
    destruct (alerts s) as [|a [|b l]]; simpl in *; [done | done | lia]. }
  split; [|split; [exact H1 | split]].
  - intros p Hp. apply Ht in Hp. lia.
  - intros Hall. revert H1. generalize s1. clear -Hall.
    induction Hall as [|tk tks Hne _ IH]; intros s1 H1; [done|].
    simpl. apply IH. by apply fire_spares.
  - unfold fireTask.
    assert (Hfind : ∃ i p, list_find (fun p => p.2 = FadeOut (created s)) (timers s1)
                           = Some (i, p)).
    { destruct (list_find _ (timers s1)) as [[i p]|] eqn:E; [by eauto|].
      exfalso. eapply list_find_None in E.
      assert (Hin : (5000%Z, FadeOut (created s)) ∈ timers s1).
      { subst s1. unfold showAlert. simpl. apply elem_of_app. right.
        apply list_elem_of_here. }
      rewrite Forall_forall in E. by apply E in Hin. }
    destruct Hfind as (i & p & ->). unfold fire. cbn [alerts]. rewrite H1.
    subst notice. simpl. by rewrite Nat.eqb_refl.
Qed.

(** A page just loaded; an empty form is submitted, which puts up
    an error notice, and a second submission follows before any timer
    has fired. *)
Lemma one_notice_witness :
  let s0 := Mk (Some (Field [] [])) (Some (Field [] [])) (Some (Field [] []))
               (Js.lit "https://mueez21.github.io/") [] [] 0 in
  (length (alerts (run [Submit; Submit] s0)) ≤ 1)%nat.
Proof.
  intros s0. destruct (one_notice [Submit; Submit] s0) as [H _]; [done | exact H].
Defined.

(** An error notice is up and its timer has fired once when a second
    notice replaces it; the first notice's removal timer then fires. *)
Lemma notice_outlives_old_timers_witness :
  let s0 := Mk None None None [] [] [] 0 in
  let s1 := showAlert "Sent." "success" (run [Show "Oops" "error"; Fire (FadeOut 0)] s0) in
  alerts (fireTask (Remove 0) s1)
  = [Alert 1 "custom-alert custom-alert-success" "Sent." "alert" "assertive" "true" ""].
Proof.
  intros s0 s1.
  destruct (notice_outlives_old_timers [Show "Oops" "error"; Fire (FadeOut 0)] s0
              "Sent." "success" [Remove 0]) as (_ & _ & H & _); [done|].
  apply H. repeat constructor. vm_compute. discriminate.
Defined.

Lemma noticeText_showAlert message type s :
  noticeText (showAlert message type s) = Some message.
Proof. unfold noticeText, showAlert. cbn [alerts]. by rewrite last_snoc. Qed.

(** X21: when more than one check fails, the notice names the last
    one that failed, in the order name, e-mail, message.  A message
    that is too short is what the notice reports whatever else is
    wrong; with the message long enough, a malformed e-mail is
    reported whatever the name; and the name is reported only when
    it alone fails. *)
Theorem last_failure_is_reported s :
  (¬ atLeast 10 (messageField s) →
   noticeText (stateOf (submit s))
   = Some "Please enter a message (at least 10 characters).")
  ∧ (atLeast 10 (messageField s) → ¬ wellShaped (emailField s) →
     noticeText (stateOf (submit s)) = Some "Please enter a valid email address.")
  ∧ (atLeast 10 (messageField s) → wellShaped (emailField s) →
     ¬ atLeast 2 (nameField s) →
     noticeText (stateOf (submit s))
     = Some "Please enter a valid name (at least 2 characters).").
Proof.
  rewrite <- !ContactFacts.missingOrShorter_false,
          <- ContactFacts.missingOrMalformed_false by lia.
  rewrite !not_false_iff_true.
  rewrite ContactFacts.submit_eq. unfold passes, validate.
  destruct (missingOrShorter (trimmed (nameField s)) 2),
           (missingOrMalformed (trimmed (emailField s))),
           (missingOrShorter (trimmed (messageField s)) 10); cbn [fst snd stateOf];
    repeat split; intros; try done; apply noticeText_showAlert.
Qed.

Local Abbreviation spaces := (Forall (fun c => Js.isWhiteSpace c = true)).

Lemma trimStart_spaces_app pre v : spaces pre → Js.trimStart (pre ++ v) = Js.trimStart v.
Proof. induction 1 as [|c pre Hc _ IH]; [done|]. simpl. by rewrite Hc. Qed.

Lemma trimStart_app v w :
  Js.trimStart v ≠ [] → Js.trimStart (v ++ w) = Js.trimStart v ++ w.
Proof.
  induction v as [|c v IH]; [done|]. simpl.
  destruct (Js.isWhiteSpace c); [exact IH | done].
Qed.

Lemma spaces_reverse v : spaces v → spaces (reverse v).
Proof. intros H. by rewrite Forall_reverse. Qed.

(** White space around a value is lost on trimming. *)
Lemma trim_padded pre post v :
  spaces pre → spaces post → Js.trim (pre ++ v ++ post) = Js.trim v.
Proof.
  intros Hpre Hpost. unfold Js.trim, Js.trimEnd.
  rewrite trimStart_spaces_app by done.
  destruct (Js.trimStart v) as [|c u] eqn:E.
  - assert (Hv : spaces v) by by apply JsFacts.trimStart_nil.
    assert (Hn : Js.trimStart (v ++ post) = []).
    { apply JsFacts.trimStart_nil, Forall_app. by split. }
    by rewrite Hn.
  - rewrite trimStart_app, E by (rewrite E; done).
    rewrite reverse_app.
    by rewrite trimStart_spaces_app by by apply spaces_reverse.
Qed.

Lemma trimmed_pad pre post (f : option field) :
  spaces pre → spaces post → trimmed (pad pre post f) = trimmed f.
Proof.
  intros Hpre Hpost. destruct f as [f|]; [|done]. simpl.
  f_equal. by apply trim_padded.
Qed.

(** X22: white space typed around a value makes no difference.  A
    form whose three values are each wrapped in any white space is
    treated as the form without it: the same checks pass or fail,
    the listener ends the same way, and it leaves the same link, the
    same notices and the same timers. *)
Theorem padding_ignored pn qn pe qe pm qm s :
  spaces pn → spaces qn → spaces pe → spaces qe → spaces pm → spaces qm →
  let s' := padded pn qn pe qe pm qm s in
  passes s' = passes s
  ∧ threw (submit s') = threw (submit s)
  ∧ prevented (submit s') = prevented (submit s)
  ∧ href (stateOf (submit s')) = href (stateOf (submit s))
  ∧ alerts (stateOf (submit s')) = alerts (stateOf (submit s))
  ∧ timers (stateOf (submit s')) = timers (stateOf (submit s)).
Proof.
  intros H1 H2 H3 H4 H5 H6 s'.
  assert (Hn : trimmed (nameField s') = trimmed (nameField s)) by by apply trimmed_pad.
  assert (He : trimmed (emailField s') = trimmed (emailField s)) by by apply trimmed_pad.
  assert (Hm : trimmed (messageField s') = trimmed (messageField s)) by by apply trimmed_pad.
  assert (Hp : passes s' = passes s) by (unfold passes; by rewrite Hn, He, Hm).
  split; [exact Hp|].
  rewrite !ContactFacts.submit_eq, Hp, Hn, He, Hm. cbv zeta.
  destruct (passes s); [|done].
  destruct (Uri.encodeURIComponent (subjectText _)) as [subject|]; [|done].
  destruct (Uri.encodeURIComponent (bodyText _ _ _)) as [body|]; done.
Qed.

(** The values of the specification's example, typed with spaces and
    a line break around them. *)
Lemma padding_ignored_witness :
  let s := Mk (Some (Field (Js.lit "Jane") []))
              (Some (Field (Js.lit "jane@example.com") []))
              (Some (Field (Js.lit "Hello there, loved your work!") []))
              [] [] [] 0 in
  let s' := padded [32; 32]%Z [32]%Z [9]%Z [] [] [10; 32]%Z s in
  href (stateOf (submit s')) = href (stateOf (submit s)).
Proof.
  intros s s'.
  assert (Hs : ∀ l, forallb Js.isWhiteSpace l = true → spaces l).
  { intros l H. apply Forall_forall. intros c Hc.
    rewrite forallb_forall in H. apply H. by apply list_elem_of_In. }
  destruct (padding_ignored [32; 32]%Z [32]%Z [9]%Z [] [] [10; 32]%Z s)
    as (_ & _ & _ & H & _); [by apply Hs..|].
  exact H.
Defined.

End NoticesFacts.

Module ContactNewMoreFacts.
Import ScriptNew.Contact.

#[local] Arguments Js.trim : simpl never.
#[local] Arguments Regex.test : simpl never.

Local Abbreviation spaces := (Forall (fun c => Js.isWhiteSpace c = true)).

(** X23: the submit listener of [script_new.js].  If one of the three
    values is empty or white space only, it cancels the submission
    and tells the user to fill in all fields; if none is but the
    trimmed e-mail lacks the [local@domain.tld] shape, it cancels and
    asks for a valid address; otherwise it neither cancels nor alerts,
    so the browser submits the form.  Unlike the other script it sets
    no minimum length. *)
Theorem new_form_outcome f :
  (spaces (name f) ∨ spaces (email f) ∨ spaces (message f) →
   submit f = Result true (Some "Please fill in all fields before submitting."))
  ∧ (¬ spaces (name f) → ¬ spaces (email f) → ¬ spaces (message f) →
     ¬ Regex.emailShape (Js.trim (email f)) →
     submit f = Result true (Some "Please enter a valid email address."))
  ∧ (¬ spaces (name f) → ¬ spaces (message f) →
     Regex.emailShape (Js.trim (email f)) →
     submit f = Result false None).
Proof.
  assert (Ht : ∀ v, Js.truthy (Js.trim v) = false ↔ spaces v).
  { intros v. rewrite <- JsFacts.trim_nil. by destruct (Js.trim v). }
  assert (Hn : ∀ v, ¬ spaces v → Js.truthy (Js.trim v) = true).
  { intros v H. apply not_false_iff_true. by rewrite Ht. }
  unfold submit. split; [|split].
  - intros [H|[H|H]]; apply Ht in H; rewrite H; simpl;
      by rewrite ?orb_true_r.
  - intros H1 H2 H3 H4. rewrite !Hn by done. simpl.
    rewrite <- RegexFacts.emailPattern_spec in H4.
    apply not_true_is_false in H4. by rewrite H4.
  - intros H1 H3 H4.
    assert (H2 : ¬ spaces (email f)).
    { intros H. apply JsFacts.trim_nil in H.
      by apply ContactFacts.shape_nonempty in H4. }
    rewrite !Hn by done. simpl.
    apply RegexFacts.emailPattern_spec in H4. by rewrite H4.
Qed.

End ContactNewMoreFacts.

Module EmailFacts.
Import Regex.

Implicit Types (s l : list Z) (c : Z).

Lemma plain_no_at l : plain l → filter (fun c => c = 64%Z) l = [].
Proof.
  intros [_ H]. induction H as [|c l Hc _ IH]; [done|].
  rewrite filter_cons_False, IH; [done|]. intros ->. by vm_compute in Hc.
Qed.

Lemma plain_no_space l : plain l → Forall (fun c => Js.isWhiteSpace c = false) l.
Proof.
  intros [_ H]. eapply Forall_impl; [exact H|]. intros c Hc. simpl in Hc.
  unfold notSpaceAt in Hc. apply andb_true_iff in Hc as [Hc _].
  by apply negb_true_iff in Hc.
Qed.

Lemma plain_length l : plain l → (1 ≤ length l)%nat.
Proof. intros [H _]. destruct l; [done | simpl; lia]. Qed.

(** X24: what the e-mail pattern of both scripts lets through.  A
    text that passes holds exactly one [@], which is not its first
    character, and no white space at all; a dot comes after the [@],
    not directly after it and not as the last character; so the text
    is at least five characters long. *)
Theorem email_one_at s :
  test emailPattern s = true →
  length (filter (fun c => c = 64%Z) s) = 1%nat
  ∧ Forall (fun c => Js.isWhiteSpace c = false) s
  ∧ (∃ i j, s !! i = Some 64%Z ∧ s !! j = Some 46%Z
            ∧ (0 < i)%nat ∧ (i + 1 < j)%nat ∧ (j + 1 < length s)%nat)
  ∧ (5 ≤ length s)%nat.
Proof.
  intros H. apply RegexFacts.emailPattern_spec in H as (l & d & t & -> & Hl & Hd & Ht).
  pose proof (plain_length l Hl). pose proof (plain_length d Hd).
  pose proof (plain_length t Ht).
  split; [|split; [|split]].
  - rewrite !filter_app, (plain_no_at l Hl), (plain_no_at d Hd), (plain_no_at t Ht).
    reflexivity.
  - rewrite !Forall_app. repeat split; try (by apply plain_no_space);
      by repeat constructor.
  - exists (length l), (length l + 1 + length d)%nat. split; [|split; [|split; [|split]]].
    + by rewrite lookup_app_r, Nat.sub_diag by lia.
    + rewrite lookup_app_r by lia.
      replace (length l + 1 + length d - length l)%nat with (1 + length d)%nat by lia.
      simpl. by rewrite lookup_app_r, Nat.sub_diag by lia.
    + lia.
    + lia.
    + rewrite !length_app. simpl. lia.
  - rewrite !length_app. simpl. lia.
Qed.

(** The shortest address there is. *)
Lemma email_one_at_witness :
  length (filter (fun c => c = 64%Z) (Js.lit "a@b.c")) = 1%nat.
Proof.
  destruct (email_one_at (Js.lit "a@b.c")) as (H & _); [by vm_compute | exact H].
Defined.

End EmailFacts.

Module OrphanFacts.
Import TopnavBackup BackupPage Orphan.

Section Facts.
Variables hamburger navMenu : Dom.elem.
Variable pg : Modal.page.
Variable order : list Dom.elem.
Implicit Types (s : Modal.t) (p : Dom.elem).

Local Abbreviation step := (step hamburger navMenu pg order).
Local Abbreviation run := (run hamburger navMenu pg order).

Lemma step_orphan ev s p :
  p ≠ hamburger → p ≠ navMenu → isTrigger ev = false →
  Modal.activeModal s = None → Modal.isOpen p s = true →
  Modal.activeModal (step ev s) = None ∧ Modal.isOpen p (step ev s) = true.
Proof.
  intros H1 H2 Hev Ha Ho. unfold Modal.isOpen in *.
  destruct ev as [modalId a b|a b|c| |ev]; [done| | | |]; cbn [BackupPage.step].
  - unfold closeButtonClick, bubble.
    rewrite (ModalFacts.closeCurrentModal_idle s Ha).
    change (Modal.dom (Modal.setDom ?d _)) with d.
    destruct (BackupPageFacts.documentClick_frame hamburger navMenu a b (Modal.dom s) p H1 H2)
      as [-> _]. done.
  - change (Modal.dom (Modal.setDom ?d _)) with d.
    destruct (BackupPageFacts.onClick_frame hamburger navMenu c (Modal.dom s) p H1 H2)
      as [-> _]. done.
  - unfold Modal.documentKeydown. by rewrite Ha, andb_false_r.
  - destruct (ModalFacts.step_frame pg order ev s) as (Hm & _ & Hf).
    by rewrite Hm, (ModalFacts.sameButFocus_contains _ _ _ _ Hf).
Qed.

Lemma run_orphan evs s p :
  p ≠ hamburger → p ≠ navMenu → Forall (fun ev => isTrigger ev = false) evs →
  Modal.activeModal s = None → Modal.isOpen p s = true →
  Modal.activeModal (run evs s) = None ∧ Modal.isOpen p (run evs s) = true.
Proof.
  intros H1 H2 Hevs. revert s. induction Hevs as [|ev evs Hev _ IH]; intros s Ha Ho; [done|].
  destruct (step_orphan ev s p H1 H2 Hev Ha Ho) as [Ha' Ho'].
  by apply IH.
Qed.

(** X25: a panel left open behind another cannot be closed.  When a
    second panel is opened while a first is open and one close
    follows, the first panel is still marked open but nothing refers
    to it; from then on no close button, no Escape press, no click on
    the menu or elsewhere, no Tab press and no timer closes it: it
    stays marked open until a trigger is clicked again. *)
Theorem orphaned_panel_stays_open first second a b evs s :
  first ≠ second → first ≠ hamburger → first ≠ navMenu →
  Forall (fun ev => isTrigger ev = false) evs →
  let s1 := Modal.openModal pg (Some second) (Modal.openModal pg (Some first) s) in
  let s2 := closeButtonClick hamburger navMenu a b s1 in
  let s3 := run evs s2 in
  Modal.isOpen first s2 = true ∧ Modal.isOpen second s2 = false
  ∧ Modal.activeModal s2 = None
  ∧ Modal.isOpen first s3 = true ∧ Modal.activeModal s3 = None.
Proof.
  intros Hne H1 H2 Hevs s1 s2 s3.
  assert (Hs2 : s2 = bubble hamburger navMenu a b (Modal.closeModal (Some second) s1)) by done.
  destruct (ModalFacts.closeModal_effects second s1) as (C1 & _ & _ & C4 & _ & _ & _ & C8).
  assert (Ho1 : Modal.isOpen first s1 = true).
  { unfold Modal.isOpen. subst s1. cbn [Modal.openModal Modal.trapFocus Modal.dom].
    dom_cases. }
  assert (Hf : ∀ p st, Modal.isOpen p (bubble hamburger navMenu a b st)
                       = Dom.contains p "active"
                           (documentClick hamburger navMenu a b (Modal.dom st))) by done.
  assert (Ho2 : Modal.isOpen first s2 = true).
  { rewrite Hs2, Hf.
    destruct (BackupPageFacts.documentClick_frame hamburger navMenu a b
                (Modal.dom (Modal.closeModal (Some second) s1)) first H1 H2) as [-> _].
    fold (Modal.isOpen first (Modal.closeModal (Some second) s1)).
    by rewrite C8. }
  assert (Hc2 : Modal.isOpen second s2 = false).
  { rewrite Hs2, Hf. unfold documentClick. destruct (_ && _); [|exact C1].
    unfold Modal.isOpen in C1. dom_cases; by rewrite ?andb_false_l, ?andb_false_r. }
  assert (Ha2 : Modal.activeModal s2 = None) by (rewrite Hs2; exact C4).
  destruct (run_orphan evs s2 first H1 H2 Hevs Ha2 Ho2) as [Ha3 Ho3].
  repeat split; done.
Qed.

End Facts.

(** Both panels of the two-panel page are opened, one close follows,
    then Escape twice and another click on a close button: the first
    panel is still open. *)
Lemma orphaned_panel_stays_open_witness :
  let s2 := closeButtonClick 7 8 false false
              (Modal.openModal Modal.twoPanels (Some 2)
                 (Modal.openModal Modal.twoPanels (Some 1) (Modal.initial Dom.empty))) in
  Modal.isOpen 1 (run 7 8 Modal.twoPanels []
                    [PressEscape; PressEscape; ClickCloseButton false false] s2) = true.
Proof.
  intros s2.
  destruct (orphaned_panel_stays_open 7 8 Modal.twoPanels [] 1 2 false false
              [PressEscape; PressEscape; ClickCloseButton false false]
              (Modal.initial Dom.empty)) as (_ & _ & _ & H & _);
    [done | done | done | by repeat constructor | exact H].
Defined.

End OrphanFacts.

Module BackupCertificateFacts.
Import TopnavBackup BackupCertificate.

Section Facts.
Variables hamburger navMenu certificateModal : Dom.elem.
Hypothesis apartH : certificateModal ≠ hamburger.
Hypothesis apartN : certificateModal ≠ navMenu.
Implicit Types (s : Certificate.t) (d : Dom.t).

Local Abbreviation step := (step hamburger navMenu certificateModal).
Local Abbreviation run := (run hamburger navMenu certificateModal).
Local Abbreviation settled := (settled certificateModal).
Local Abbreviation isOpen := (isOpen certificateModal).

Lemma menu_frame d d' :
  (∀ k, Dom.contains certificateModal k d' = Dom.contains certificateModal k d) →
  (∀ k, Dom.getAttribute certificateModal k d' = Dom.getAttribute certificateModal k d) →
  ∀ img s, Certificate.dom s = d → Certificate.image s = img →
    settled s → settled (Certificate.Mk d' img).
Proof.
  intros Hc Ha img s <- <- [H1 H2]. unfold BackupCertificate.settled, BackupCertificate.isOpen in *.
  cbn [Certificate.dom Certificate.image]. by rewrite Hc, Ha.
Qed.

Lemma documentClick_keeps a b d :
  (∀ k, Dom.contains certificateModal k (documentClick hamburger navMenu a b d)
        = Dom.contains certificateModal k d)
  ∧ (∀ k, Dom.getAttribute certificateModal k (documentClick hamburger navMenu a b d)
          = Dom.getAttribute certificateModal k d).
Proof.
  unfold documentClick. destruct (_ && _); [|done]. split; intros k; dom_cases.
Qed.

Lemma onClick_keeps c d :
  (∀ k, Dom.contains certificateModal k (onClick hamburger navMenu c d)
        = Dom.contains certificateModal k d)
  ∧ (∀ k, Dom.getAttribute certificateModal k (onClick hamburger navMenu c d)
          = Dom.getAttribute certificateModal k d).
Proof.
  destruct c as [|b|b]; cbn [onClick].
  - destruct (documentClick_keeps true false (hamburgerClick hamburger navMenu d)) as [H1 H2].
    split; intros k; rewrite ?H1, ?H2; unfold hamburgerClick; dom_cases.
  - destruct (documentClick_keeps false b (navLinkClick hamburger navMenu d)) as [H1 H2].
    split; intros k; rewrite ?H1, ?H2; unfold navLinkClick; dom_cases.
  - apply documentClick_keeps.
Qed.

Lemma bubble_settled a b s :
  settled s → settled (bubble hamburger navMenu a b s).
Proof.
  intros H. destruct (documentClick_keeps a b (Certificate.dom s)) as [H1 H2].
  by eapply menu_frame.
Qed.

Lemma closeClick_settled s :
  settled (Certificate.closeClick certificateModal s)
  ∧ isOpen (Certificate.closeClick certificateModal s) = false.
Proof.
  unfold BackupCertificate.settled, BackupCertificate.isOpen, Certificate.closeClick.
  cbn [Certificate.dom Certificate.image Image.src].
  assert (Hc : Dom.contains certificateModal "active"
                 (Dom.setOverflow ""
                    (Dom.setAttribute certificateModal "aria-hidden" "true"
                       (Dom.remove certificateModal "active" (Certificate.dom s)))) = false)
    by dom_cases.
  rewrite Hc. split; [split; [dom_cases|done]|done].
Qed.

Lemma viewClick_settled certificateId s :
  settled s → settled (Certificate.viewClick certificateModal certificateId s).
Proof.
  intros H. unfold Certificate.viewClick. case_match; [|done].
  unfold BackupCertificate.settled, BackupCertificate.isOpen.
  cbn [Certificate.dom Certificate.image Image.src].
  assert (Hc : Dom.contains certificateModal "active"
                 (Dom.setOverflow "hidden"
                    (Dom.setAttribute certificateModal "aria-hidden" "false"
                       (Dom.add certificateModal "active" (Certificate.dom s)))) = true)
    by dom_cases.
  rewrite Hc. split; [dom_cases|done].
Qed.

Lemma view_step_settled ev s : settled s → settled (step ev s).
Proof.
  intros H. destruct ev as [certificateId a b|a b|c|key]; cbn [BackupCertificate.step].
  - by apply bubble_settled, viewClick_settled.
  - apply bubble_settled, closeClick_settled.
  - destruct (onClick_keeps c (Certificate.dom s)) as [H1 H2]. by eapply menu_frame.
  - unfold Certificate.keydown. case_match; [apply closeClick_settled|done].
Qed.

Lemma view_run_settled evs s : settled s → settled (run evs s).
Proof.
  revert s. induction evs as [|ev evs IH]; intros s H; [done|].
  by apply IH, view_step_settled.
Qed.

(** X26: the certificate modal of the backup script over any sequence
    of view clicks, close clicks, menu clicks and key presses.  If
    [aria-hidden] agrees with the [active] class and a closed modal
    shows no image to begin with, this stays so throughout; a close
    click and an Escape press both leave the modal closed with the
    image source emptied, while the alt text is never reset; and a
    click on a view button outside the hamburger and the menu leaves
    page scrolling unlocked whatever it opened, because the document's
    click listener runs after the button's. *)
Theorem certificate_settled evs s :
  settled s →
  let s' := run evs s in
  settled s'
  ∧ (∀ a b, isOpen (step (ClickClose a b) s') = false
            ∧ Image.src (Certificate.image (step (ClickClose a b) s')) = JsObject.Str ""
            ∧ Image.alt (Certificate.image (step (ClickClose a b) s'))
              = Image.alt (Certificate.image s'))
  ∧ isOpen (step (Keydown "Escape") s') = false
  ∧ Image.src (Certificate.image (step (Keydown "Escape") s')) = JsObject.Str ""
  ∧ (∀ certificateId,
       Dom.bodyOverflow (Certificate.dom (step (ClickView certificateId false false) s')) = "").
Proof.
  intros H s'. pose proof (view_run_settled evs s H) as Hs'. fold s' in Hs'.
  split; [exact Hs'|]. split; [|split; [|split]].
  - intros a b. cbn [BackupCertificate.step].
    destruct (documentClick_keeps a b
                (Certificate.dom (Certificate.closeClick certificateModal s'))) as [H1 _].
    unfold BackupCertificate.isOpen, bubble. cbn [Certificate.dom Certificate.image].
    rewrite H1. split; [apply closeClick_settled|done].
  - cbn [BackupCertificate.step]. unfold Certificate.keydown.
    rewrite bool_decide_eq_true_2 by done. cbn [andb].
    destruct (Dom.contains certificateModal "active" (Certificate.dom s')) eqn:E;
      [apply closeClick_settled|exact E].
  - cbn [BackupCertificate.step]. unfold Certificate.keydown.
    rewrite bool_decide_eq_true_2 by done. cbn [andb].
    destruct (Dom.contains certificateModal "active" (Certificate.dom s')) eqn:E; [done|].
    by apply Hs'.
  - intros certificateId. cbn [BackupCertificate.step]. unfold bubble, documentClick.
    cbn [negb andb Certificate.dom]. done.
Qed.

End Facts.

(** A certificate is viewed and dismissed with Escape on a page whose
    modal starts closed and announced as hidden. *)
Lemma certificate_settled_witness :
  let s0 := Certificate.Mk (Dom.setAttribute 3 "aria-hidden" "true" Dom.empty)
              (Image.Mk (JsObject.Str "") "") in
  let s' := run 1 2 3 [ClickView (Some "matlab-certificate") false false; Keydown "Escape"] s0 in
  Image.src (Certificate.image s') = JsObject.Str ""
  ∧ Dom.getAttribute 3 "aria-hidden" (Certificate.dom s') = Some "true".
Proof.
  intros s0 s'.
  assert (H0 : settled 3 s0) by (split; [vm_compute; reflexivity | done]).
  destruct (certificate_settled 1 2 3 ltac:(done) ltac:(done)
              [ClickView (Some "matlab-certificate") false false; Keydown "Escape"] s0 H0)
    as [[Ha Hi] _].
  assert (Hc : isOpen 3 s' = false) by (vm_compute; reflexivity).
  fold s' in Ha, Hi. rewrite Hc in Ha. split; [by apply Hi | exact Ha].
Defined.

End BackupCertificateFacts.

Module ViewportFacts.
Import Viewport.

(** X27: an element that [isInViewport] reports lies wholly inside the
    window, so it is no taller and no wider than the window: an
    element taller or wider than the window is never reported, however
    it is scrolled.  The height and width compared with are the
    window's inner ones, or the document element's client ones where
    the inner one is [0]. *)
Theorem isInViewport_fits r w :
  isInViewport r w = true →
  let height := orElse (innerHeight w) (clientHeight w) in
  let width := orElse (innerWidth w) (clientWidth w) in
  (bottom r - top r <= inject_Z height)%Q ∧ (right r - left r <= inject_Z width)%Q.
Proof.
  unfold isInViewport, Layout.geq, leq. intros H.
  apply andb_true_iff in H as [H H4]. apply andb_true_iff in H as [H H3].
  apply andb_true_iff in H as [H1 H2].
  apply Qle_bool_iff in H1, H2, H3, H4. revert H1 H2 H3 H4.
  generalize (inject_Z (orElse (innerHeight w) (clientHeight w)))
             (inject_Z (orElse (innerWidth w) (clientWidth w))).
  destruct r as [[tn td] [ln ld] [bn bd] [rn rd]]. intros [hn hd] [wn wd].
  unfold Qle, Qminus, Qplus, Qopp, inject_Z. simpl. intros H1 H2 H3 H4. split; nia.
Qed.

(** A 300-pixel-tall element where the inner height reads [0] and the
    document element is 600 pixels tall. *)
Lemma isInViewport_fits_witness :
  isInViewport (Rect (inject_Z 10) (inject_Z 0) (inject_Z 310) (inject_Z 200))
    (Window 0 800 600 800) = true
  ∧ (inject_Z 310 - inject_Z 10 <= inject_Z 600)%Q.
Proof.
  split; [vm_compute; reflexivity|].
  apply (isInViewport_fits (Rect (inject_Z 10) (inject_Z 0) (inject_Z 310) (inject_Z 200))
           (Window 0 800 600 800)).
  vm_compute; reflexivity.
Defined.

End ViewportFacts.
